(** * Genetic programming for symbolic regression: [algorithms/benchmark_classic.py]

    A shallow embedding of the classic GP benchmark and of the DEAP
    operators it is assembled from, followed by the properties of the
    fitness evaluators and of the generational loop.

    Conventions.
    - Numbers are exact rationals ([Q]); floating-point rounding and
      non-finite values are outside the model.
    - Python exceptions are the [Raise] branch of [result].
    - A [gp.PrimitiveTree], the list of the nodes of an expression in prefix
      order, is the expression it lists ([expr]); nodes keep their index in
      that list.
    - Objects mutated in place (individuals) live in an explicit heap and
      are handled through references, so that aliasing is visible.
    - The two pseudo-random generators (Python's [random], used inside DEAP,
      and [numpy.random], used by the benchmark) are tapes of raw draws, one
      cell per call; a seed fixes a tape.
    - [time.clock()] is a function of the number of calls made before; what
      the loop prints is left out. *)

From Stdlib Require Import List Arith NArith ZArith QArith Qabs Qround Lia Lqa
  Bool.
Import ListNotations.

Set Implicit Arguments.

(** ** Python results *)

Inductive exn : Set :=
| IndexError
| ZeroDivisionError
| TypeError
| NameError
| ValueError.

Inductive result (A : Type) : Type :=
| Ok (a : A)
| Raise (e : exn).

Arguments Ok {A} a.
Arguments Raise {A} e.

Definition rbind {A B} (r : result A) (k : A -> result B) : result B :=
  match r with
  | Ok a => k a
  | Raise e => Raise e
  end.

Declare Scope result_scope.
Delimit Scope result_scope with res.
Notation "'let?' x ':=' r 'in' k" := (rbind r (fun x => k))
  (at level 10, x name, r at level 100, k at level 200) : result_scope.
Local Open Scope result_scope.

(** [seq[i]] on a Python sequence. *)
Definition getitem {A} (l : list A) (i : nat) : result A :=
  match nth_error l i with
  | Some a => Ok a
  | None => Raise IndexError
  end.

(** A [for] loop threading an accumulator, stopping at the first exception. *)
Fixpoint for_acc {A B} (body : B -> A -> result B) (l : list A) (acc : B)
  : result B :=
  match l with
  | [] => Ok acc
  | x :: l' => let? acc' := body acc x in for_acc body l' acc'
  end.

(** ** Expression trees ([gp.PrimitiveTree] over the benchmark's primitive set) *)

Inductive primitive : Set :=
| np_add
| np_subtract
| np_multiply
| division.

(** An individual's expression over the benchmark's primitive set: an
    argument [ARGi], an ephemeral constant [randomTerm] with the value drawn
    when the node was made, or one of the four primitives, all of arity 2,
    with its two arguments. *)
Inductive expr : Set :=
| ARG (i : nat)
| randomTerm (c : Q)
| Prim (p : primitive) (a b : expr).

(** [len(individual)]: the number of nodes. *)
Fixpoint len (t : expr) : nat :=
  match t with
  | Prim _ a b => S (len a + len b)
  | _ => 1
  end.

(** [individual.height]: the longest root-to-leaf path, in edges. *)
Fixpoint height (t : expr) : nat :=
  match t with
  | Prim _ a b => S (Nat.max (height a) (height b))
  | _ => 0
  end.

(** [gp.PrimitiveSet("main", n)]: [n] arguments [ARG0 .. ARG(n-1)], the four
    arithmetic primitives and one ephemeral constant. *)
Record PrimitiveSet : Set := mkPset { arguments : nat }.

(** A pandas [DataFrame] of numbers: its rows and its number of columns. *)
Record DataFrame : Set := mkData { values : list (list Q); columns : nat }.

Definition shape0 (d : DataFrame) : nat := length (values d).
Definition shape1 (d : DataFrame) : nat := columns d.

(** Every row has [shape[1]] entries. *)
Definition rectangular (d : DataFrame) : Prop :=
  Forall (fun r => length r = columns d) (values d).

(** What [gp.compile] returns: a lambda over the set's arguments, or, for a
    set without arguments, the value of the expression itself. *)
Inductive compiled : Set :=
| Lambda (nargs : nat) (body : expr)
| Value (v : Q).

Section Fitness.

(** [utility.operators.division], the protected division of the primitive
    set; its file is not part of the sources, so it is a parameter. *)
Variable protected_div : Q -> Q -> Q.

Variable pset : PrimitiveSet.

Definition apply_primitive (p : primitive) (x y : Q) : Q :=
  match p with
  | np_add => x + y
  | np_subtract => x - y
  | np_multiply => x * y
  | division => protected_div x y
  end.

(** Evaluation of the generated Python expression under the bindings
    [ARGi := args[i]]; an unbound name raises [NameError]. *)
Fixpoint eval_expr (args : list Q) (t : expr) : result Q :=
  match t with
  | ARG i =>
      match nth_error args i with
      | Some v => Ok v
      | None => Raise NameError
      end
  | randomTerm c => Ok c
  | Prim p a b =>
      let? x := eval_expr args a in
      let? y := eval_expr args b in
      Ok (apply_primitive p x y)
  end.

(** [gp.compile(expr, pset)]. *)
Definition compile (t : expr) : result compiled :=
  match arguments pset with
  | O => let? v := eval_expr [] t in Ok (Value v)
  | S _ => Ok (Lambda (arguments pset) t)
  end.

(** Calling the compiled function on unpacked positional arguments. *)
Definition call (f : compiled) (args : list Q) : result Q :=
  match f with
  | Lambda n body =>
      if Nat.eqb (length args) n then eval_expr args body
      else Raise TypeError
  | Value _ => Raise TypeError
  end.

(** The body shared by the three evaluators:
    [pred] is the function applied to [data.values[rows][0:data.shape[1]-1]]
    and [real = data.values[rows][data.shape[1]-1]]. *)
Definition row_pred_real (func : compiled) (data : DataFrame) (rows : nat)
  : result (Q * Q) :=
  let? row := getitem (values data) rows in
  let? pred := call func (firstn (shape1 data - 1) row) in
  let? real := getitem row (shape1 data - 1) in
  Ok (pred, real).

Definition fitness_function_ae (individual : expr) (data : DataFrame)
  : result (list Q) :=
  let? func := compile individual in
  let? total_error :=
    for_acc (fun total_error rows =>
               let? pr := row_pred_real func data rows in
               let error := Qabs (snd pr - fst pr) in
               Ok (total_error + error))
            (seq 0 (shape0 data)) 0 in
  Ok [total_error].

Definition fitness_function_sse (individual : expr) (data : DataFrame)
  : result (list Q) :=
  let? func := compile individual in
  let? total_error :=
    for_acc (fun total_error rows =>
               let? pr := row_pred_real func data rows in
               let error := (snd pr - fst pr) ^ 2 in
               Ok (total_error + error))
            (seq 0 (shape0 data)) 0 in
  Ok [total_error].

(** [total_error / data.shape[0]]: with no rows the accumulator is still
    the Python integer [0] and the integer division by [0] raises. *)
Definition truediv_rows (total_error : Q) (n : nat) : result Q :=
  match n with
  | O => Raise ZeroDivisionError
  | S _ => Ok (total_error / inject_Z (Z.of_nat n))
  end.

Definition fitness_function_mse (individual : expr) (data : DataFrame)
  : result (list Q) :=
  let? func := compile individual in
  let? total_error :=
    for_acc (fun total_error rows =>
               let? pr := row_pred_real func data rows in
               let error := (snd pr - fst pr) ^ 2 in
               Ok (total_error + error))
            (seq 0 (shape0 data)) 0 in
  let? mean := truediv_rows total_error (shape0 data) in
  Ok [mean].

End Fitness.

(** ** The metrics as the specification words them *)

(** A row is a feature vector followed by one target. *)
Definition row_features (row : list Q) : list Q := removelast row.
Definition row_target (row : list Q) : Q := last row 0.

Definition Qsum (l : list Q) : Q := fold_right Qplus 0 l.

Definition absolute_error (f : list Q -> Q) (rows : list (list Q)) : Q :=
  Qsum (map (fun r => Qabs (row_target r - f (row_features r))) rows).

Definition sum_squared_error (f : list Q -> Q) (rows : list (list Q)) : Q :=
  Qsum (map (fun r => (row_target r - f (row_features r)) ^ 2) rows).

Definition mean_squared_error (f : list Q -> Q) (rows : list (list Q)) : Q :=
  sum_squared_error f rows / inject_Z (Z.of_nat (length rows)).

(** ** The mutable world: two random generators and the heap of individuals *)

(** A generator is a tape of raw draws and a cursor: each call of a drawing
    function reads the cell under the cursor and moves the cursor by one.
    A seed fixes the tape. *)
Record rng : Type := mkRng { tape : nat -> N; cursor : nat }.

Definition next_raw (g : rng) : N * rng :=
  (tape g (cursor g), mkRng (tape g) (S (cursor g))).

(** [creator.Individual]: a tree and the weighted values of its
    [FitnessMin]; no weighted value means the fitness is unset. *)
Record Individual : Set := mkInd { tree : expr; wvalues : list Q }.

(** A reference is the index of an object in the heap. *)
Abbreviation ref := nat (only parsing).

Record world : Type := mkWorld {
  py_random : rng;      (* the state of Python's [random] module *)
  np_random : rng;      (* the state of [numpy.random] *)
  heap : list Individual
}.

(** Computations: state passing over the world, with exceptions. *)
Definition M (A : Type) : Type := world -> result (A * world).

Definition ret {A} (a : A) : M A := fun w => Ok (a, w).

Definition bind {A B} (m : M A) (k : A -> M B) : M B :=
  fun w =>
    match m w with
    | Ok (a, w') => k a w'
    | Raise e => Raise e
    end.

Definition raise {A} (e : exn) : M A := fun _ => Raise e.

Definition lift {A} (r : result A) : M A :=
  fun w => match r with Ok a => Ok (a, w) | Raise e => Raise e end.

Declare Scope monad_scope.
Delimit Scope monad_scope with monad.
Notation "x <- m ;; k" := (bind m (fun x => k))
  (at level 61, m at next level, right associativity) : monad_scope.
Notation "m ;; k" := (bind m (fun _ => k))
  (at level 61, right associativity) : monad_scope.
Local Open Scope monad_scope.

(** [[f(x) for x in l]], evaluated left to right. *)
Fixpoint map_M {A B} (f : A -> M B) (l : list A) : M (list B) :=
  match l with
  | [] => ret []
  | x :: l' => y <- f x ;; ys <- map_M f l' ;; ret (y :: ys)
  end.

(** [for x in l: acc = body(acc, x)]. *)
Fixpoint for_M {A S} (body : S -> A -> M S) (l : list A) (acc : S) : M S :=
  match l with
  | [] => ret acc
  | x :: l' => acc' <- body acc x ;; for_M body l' acc'
  end.

(** [[f() for _ in range(n)]]. *)
Definition repeat_M {A} (n : nat) (f : M A) : M (list A) :=
  map_M (fun _ => f) (seq 0 n).

(** *** The heap *)

Definition unset_individual : Individual := mkInd (randomTerm 0) [].

(** Reading an object through a reference; references are never dangling. *)
Definition deref (r : ref) : M Individual :=
  fun w => Ok (nth r (heap w) unset_individual, w).

(** Creating an object. *)
Definition alloc (ind : Individual) : M ref :=
  fun w => Ok (length (heap w),
               mkWorld (py_random w) (np_random w) (heap w ++ [ind])).

Fixpoint update_nth {A} (l : list A) (i : nat) (x : A) : list A :=
  match l, i with
  | [], _ => []
  | _ :: l', O => x :: l'
  | y :: l', S j => y :: update_nth l' j x
  end.

(** Mutating an object in place. *)
Definition store (r : ref) (ind : Individual) : M unit :=
  fun w => Ok (tt, mkWorld (py_random w) (np_random w)
                           (update_nth (heap w) r ind)).

(** [copy.deepcopy(ind)], which is also [toolbox.clone]. *)
Definition deepcopy (r : ref) : M ref :=
  ind <- deref r ;; alloc ind.

(** In-place replacement of the nodes of a tree (slice assignment). *)
Definition set_tree (r : ref) (t : expr) : M unit :=
  ind <- deref r ;; store r (mkInd t (wvalues ind)).

(** [ind.fitness.values = values] with [weights = (-1.0,)]:
    [wvalues = tuple(map(mul, values, weights))]. *)
Definition weights : list Q := [-(1)].

Definition set_fitness_values (r : ref) (vals : list Q) : M unit :=
  ind <- deref r ;;
  store r (mkInd (tree ind)
                 (map (fun vw => fst vw * snd vw) (combine vals weights))).

(** [del ind.fitness.values]. *)
Definition del_fitness_values (r : ref) : M unit :=
  ind <- deref r ;; store r (mkInd (tree ind) []).

(** [ind.fitness.values]: [tuple(map(truediv, wvalues, weights))]. *)
Definition fitness_values (ind : Individual) : list Q :=
  map (fun ww => fst ww / snd ww) (combine (wvalues ind) weights).

(** [ind.fitness.valid]. *)
Definition fitness_valid (ind : Individual) : bool :=
  negb (Nat.eqb (length (wvalues ind)) 0).

(** *** Random draws *)

Definition py_raw : M N :=
  fun w => let (x, g) := next_raw (py_random w) in
           Ok (x, mkWorld g (np_random w) (heap w)).

Definition np_raw : M N :=
  fun w => let (x, g) := next_raw (np_random w) in
           Ok (x, mkWorld (py_random w) g (heap w)).

(** A float of [[0, 1)] with 53 random bits. *)
Definition unit_float (raw : N) : Q :=
  Qmake (Z.of_N (raw mod 9007199254740992)) 9007199254740992.

Definition randbelow (n : nat) : M nat :=
  x <- py_raw ;; ret (N.to_nat (x mod N.of_nat n)).

(** [random.random()]. *)
Definition random_random : M Q := x <- py_raw ;; ret (unit_float x).

(** [random.randint(a, b)]. *)
Definition random_randint (a b : nat) : M nat :=
  if (b <? a)%nat then raise ValueError
  else (i <- randbelow (b - a + 1) ;; ret (a + i)%nat).

(** [random.randrange(n)]. *)
Definition random_randrange (n : nat) : M nat :=
  if (n =? 0)%nat then raise ValueError else randbelow n.

(** [random.choice(seq)]. *)
Definition random_choice {A} (l : list A) : M A :=
  match l with
  | [] => raise IndexError
  | _ => i <- randbelow (length l) ;; lift (getitem l i)
  end.

(** [np.random.random()]. *)
Definition np_random_random : M Q := x <- np_raw ;; ret (unit_float x).

(** [np.random.uniform(low, high)]. *)
Definition np_random_uniform (low high : Q) : M Q :=
  x <- np_raw ;; ret (low + (high - low) * unit_float x).

(** [round(x, ndigits)]: to the nearest multiple of [10^-ndigits], ties to
    the even one. *)
Definition round_half_even (y : Q) : Z :=
  let f := Qfloor y in
  match Qcompare (y - inject_Z f) (1 # 2) with
  | Lt => f
  | Gt => (f + 1)%Z
  | Eq => if Z.even f then f else (f + 1)%Z
  end.

Definition py_round (x : Q) (ndigits : nat) : Q :=
  let scale := inject_Z (10 ^ Z.of_nat ndigits) in
  inject_Z (round_half_even (x * scale)) / scale.

(** ** DEAP: [deap.gp] *)

(** Nodes are numbered in prefix order, the root being node [0], as in the
    list a [PrimitiveTree] is. [subtree t i] is the slice
    [t[t.searchSubtree(i)]] and [replace_subtree t i s] the tree after
    [t[t.searchSubtree(i)] = s]; both are used with [i < len t] only. *)
Fixpoint subtree (t : expr) (i : nat) : expr :=
  match i with
  | O => t
  | S j =>
      match t with
      | Prim _ a b =>
          if (j <? len a)%nat then subtree a j else subtree b (j - len a)
      | _ => t
      end
  end.

Fixpoint replace_subtree (t : expr) (i : nat) (s : expr) : expr :=
  match i with
  | O => s
  | S j =>
      match t with
      | Prim p a b =>
          if (j <? len a)%nat then Prim p (replace_subtree a j s) b
          else Prim p a (replace_subtree b (j - len a) s)
      | _ => t
      end
  end.

(** Equality of trees as [operator.eq] sees it: node by node, constants by
    value. *)
Definition primitive_eqb (p q : primitive) : bool :=
  match p, q with
  | np_add, np_add | np_subtract, np_subtract
  | np_multiply, np_multiply | division, division => true
  | _, _ => false
  end.

Fixpoint expr_eqb (s t : expr) : bool :=
  match s, t with
  | ARG i, ARG j => Nat.eqb i j
  | randomTerm c, randomTerm d => Qeq_bool c d
  | Prim p a b, Prim q c d =>
      primitive_eqb p q && expr_eqb a c && expr_eqb b d
  | _, _ => false
  end.

(** The entries of [pset.terminals]: the arguments, then the ephemeral
    constant's class. *)
Inductive terminal : Set :=
| Argument (i : nat)
| Ephemeral.

Definition terminals (pset : PrimitiveSet) : list terminal :=
  map Argument (seq 0 (arguments pset)) ++ [Ephemeral].

Definition primitives : list primitive :=
  [np_add; np_subtract; np_multiply; division].

Definition terminalRatio (pset : PrimitiveSet) : Q :=
  let terms_count := inject_Z (Z.of_nat (length (terminals pset))) in
  let prims_count := inject_Z (Z.of_nat (length primitives)) in
  terms_count / (terms_count + prims_count).

Definition Qlt_bool (x y : Q) : bool := negb (Qle_bool y x).

Inductive method : Set := Grow | Full.

Section Generate.

Variable pset : PrimitiveSet.

(** The function given to [pset.addEphemeralConstant]. *)
Variable ephemeral : M Q.

(** [term = random.choice(pset.terminals[type_])], instantiated when it
    is a class. *)
Definition make_terminal : M expr :=
  term <- random_choice (terminals pset) ;;
  match term with
  | Argument i => ret (ARG i)
  | Ephemeral => c <- ephemeral ;; ret (randomTerm c)
  end.

(** The [condition(height, depth)] closures of [genFull] and [genGrow]. *)
Definition condition (m : method) (min_ height depth : nat) : M bool :=
  match m with
  | Full => ret (depth =? height)%nat
  | Grow =>
      if (depth =? height)%nat then ret true
      else if (min_ <=? depth)%nat
           then (u <- random_random ;;
                 ret (Qlt_bool u (terminalRatio pset)))
           else ret false
  end.

(** The body of [gp.generate]'s loop for the entry [(depth, type_)] on
    top of the stack, together with the entries it pushes: the stack is
    last-in first-out and the children are pushed in reverse, so the
    nodes are produced, and the draws made, in prefix order.
    [remaining] is [height - depth]. *)
Fixpoint generate_node (m : method) (min_ height depth remaining : nat)
  : M expr :=
  stop <- condition m min_ height depth ;;
  if stop : bool then make_terminal
  else
    match remaining with
    | O => make_terminal
    | S r =>
        prim <- random_choice primitives ;;
        a <- generate_node m min_ height (S depth) r ;;
        b <- generate_node m min_ height (S depth) r ;;
        ret (Prim prim a b)
    end.

(** [gp.generate(pset, min_, max_, condition)]. *)
Definition generate (m : method) (min_ max_ : nat) : M expr :=
  height <- random_randint min_ max_ ;;
  generate_node m min_ height 0 height.

Definition genFull (min_ max_ : nat) : M expr := generate Full min_ max_.
Definition genGrow (min_ max_ : nat) : M expr := generate Grow min_ max_.

(** [gp.genHalfAndHalf]: [method = random.choice((genGrow, genFull))]. *)
Definition genHalfAndHalf (min_ max_ : nat) : M expr :=
  m <- random_choice [Grow; Full] ;;
  generate m min_ max_.

End Generate.

(** [gp.cxOnePoint(ind1, ind2)], on two distinct individuals: nothing
    happens when one of them is a single node; otherwise a point other than
    the root is chosen in each and the subtrees are exchanged in place. *)
Definition cxOnePoint (ind1 ind2 : ref) : M (list ref) :=
  i1 <- deref ind1 ;;
  i2 <- deref ind2 ;;
  if ((len (tree i1) <? 2) || (len (tree i2) <? 2))%nat
  then ret [ind1; ind2]
  else
    _ <- random_choice [tt] ;;     (* type_ = random.choice(common_types) *)
    index1 <- random_choice (seq 1 (len (tree i1) - 1)) ;;
    index2 <- random_choice (seq 1 (len (tree i2) - 1)) ;;
    set_tree ind1 (replace_subtree (tree i1) index1
                                   (subtree (tree i2) index2)) ;;
    set_tree ind2 (replace_subtree (tree i2) index2
                                   (subtree (tree i1) index1)) ;;
    ret [ind1; ind2].

(** [gp.mutUniform(individual, expr, pset)]: the subtree at a random node
    is replaced in place by [expr()]; the individual is returned in a
    one-element tuple. *)
Definition mutUniform (expr_gen : M expr) (individual : ref)
  : M (list ref) :=
  ind <- deref individual ;;
  index <- random_randrange (len (tree ind)) ;;
  new <- expr_gen ;;
  set_tree individual (replace_subtree (tree ind) index new) ;;
  ret [individual].

(** [gp.staticLimit(key=operator.attrgetter('height'), max_value)] applied
    to an operator [func]: copies of the arguments are kept, and every
    output higher than [max_value] is replaced by one of the copies, chosen
    at random. *)
Definition staticLimit (max_value : nat) (func : list ref -> M (list ref))
  (args : list ref) : M (list ref) :=
  keep_inds <- map_M deepcopy args ;;
  new_inds <- func args ;;
  map_M (fun ind =>
           i <- deref ind ;;
           if (max_value <? height (tree i))%nat
           then random_choice keep_inds
           else ret ind)
        new_inds.

(** ** DEAP: [deap.base.Fitness] and [deap.tools] *)

(** Comparison of the weighted values, as Python compares tuples. *)
Fixpoint tuple_lt (a b : list Q) : bool :=
  match a, b with
  | [], [] => false
  | [], _ :: _ => true
  | _ :: _, [] => false
  | x :: a', y :: b' => if Qeq_bool x y then tuple_lt a' b' else Qlt_bool x y
  end.

Fixpoint tuple_le (a b : list Q) : bool :=
  match a, b with
  | [], _ => true
  | _ :: _, [] => false
  | x :: a', y :: b' => if Qeq_bool x y then tuple_le a' b' else Qlt_bool x y
  end.

(** [Fitness.__gt__] is [not self.__le__(other)]; [Fitness.__lt__]
    compares the weighted values. *)
Definition fitness_gt (a b : Individual) : bool :=
  negb (tuple_le (wvalues a) (wvalues b)).

Definition fitness_lt (a b : Individual) : bool :=
  tuple_lt (wvalues a) (wvalues b).

(** [max(aspirants, key=attrgetter("fitness"))]: the first of the maximal
    elements. *)
Definition max_by_fitness (aspirants : list ref) : M ref :=
  match aspirants with
  | [] => raise ValueError
  | first :: others =>
      for_M (fun best r =>
               b <- deref best ;;
               i <- deref r ;;
               ret (if fitness_gt i b then r else best))
            others first
  end.

(** [tools.selRandom(individuals, k)]. *)
Definition selRandom (individuals : list ref) (k : nat) : M (list ref) :=
  repeat_M k (random_choice individuals).

(** [tools.selTournament(individuals, k, tournsize)]. *)
Definition selTournament (tournsize : nat) (individuals : list ref)
  (k : nat) : M (list ref) :=
  repeat_M k (aspirants <- selRandom individuals tournsize ;;
              max_by_fitness aspirants).

(** [tools.HallOfFame]: [items] holds the archived copies, best first, and
    [keys] their fitnesses (named by their owners), worst first. *)
Record HallOfFame : Set := mkHof {
  maxsize : nat;
  keys : list ref;
  items : list ref
}.

(** [bisect.bisect_right(a, x)], [lt_x y] being [x < y]. *)
Fixpoint bisect_loop {A} (lt_x : A -> bool) (a : list A) (d : A)
  (fuel lo hi : nat) : nat :=
  match fuel with
  | O => lo
  | S fuel' =>
      if (lo <? hi)%nat
      then let mid := ((lo + hi) / 2)%nat in
           if lt_x (nth mid a d)
           then bisect_loop lt_x a d fuel' lo mid
           else bisect_loop lt_x a d fuel' (S mid) hi
      else lo
  end.

Definition bisect_right {A} (lt_x : A -> bool) (a : list A) (d : A) : nat :=
  bisect_loop lt_x a d (S (length a)) 0 (length a).

(** [list.insert(i, x)]. *)
Definition list_insert {A} (l : list A) (i : nat) (x : A) : list A :=
  firstn i l ++ x :: skipn i l.

(** [HallOfFame.insert(item)]. *)
Definition hof_insert (hof : HallOfFame) (item : ref) : M HallOfFame :=
  item' <- deepcopy item ;;
  copy <- deref item' ;;
  owners <- map_M deref (keys hof) ;;
  let i := bisect_right (fitness_lt copy) owners unset_individual in
  ret (mkHof (maxsize hof)
             (list_insert (keys hof) i item')
             (list_insert (items hof) (length (items hof) - i) item')).

(** [HallOfFame.remove(-1)]. *)
Definition hof_remove_last (hof : HallOfFame) : M HallOfFame :=
  match items hof with
  | [] => raise ZeroDivisionError
  | _ => ret (mkHof (maxsize hof) (tl (keys hof)) (removelast (items hof)))
  end.

(** [HallOfFame.update(population)], with [similar = operator.eq]. *)
Definition hof_update (hof : HallOfFame) (population : list ref)
  : M HallOfFame :=
  hof0 <- (if ((length (items hof) =? 0) && negb (maxsize hof =? 0))%nat
           then first <- lift (getitem population 0) ;; hof_insert hof first
           else ret hof) ;;
  for_M (fun hof ind =>
           i <- deref ind ;;
           worst <- lift (getitem (items hof) (length (items hof) - 1)) ;;
           w <- deref worst ;;
           if (fitness_gt i w || (length (items hof) <? maxsize hof)%nat)
           then
             hofers <- map_M deref (items hof) ;;
             if existsb (fun h => expr_eqb (tree i) (tree h)) hofers
             then ret hof
             else
               hof' <- (if (maxsize hof <=? length (items hof))%nat
                        then hof_remove_last hof else ret hof) ;;
               hof_insert hof' ind
           else ret hof)
        population hof0.

(** [l[i] = x]. *)
Definition setitem {A} (l : list A) (i : nat) (x : A) : result (list A) :=
  if (i <? length l)%nat then Ok (update_nth l i x) else Raise IndexError.

(** [range(start, stop, step)] for a positive step. *)
Definition py_range (start stop step : nat) : list nat :=
  map (fun k => (start + step * k)%nat)
      (seq 0 ((stop - start + step - 1) / step)).

(** ** The benchmark: configuration and toolbox *)

(** Modelled from the spec: [algorithms/config.py] is not part of the
    sources; these are the options the benchmark reads from it (the
    externally supplied configuration: population size, number of
    generations, crossover and mutation probabilities, maximum tree height,
    range of the ephemeral constants, training dataset). *)
Record Config : Set := mkConfig {
  size_population : nat;
  num_generations : nat;
  prob_crossover : Q;
  prob_mutation : Q;
  max_height : nat;
  random_lower : Q;
  random_upper : Q;
  training_data : DataFrame
}.

(** Modelled from the spec: [utility/evaluate.py] is not part of the
    sources; a generation record holds the generation index, the duration,
    the fitness list, the size list, the current best individual and its
    compiled form. *)
Record GenerationRecord : Set := mkRecord {
  generation : nat;
  duration : Q;
  fitness_list : list Q;
  size_list : list nat;
  best : Individual;
  best_compiled : compiled
}.

Definition evaluate_population (generation : nat) (duration : Q)
  (fits : list Q) (size : list nat) (best : Individual)
  (best_compiled : compiled) : GenerationRecord :=
  mkRecord generation duration fits size best best_compiled.

(** The variables of [execute_algorithm] that live across generations. *)
Record loop_state : Set := mkState {
  population : list ref;
  halloffame : HallOfFame;
  statistics : list GenerationRecord
}.

Section Benchmark.

Variable protected_div : Q -> Q -> Q.
Variable config : Config.

(** [time.clock()]: the reading returned by its [k]-th call. *)
Variable time_clock : nat -> Q.

(** [pset = gp.PrimitiveSet("main", config.training_data.shape[1] - 1)]. *)
Definition pset : PrimitiveSet :=
  mkPset (shape1 (training_data config) - 1).

(** The ephemeral constant [randomTerm]. *)
Definition randomTerm_value : M Q :=
  x <- np_random_uniform (random_lower config) (random_upper config) ;;
  ret (py_round x 4).

Definition toolbox_expr : M expr :=
  genHalfAndHalf pset randomTerm_value 1 2.

(** [tools.initIterate(creator.Individual, toolbox.expr)]. *)
Definition toolbox_individual : M ref :=
  t <- toolbox_expr ;; alloc (mkInd t []).

(** [tools.initRepeat(list, toolbox.individual, n)]. *)
Definition toolbox_population (n : nat) : M (list ref) :=
  repeat_M n toolbox_individual.

Definition toolbox_compile (t : expr) : result compiled :=
  compile protected_div pset t.

Definition toolbox_select (individuals : list ref) (k : nat)
  : M (list ref) :=
  selTournament 3 individuals k.

Definition toolbox_clone (r : ref) : M ref := deepcopy r.

Definition toolbox_evaluate (individual : ref) : M (list Q) :=
  ind <- deref individual ;;
  lift (fitness_function_mse protected_div pset (tree ind)
                             (training_data config)).

Definition toolbox_expr_mut : M expr := genFull pset randomTerm_value 0 2.

(** [toolbox.mate] and [toolbox.mutate], decorated with the height
    limit. *)
Definition toolbox_mate (ind1 ind2 : ref) : M (list ref) :=
  staticLimit (max_height config)
    (fun args =>
       match args with
       | [a; b] => cxOnePoint a b
       | _ => raise TypeError
       end)
    [ind1; ind2].

Definition toolbox_mutate (individual : ref) : M (list ref) :=
  staticLimit (max_height config)
    (fun args =>
       match args with
       | [a] => mutUniform toolbox_expr_mut a
       | _ => raise TypeError
       end)
    [individual].

(** *** The generational loop *)

(** Lines 46-47: the whole population is scored, then the fitnesses are
    assigned. *)
Definition evaluate_all (population : list ref) : M unit :=
  fitnesses <- map_M toolbox_evaluate population ;;
  for_M (fun _ pf => set_fitness_values (fst pf) (snd pf))
        (combine population fitnesses) tt.

(** Lines 61-65: one turn of the crossover loop. *)
Definition crossover_step (next_gen : list ref) (i : nat)
  : M (list ref) :=
  u <- np_random_random ;;
  if Qlt_bool u (prob_crossover config)
  then
    a <- lift (getitem next_gen (i - 1)) ;;
    b <- lift (getitem next_gen i) ;;
    children <- toolbox_mate a b ;;
    match children with
    | [c1; c2] =>
        next_gen1 <- lift (setitem next_gen (i - 1) c1) ;;
        next_gen2 <- lift (setitem next_gen1 i c2) ;;
        x <- lift (getitem next_gen2 (i - 1)) ;;
        del_fitness_values x ;;
        y <- lift (getitem next_gen2 i) ;;
        del_fitness_values y ;;
        ret next_gen2
    | _ => raise ValueError
    end
  else ret next_gen.

Definition crossover_loop (next_gen : list ref) : M (list ref) :=
  for_M crossover_step (py_range 1 (size_population config) 2) next_gen.

(** Lines 68-71: one turn of the mutation loop; what [toolbox.mutate]
    returns is not used. *)
Definition mutation_step (mutant : ref) : M unit :=
  u <- np_random_random ;;
  if Qlt_bool u (prob_mutation config)
  then toolbox_mutate mutant ;; del_fitness_values mutant
  else ret tt.

Definition mutation_loop (next_gen : list ref) : M unit :=
  for_M (fun _ mutant => mutation_step mutant) next_gen tt.

(** Lines 46-54: evaluation, archive update, fitness and size lists. *)
Definition evaluate_phase (population : list ref) (hof : HallOfFame)
  : M (HallOfFame * list Q * list nat) :=
  evaluate_all population ;;
  hof' <- hof_update hof population ;;
  fits <- map_M (fun r => ind <- deref r ;;
                          lift (getitem (fitness_values ind) 0))
                population ;;
  size <- map_M (fun r => ind <- deref r ;; ret (len (tree ind)))
                population ;;
  ret (hof', fits, size).

(** Lines 57-71: selection, cloning, crossover and mutation. *)
Definition variation_phase (population : list ref) : M (list ref) :=
  next_gen <- toolbox_select population (size_population config) ;;
  next_gen <- map_M toolbox_clone next_gen ;;
  next_gen <- crossover_loop next_gen ;;
  mutation_loop next_gen ;;
  ret next_gen.

(** The body of the loop over the generations. *)
Definition generation_step (st : loop_state) (generation : nat)
  : M loop_state :=
  let start_time := time_clock (2 * generation) in
  r <- evaluate_phase (population st) (halloffame st) ;;
  let '(hof, fits, size) := r in
  next_gen <- variation_phase (population st) ;;
  let end_time := time_clock (2 * generation + 1) in
  best_ref <- lift (getitem (items hof) 0) ;;
  best_ind <- deref best_ref ;;
  func <- lift (toolbox_compile (tree best_ind)) ;;
  ret (mkState next_gen hof
         (statistics st ++
            [evaluate_population generation (end_time - start_time)
                                 fits size best_ind func])).

(** Lines 35-37. *)
Definition initial_state : M loop_state :=
  population <- toolbox_population (size_population config) ;;
  ret (mkState population (mkHof 1 [] []) []).

(** The state after the first [g] generations. *)
Definition run_generations (g : nat) : M loop_state :=
  st <- initial_state ;;
  for_M generation_step (seq 0 g) st.

Definition execute_algorithm
  : M (list GenerationRecord * list ref * HallOfFame) :=
  st <- run_generations (num_generations config) ;;
  ret (statistics st, population st, halloffame st).

End Benchmark.

(** A configuration the loop can run on: a population, and a rectangular
    dataset with at least one row, one feature and the target. *)
Definition valid_config (config : Config) : Prop :=
  (0 < size_population config)%nat /\
  rectangular (training_data config) /\
  (1 <= shape0 (training_data config))%nat /\
  (2 <= shape1 (training_data config))%nat.

(** ** Vocabulary of the properties *)

(** The object a reference names in a world. *)
Definition lookup (w : world) (r : ref) : Individual :=
  nth r (heap w) unset_individual.

(** [halloffame[0].fitness.values]. *)
Definition archive_best (hof : HallOfFame) (w : world) : list Q :=
  fitness_values (lookup w (nth 0 (items hof) 0%nat)).

(** Every argument of the tree is one of [ARG0 .. ARG(n-1)]. *)
Fixpoint closed (n : nat) (t : expr) : Prop :=
  match t with
  | ARG i => (i < n)%nat
  | randomTerm _ => True
  | Prim _ a b => closed n a /\ closed n b
  end.

Definition heap_closed (n : nat) (w : world) : Prop :=
  Forall (fun ind => closed n (tree ind)) (heap w).

(** Every leaf of the tree is at depth [h]: what the "full" method builds. *)
Fixpoint full_tree (h : nat) (t : expr) : Prop :=
  match h, t with
  | O, ARG _ => True
  | O, randomTerm _ => True
  | S h', Prim _ a b => full_tree h' a /\ full_tree h' b
  | _, _ => False
  end.

(** The value of an expression the evaluation of which cannot fail. *)
Definition eval_total (protected_div : Q -> Q -> Q) (t : expr)
  (args : list Q) : Q :=
  match eval_expr protected_div args t with
  | Ok v => v
  | Raise _ => 0
  end.

(** [wp m Q w]: from [w], [m] returns without exception a value and a
    world that satisfy [Q]. *)
Definition wp {A} (m : M A) (Q : A -> world -> Prop) (w : world) : Prop :=
  match m w with
  | Ok (a, w') => Q a w'
  | Raise _ => False
  end.

(** [grows n F w w']: from [w] to [w'] objects were created, the objects of
    [w] outside [F] are what they were, and no argument beyond [ARG(n-1)]
    was introduced. *)
Definition grows (n : nat) (F : ref -> Prop) (w w' : world) : Prop :=
  (length (heap w) <= length (heap w'))%nat /\
  (forall r, (r < length (heap w))%nat -> ~ F r -> lookup w' r = lookup w r) /\
  (heap_closed n w -> heap_closed n w').

(** What the height limit returns in place of an output [o] of the
    operator: [o] itself when it is within the limit, one of the kept
    copies otherwise. *)
Definition limited (max_value : nat) (keep : list ref) (w : world)
  (o c : ref) : Prop :=
  (c = o /\ (height (tree (lookup w o)) <= max_value)%nat) \/
  ((max_value < height (tree (lookup w o)))%nat /\ In c keep).

(** A reference to an object created since the heap had [L] objects. *)
Definition in_range (L : nat) (w : world) (r : ref) : Prop :=
  (L <= r)%nat /\ (r < length (heap w))%nat.

(** The archive at the boundary after [g] generations: empty before the
    first generation, then one scored individual that is no member of the
    population. *)
Definition archive_ok (g : nat) (st : loop_state) (w : world) : Prop :=
  (g = 0%nat /\ halloffame st = mkHof 1 [] []) \/
  ((0 < g)%nat /\
   exists h, halloffame st = mkHof 1 [h] [h] /\
             (h < length (heap w))%nat /\
             ~ In h (population st) /\
             exists a, wvalues (lookup w h) = [a]).

(** The invariant of the loop over the generations, at the boundary after
    [g] generations. *)
Definition loop_invariant (config : Config) (g : nat) (st : loop_state)
  (w : world) : Prop :=
  length (population st) = size_population config /\
  Forall (fun r => (r < length (heap w))%nat) (population st) /\
  heap_closed (arguments (pset config)) w /\
  map generation (statistics st) = seq 0 g /\
  archive_ok g st w.

(** Two generation records that differ at most in the duration. *)
Definition same_but_duration (r1 r2 : GenerationRecord) : Prop :=
  generation r1 = generation r2 /\
  fitness_list r1 = fitness_list r2 /\
  size_list r1 = size_list r2 /\
  best r1 = best r2 /\
  best_compiled r1 = best_compiled r2.

(** Two states of the loop that differ at most in the recorded durations. *)
Definition same_state (st1 st2 : loop_state) : Prop :=
  population st1 = population st2 /\
  halloffame st1 = halloffame st2 /\
  Forall2 same_but_duration (statistics st1) (statistics st2).

(** Two results of [execute_algorithm] that differ at most in the recorded
    durations. *)
Definition same_results
  (r1 r2 : list GenerationRecord * list ref * HallOfFame) : Prop :=
  Forall2 same_but_duration (fst (fst r1)) (fst (fst r2)) /\
  snd (fst r1) = snd (fst r2) /\
  snd r1 = snd r2.

(** Two states of a generator with the same draws to come: what a seed
    fixes. *)
Definition same_draws (g1 g2 : rng) : Prop :=
  forall i, tape g1 (i + cursor g1)%nat = tape g2 (i + cursor g2)%nat.

(** Two worlds with the same objects and the same draws to come from both
    generators. *)
Definition same_seeds (w1 w2 : world) : Prop :=
  heap w1 = heap w2 /\
  same_draws (py_random w1) (py_random w2) /\
  same_draws (np_random w1) (np_random w2).

(** Two runs that end alike: the same exception, or values related by [R]
    and worlds with the same objects and the same draws to come. *)
Definition same_run {A B} (R : A -> B -> Prop)
  (r1 : result (A * world)) (r2 : result (B * world)) : Prop :=
  match r1, r2 with
  | Ok (a1, w1), Ok (a2, w2) => R a1 a2 /\ same_seeds w1 w2
  | Raise e1, Raise e2 => e1 = e2
  | _, _ => False
  end.

(** Two computations that end alike from worlds with the same objects and
    the same draws to come. *)
Definition alike {A B} (R : A -> B -> Prop) (m1 : M A) (m2 : M B) : Prop :=
  forall w1 w2, same_seeds w1 w2 -> same_run R (m1 w1) (m2 w2).

(** The mutation of the loop, had its subtrees come from the "grow" method
    as the specification words it. *)
Definition grow_mutation_step (config : Config) (mutant : ref) : M unit :=
  u <- np_random_random ;;
  if Qlt_bool u (prob_mutation config)
  then
    staticLimit (max_height config)
      (fun args =>
         match args with
         | [a] => mutUniform (genGrow (pset config) (randomTerm_value config)
                                       0 2) a
         | _ => raise TypeError
         end)
      [mutant] ;;
    del_fitness_values mutant
  else ret tt.

(** What [toolbox.individual] makes: an unscored tree of height 1 or 2, so
    of 3 to 7 nodes, over the arguments [ARG0 .. ARG(n-1)]. *)
Definition fresh_individual (n : nat) (ind : Individual) : Prop :=
  wvalues ind = [] /\
  (1 <= height (tree ind) <= 2)%nat /\
  (3 <= len (tree ind) <= 7)%nat /\
  closed n (tree ind).

(** The index below [m] that a raw draw gives, as [randbelow] reduces
    it. *)
Definition index_of_draw (raw : N) (m : nat) : nat :=
  N.to_nat (raw mod N.of_nat m).

(** The world after [k] more draws of Python's generator, and the [i]-th
    of the coming draws reduced to an index below [m]. *)
Definition py_advance (k : nat) (w : world) : world :=
  mkWorld (mkRng (tape (py_random w)) (k + cursor (py_random w)))
          (np_random w) (heap w).

Definition py_draw (w : world) (i m : nat) : nat :=
  index_of_draw (tape (py_random w) (i + cursor (py_random w))) m.

(** A generation record as the loop makes them: one fitness value and one
    size, at least one node, for every member of the population; a best
    individual with its fitness set, and its tree compiled. *)
Definition record_ok (config : Config) (r : GenerationRecord) : Prop :=
  length (fitness_list r) = size_population config /\
  length (size_list r) = size_population config /\
  Forall (fun s => (1 <= s)%nat) (size_list r) /\
  fitness_valid (best r) = true /\
  best_compiled r = Lambda (arguments (pset config)) (tree (best r)).

(** ** DEAP's [Fitness] and [HallOfFame] on floats

    The weighted values of a fitness are floats: numbers, compared as
    numbers, or NaN, on which [==], [<] and [<=] are all false. The
    comparison of tuples takes two elements that are the same object for
    equal, so a NaN carries the identity of its object. The hall of fame
    holds deep copies, which share nothing that is changed later: what it
    holds after an update is a function of the trees and the weighted
    values it is given. *)
Module Float.

Inductive float : Set :=
| Number (q : Q)
| NaN (id : nat).

Definition float_lt (x y : float) : bool :=
  match x, y with
  | Number a, Number b => Qlt_bool a b
  | _, _ => false
  end.

Definition float_le (x y : float) : bool :=
  match x, y with
  | Number a, Number b => Qle_bool a b
  | _, _ => false
  end.

(** [x is y or x == y], the test of the comparison of tuples. *)
Definition float_same (x y : float) : bool :=
  match x, y with
  | Number a, Number b => Qeq_bool a b
  | NaN i, NaN j => Nat.eqb i j
  | _, _ => false
  end.

(** Comparison of the weighted values, as Python compares tuples: the
    first two elements that are not the same decide. *)
Fixpoint tuple_lt (a b : list float) : bool :=
  match a, b with
  | [], [] => false
  | [], _ :: _ => true
  | _ :: _, [] => false
  | x :: a', y :: b' => if float_same x y then tuple_lt a' b' else float_lt x y
  end.

Fixpoint tuple_le (a b : list float) : bool :=
  match a, b with
  | [], _ => true
  | _ :: _, [] => false
  | x :: a', y :: b' => if float_same x y then tuple_le a' b' else float_le x y
  end.

(** An individual as the hall of fame sees it: its tree and the weighted
    values of its fitness. *)
Record Individual : Set := mkInd { tree : expr; wvalues : list float }.

(** [Fitness.__gt__] is [not self.__le__(other)]; [Fitness.__lt__]
    compares the weighted values. *)
Definition fitness_gt (a b : Individual) : bool :=
  negb (tuple_le (wvalues a) (wvalues b)).

Definition fitness_lt (a b : Individual) : bool :=
  tuple_lt (wvalues a) (wvalues b).

(** [ind.fitness.values]: the weighted values divided by the weights; the
    quotient of a NaN is a NaN. *)
Definition truediv (x : float) (w : Q) : float :=
  match x with
  | Number a => Number (a / w)
  | NaN i => NaN i
  end.

Definition fitness_values (ind : Individual) : list float :=
  map (fun xw => truediv (fst xw) (snd xw)) (combine (wvalues ind) weights).

(** [tools.HallOfFame]: [items] holds the archived copies, best first, and
    [keys] their fitnesses, worst first. *)
Record HallOfFame : Set := mkHof {
  maxsize : nat;
  keys : list (list float);
  items : list Individual
}.

(** [HallOfFame.insert(item)]. *)
Definition hof_insert (hof : HallOfFame) (item : Individual) : HallOfFame :=
  let i := bisect_right (tuple_lt (wvalues item)) (keys hof) [] in
  mkHof (maxsize hof)
        (list_insert (keys hof) i (wvalues item))
        (list_insert (items hof) (length (items hof) - i) item).

(** [HallOfFame.remove(-1)]. *)
Definition hof_remove_last (hof : HallOfFame) : result HallOfFame :=
  match items hof with
  | [] => Raise ZeroDivisionError
  | _ => Ok (mkHof (maxsize hof) (tl (keys hof)) (removelast (items hof)))
  end.

(** [HallOfFame.update(population)], with [similar = operator.eq]. *)
Definition hof_update (hof : HallOfFame) (population : list Individual)
  : result HallOfFame :=
  let? hof0 :=
    (if ((length (items hof) =? 0) && negb (maxsize hof =? 0))%nat
     then let? first := getitem population 0 in Ok (hof_insert hof first)
     else Ok hof) in
  for_acc (fun hof ind =>
             let? worst := getitem (items hof) (length (items hof) - 1) in
             if (fitness_gt ind worst
                 || (length (items hof) <? maxsize hof)%nat)
             then
               if existsb (fun h => expr_eqb (tree ind) (tree h)) (items hof)
               then Ok hof
               else
                 let? hof' := (if (maxsize hof <=? length (items hof))%nat
                               then hof_remove_last hof else Ok hof) in
                 Ok (hof_insert hof' ind)
             else Ok hof)
          population hof0.

(** An individual scored with one number. *)
Definition scored_with_a_number (ind : Individual) : Prop :=
  exists a, wvalues ind = [Number a].

(** [max(aspirants, key=attrgetter("fitness"))] on the aspirants of a
    tournament: an aspirant takes the place of the best so far when its
    fitness is [>] than that one's. *)
Definition max_by_fitness (aspirants : list Individual) : result Individual :=
  match aspirants with
  | [] => Raise ValueError
  | first :: others =>
      Ok (fold_left (fun best i => if fitness_gt i best then i else best)
                    others first)
  end.

End Float.

(** ** Sample inputs *)

Definition sample_division (a b : Q) : Q :=
  if Qeq_bool b 0 then 1 else a / b.

Definition tree_x : expr := ARG 0.
Definition tree_x_plus_1 : expr := Prim np_add (ARG 0) (randomTerm 1).
Definition tree_2x : expr := Prim np_add (ARG 0) (ARG 0).
Definition tree_3x : expr := Prim np_add (Prim np_add (ARG 0) (ARG 0)) (ARG 0).

Definition dataset_1_3 : DataFrame := mkData [[1; 3]] 2.
Definition dataset_two_rows : DataFrame := mkData [[1; 2]; [2; 4]] 2.
Definition empty_dataset : DataFrame := mkData [] 2.

(** A generator whose first draws are listed, the later ones being [0]. *)
Definition seeded (draws : list N) : rng :=
  mkRng (fun i => nth i draws 0%N) 0.

Definition sample_clock (k : nat) : Q := inject_Z (Z.of_nat k).

(** One individual, one generation, certain mutation, height limit 2. *)
Definition config_one : Config :=
  mkConfig 1 1 (1 # 2) 1 2 (-(1)) 1 dataset_two_rows.

(** Draws leading to the initial tree [x + x], then to a mutation of its
    second node by a full subtree of height 2. *)
Definition world_one : world :=
  mkWorld (seeded [1; 0; 0; 0; 0; 0; 0; 0; 1; 2]%N) (seeded []) [].

(** Three individuals, two generations. *)
Definition config_three : Config :=
  mkConfig 3 2 (1 # 2) (1 # 2) 2 (-(1)) 1 dataset_two_rows.

Definition world_three : world :=
  mkWorld (seeded [1; 1; 0; 0; 0; 0; 0; 1; 1; 1; 2; 0; 1]%N) (seeded []) [].

(** The same [numpy] generator, another state of Python's [random]. *)
Definition world_three' : world :=
  mkWorld (seeded [0; 0; 0; 0; 0; 0; 0]%N) (seeded []) [].

(** The generators of [world_three] as five earlier draws of Python's
    generator and two of numpy's would have left them: other tapes and
    cursors, the same draws to come. *)
Definition world_three_later : world :=
  mkWorld (mkRng (fun i => tape (py_random world_three) (i - 5)) 5)
          (mkRng (fun i => tape (np_random world_three) (i - 2)) 2)
          [].

(** Two scored offspring [3x] under height limit 2. *)
Definition world_pair : world :=
  mkWorld (seeded [0; 1; 0; 0]%N) (seeded [])
          [mkInd tree_3x [-(1)]; mkInd tree_3x [-(1)]].

(** Three scored individuals. *)
Definition world_trio : world :=
  mkWorld (seeded [2; 0; 1; 1; 1; 0; 0; 2; 1; 0; 3; 1]%N) (seeded [])
          [mkInd tree_3x [-(1)]; mkInd tree_2x [-(2)]; mkInd tree_x [-(3)]].

(** One scored individual [x + x]; the first draws select its second node
    and a height of 2. *)
Definition world_mutant_leaf : world :=
  mkWorld (seeded [1; 2]%N) (seeded []) [mkInd tree_2x [0]].

(** One scored individual [x + x]; the first draws select the root and a
    height of 2. *)
Definition world_mutant : world :=
  mkWorld (seeded [0; 2]%N) (seeded []) [mkInd tree_2x [0]].


Unset Implicit Arguments.

(** ** The fitness evaluators *)

Lemma for_acc_ok_fold {A B} (body : B -> A -> result B) (g : B -> A -> B)
      (l : list A) :
  (forall acc x, In x l -> body acc x = Ok (g acc x)) ->
  forall acc, for_acc body l acc = Ok (fold_left g l acc).
Proof.
  induction l as [|x l IH]; intros Hb acc; simpl; [reflexivity|].
  rewrite Hb by (left; reflexivity). simpl.
  apply IH. intros acc' y Hy. apply Hb. right; exact Hy.
Qed.

(** Indexing the rows by [range(len(rows))] visits the rows in order. *)
Lemma for_acc_range {A B} (body : B -> A -> result B) (l : list A) :
  forall pre acc,
    for_acc (fun acc i => let? x := getitem (pre ++ l) i in body acc x)
            (seq (length pre) (length l)) acc
    = for_acc body l acc.
Proof.
  induction l as [|x l IH]; intros pre acc; simpl; [reflexivity|].
  unfold getitem at 1.
  rewrite nth_error_app2 by lia. rewrite Nat.sub_diag. simpl.
  destruct (body acc x) as [acc'|e]; simpl; [|reflexivity].
  specialize (IH (pre ++ [x]) acc').
  rewrite <- app_assoc in IH. simpl in IH.
  rewrite length_app in IH. simpl in IH.
  replace (length pre + 1)%nat with (S (length pre)) in IH by lia.
  exact IH.
Qed.

Lemma fold_left_Qplus_Qsum (l : list Q) :
  forall acc, fold_left Qplus l acc == acc + Qsum l.
Proof.
  induction l as [|x l IH]; intros acc; simpl.
  - ring.
  - rewrite IH. ring.
Qed.

Lemma fold_left_map {A B C} (g : B -> C -> B) (h : A -> C) (l : list A) :
  forall acc, fold_left (fun a x => g a (h x)) l acc = fold_left g (map h l) acc.
Proof.
  induction l as [|x l IH]; intros acc; simpl; [reflexivity|apply IH].
Qed.

Lemma firstn_pred_removelast {A} (row : list A) :
  firstn (length row - 1) row = removelast row.
Proof.
  induction row as [|x [|y row] IH]; simpl; try reflexivity.
  simpl in IH. rewrite Nat.sub_0_r in IH. rewrite IH. reflexivity.
Qed.

Lemma getitem_pred_last {A} (row : list A) (d : A) :
  row <> [] -> getitem row (length row - 1) = Ok (last row d).
Proof.
  induction row as [|x [|y row] IH]; intros Hne; try congruence; try reflexivity.
  assert (H : y :: row <> []) by congruence.
  specialize (IH H). simpl in IH. rewrite Nat.sub_0_r in IH.
  unfold getitem in *. simpl. exact IH.
Qed.

Section FitnessFacts.

Variable protected_div : Q -> Q -> Q.
Variable pset : PrimitiveSet.

Lemma compile_call_nonempty (t : expr) (func : compiled) (args : list Q) (v : Q) :
  compile protected_div pset t = Ok func ->
  call protected_div func args = Ok v -> args <> [].
Proof.
  unfold compile. destruct (arguments pset) as [|k] eqn:Hk.
  - destruct (eval_expr protected_div [] t); simpl; intros H; inversion H; subst.
    simpl. discriminate.
  - intros H; inversion H; subst. simpl.
    destruct (Nat.eqb (length args) (S k)) eqn:He; [|discriminate].
    apply Nat.eqb_eq in He. intros _ ->. discriminate.
Qed.

Lemma row_pred_real_ok (func : compiled) (data : DataFrame) (f : list Q -> Q)
      (pre : list (list Q)) (row : list Q) :
  length row = columns data -> row <> [] ->
  call protected_div func (row_features row) = Ok (f (row_features row)) ->
  (let? pred := call protected_div func (firstn (shape1 data - 1) row) in
   let? real := getitem row (shape1 data - 1) in Ok (pred, real))
  = Ok (f (row_features row), row_target row).
Proof.
  intros Hlen Hne Hcall. unfold shape1. rewrite <- Hlen.
  rewrite firstn_pred_removelast. fold (row_features row). rewrite Hcall. simpl.
  rewrite (getitem_pred_last row 0 Hne). reflexivity.
Qed.

Lemma error_loop_ok (func : compiled) (data : DataFrame) (f : list Q -> Q)
      (err : Q -> Q -> Q) :
  rectangular data ->
  (forall row, In row (values data) -> row <> []) ->
  (forall row, In row (values data) ->
     call protected_div func (row_features row) = Ok (f (row_features row))) ->
  for_acc (fun total_error rows =>
             let? pr := row_pred_real protected_div func data rows in
             Ok (total_error + err (fst pr) (snd pr)))
          (seq 0 (shape0 data)) 0
  = Ok (fold_left Qplus
          (map (fun r => err (f (row_features r)) (row_target r)) (values data)) 0).
Proof.
  intros Hrect Hne Hcall. unfold shape0.
  pose proof (for_acc_range
    (fun total_error row =>
       let? pr := (let? pred := call protected_div func (firstn (shape1 data - 1) row) in
                   let? real := getitem row (shape1 data - 1) in Ok (pred, real)) in
       Ok (total_error + err (fst pr) (snd pr)))
    (values data) [] 0) as Hrange.
  simpl in Hrange.
  unfold row_pred_real.
  etransitivity; [|etransitivity; [exact Hrange|]].
  - clear. generalize (seq 0 (length (values data))) 0. 
    induction l as [|i l IH]; intros acc; simpl; [reflexivity|].
    destruct (getitem (values data) i); simpl; [|reflexivity].
    destruct (call protected_div func _); simpl; [|reflexivity].
    destruct (getitem a _); simpl; [|reflexivity]. apply IH.
  - rewrite <- fold_left_map.
    apply for_acc_ok_fold. intros acc row Hin.
    rewrite (row_pred_real_ok func data f [] row); simpl; auto.
    unfold rectangular in Hrect. rewrite Forall_forall in Hrect. auto.
Qed.

End FitnessFacts.

(** C1. On a dataset with at least one row and a tree that compiles to a
    function of the rows' features, [fitness_function_ae] returns the
    one-element list holding the sum of [|real - pred|] over the rows,
    [fitness_function_sse] the sum of [(real - pred)^2], and
    [fitness_function_mse] that sum divided by the number of rows. In
    particular [x + 1] on [[(1, 3)]] scores 1 under the three metrics, and
    [x] on [[(1, 2), (2, 4)]] has SSE 5 and MSE 2.5. *)
Theorem fitness_functions_correct (protected_div : Q -> Q -> Q) :
  (forall (pset : PrimitiveSet) (individual : expr) (data : DataFrame)
          (func : compiled) (f : list Q -> Q),
      rectangular data ->
      (1 <= shape0 data)%nat ->
      compile protected_div pset individual = Ok func ->
      (forall row, In row (values data) ->
         call protected_div func (row_features row)
         = Ok (f (row_features row))) ->
      (exists ae,
          fitness_function_ae protected_div pset individual data = Ok [ae] /\
          ae == absolute_error f (values data)) /\
      (exists sse,
          fitness_function_sse protected_div pset individual data = Ok [sse] /\
          sse == sum_squared_error f (values data)) /\
      (exists mse,
          fitness_function_mse protected_div pset individual data = Ok [mse] /\
          mse == mean_squared_error f (values data))) /\
  (fitness_function_ae protected_div (mkPset 1) tree_x_plus_1 dataset_1_3
   = Ok [1] /\
   fitness_function_sse protected_div (mkPset 1) tree_x_plus_1 dataset_1_3
   = Ok [1] /\
   fitness_function_mse protected_div (mkPset 1) tree_x_plus_1 dataset_1_3
   = Ok [1] /\
   fitness_function_sse protected_div (mkPset 1) tree_x dataset_two_rows
   = Ok [5] /\
   fitness_function_mse protected_div (mkPset 1) tree_x dataset_two_rows
   = Ok [5 # 2]).
Proof.
  split; [|repeat split; reflexivity].
  intros pset individual data func f Hrect Hrows Hcomp Hcall.
  assert (Hne : forall row, In row (values data) -> row <> []).
  { intros row Hin Hrow. specialize (Hcall row Hin).
    apply (compile_call_nonempty _ _ _ _ _ _ Hcomp) in Hcall.
    subst row. apply Hcall. reflexivity. }
  pose proof (error_loop_ok protected_div func data f
                (fun p r => Qabs (r - p)) Hrect Hne Hcall) as Hae.
  pose proof (error_loop_ok protected_div func data f
                (fun p r => (r - p) ^ 2) Hrect Hne Hcall) as Hsse.
  unfold fitness_function_ae, fitness_function_sse, fitness_function_mse.
  rewrite Hcomp. cbv beta iota delta [rbind] in Hae, Hsse |- *.
  split; [|split].
  - eexists. rewrite Hae. split; [reflexivity|].
    rewrite fold_left_Qplus_Qsum. unfold absolute_error. ring.
  - eexists. cbv beta zeta. rewrite Hsse. split; [reflexivity|].
    rewrite fold_left_Qplus_Qsum. unfold sum_squared_error. ring.
  - cbv beta zeta. rewrite Hsse. simpl rbind.
    unfold truediv_rows, shape0 in *.
    destruct (length (values data)) as [|k] eqn:Hk; [lia|].
    simpl rbind. eexists. split; [reflexivity|].
    unfold mean_squared_error. rewrite Hk.
    rewrite fold_left_Qplus_Qsum. unfold sum_squared_error.
    apply Qdiv_comp; [ring|reflexivity].
Qed.

Lemma fitness_functions_correct_witness :
  exists mse,
    fitness_function_mse sample_division (mkPset 1) tree_x dataset_two_rows
    = Ok [mse] /\
    mse == mean_squared_error (fun features => nth 0 features 0)
                              (values dataset_two_rows).
Proof.
  refine (proj2 (proj2 (proj1 (fitness_functions_correct sample_division)
            (mkPset 1) tree_x dataset_two_rows (Lambda 1 tree_x)
            (fun features => nth 0 features 0) _ _ _ _))).
  - repeat constructor.
  - unfold shape0; simpl; lia.
  - reflexivity.
  - simpl. intros row [<-|[<-|[]]]; reflexivity.
Defined.

(** C2, as the code has it. On a dataset without rows the loop body never
    runs: [fitness_function_ae] and [fitness_function_sse] return [[0]]
    without any error, and only [fitness_function_mse] fails, on the
    division of the integer [0] by the row count [0]. *)
Theorem fitness_on_empty_dataset (protected_div : Q -> Q -> Q)
        (pset : PrimitiveSet) (individual : expr) (data : DataFrame)
        (func : compiled) :
  compile protected_div pset individual = Ok func ->
  shape0 data = 0%nat ->
  fitness_function_ae protected_div pset individual data = Ok [0] /\
  fitness_function_sse protected_div pset individual data = Ok [0] /\
  fitness_function_mse protected_div pset individual data
  = Raise ZeroDivisionError.
Proof.
  intros Hcomp Hrows.
  unfold fitness_function_ae, fitness_function_sse, fitness_function_mse.
  rewrite Hcomp, Hrows. repeat split; reflexivity.
Qed.

Lemma fitness_on_empty_dataset_witness :
  fitness_function_ae sample_division (mkPset 1) tree_x empty_dataset
  = Ok [0] /\
  fitness_function_sse sample_division (mkPset 1) tree_x empty_dataset
  = Ok [0] /\
  fitness_function_mse sample_division (mkPset 1) tree_x empty_dataset
  = Raise ZeroDivisionError.
Proof.
  apply (fitness_on_empty_dataset sample_division (mkPset 1) tree_x
           empty_dataset (Lambda 1 tree_x)); reflexivity.
Defined.

(** C2, as stated, fails: no rows, and a fitness of [0] comes back. *)
Lemma empty_dataset_silently_scores_zero :
  shape0 empty_dataset = 0%nat /\
  fitness_function_ae sample_division (mkPset 1) tree_x empty_dataset
  = Ok [0] /\
  fitness_function_sse sample_division (mkPset 1) tree_x empty_dataset
  = Ok [0] /\
  ~ (exists e, fitness_function_ae sample_division (mkPset 1) tree_x
                                   empty_dataset = Raise e).
Proof.
  repeat split. intros [e He]. discriminate He.
Qed.


Local Open Scope nat_scope.

Arguments random_choice : simpl never.
Arguments random_randint : simpl never.
Arguments random_randrange : simpl never.
Arguments randbelow : simpl never.
Arguments wp : simpl never.
Arguments bind : simpl never.

(** ** Rules of the weakest precondition *)

Lemma wp_ret {A} (a : A) (Q : A -> world -> Prop) w :
  wp (ret a) Q w = Q a w.
Proof. reflexivity. Qed.

Lemma wp_bind {A B} (m : M A) (k : A -> M B) (Q : B -> world -> Prop) w :
  wp (bind m k) Q w = wp m (fun a w' => wp (k a) Q w') w.
Proof.
  unfold wp, bind. destruct (m w) as [[a w']|e]; reflexivity.
Qed.

Lemma wp_conseq {A} (m : M A) (Q Q' : A -> world -> Prop) w :
  wp m Q w -> (forall a w', Q a w' -> Q' a w') -> wp m Q' w.
Proof.
  unfold wp. destruct (m w) as [[a w']|e]; auto.
Qed.

Lemma wp_ok {A} (m : M A) (Q : A -> world -> Prop) w :
  wp m Q w -> exists a w', m w = Ok (a, w') /\ Q a w'.
Proof.
  unfold wp. destruct (m w) as [[a w']|e]; [eauto|contradiction].
Qed.

Lemma wp_lift_ok {A} (a : A) (Q : A -> world -> Prop) w :
  wp (lift (Ok a)) Q w = Q a w.
Proof. reflexivity. Qed.

Lemma wp_deref r (Q : Individual -> world -> Prop) w :
  wp (deref r) Q w = Q (lookup w r) w.
Proof. reflexivity. Qed.

Lemma wp_alloc ind (Q : ref -> world -> Prop) w :
  wp (alloc ind) Q w
  = Q (length (heap w)) (mkWorld (py_random w) (np_random w) (heap w ++ [ind])).
Proof. reflexivity. Qed.

Lemma wp_store r ind (Q : unit -> world -> Prop) w :
  wp (store r ind) Q w
  = Q tt (mkWorld (py_random w) (np_random w) (update_nth (heap w) r ind)).
Proof. reflexivity. Qed.

Lemma wp_py_raw (Q : N -> world -> Prop) w :
  wp py_raw Q w
  = Q (tape (py_random w) (cursor (py_random w)))
      (mkWorld (mkRng (tape (py_random w)) (S (cursor (py_random w))))
               (np_random w) (heap w)).
Proof. reflexivity. Qed.

Lemma wp_np_raw (Q : N -> world -> Prop) w :
  wp np_raw Q w
  = Q (tape (np_random w) (cursor (np_random w)))
      (mkWorld (py_random w)
               (mkRng (tape (np_random w)) (S (cursor (np_random w))))
               (heap w)).
Proof. reflexivity. Qed.

(** Loops: an invariant over the elements still to visit. *)
Lemma wp_for_M {A S} (body : S -> A -> M S) (I : list A -> S -> world -> Prop) :
  (forall x rest acc w,
      I (x :: rest) acc w -> wp (body acc x) (fun acc' w' => I rest acc' w') w) ->
  forall l acc w,
    I l acc w -> wp (for_M body l acc) (fun acc' w' => I [] acc' w') w.
Proof.
  intros Hstep. induction l as [|x l IH]; intros acc w HI; simpl.
  - exact HI.
  - rewrite wp_bind. eapply wp_conseq; [apply Hstep; exact HI|].
    intros acc' w' HI'. apply IH. exact HI'.
Qed.

(** Comprehensions: an invariant over the elements visited and the values
    collected so far. *)
Lemma wp_map_M_from {A B} (f : A -> M B)
      (I : list A -> list B -> world -> Prop) (l : list A) :
  forall xs ys w,
    (forall xs' x ys' w', (exists rest, xs ++ l = xs' ++ x :: rest) ->
        I xs' ys' w' ->
        wp (f x) (fun y w'' => I (xs' ++ [x]) (ys' ++ [y]) w'') w') ->
    I xs ys w ->
    wp (map_M f l) (fun ys' w' => I (xs ++ l) (ys ++ ys') w') w.
Proof.
  induction l as [|x l IH]; intros xs ys w Hstep HI; simpl.
  - rewrite wp_ret. rewrite !app_nil_r. exact HI.
  - rewrite wp_bind. eapply wp_conseq.
    + apply Hstep; [exists l; reflexivity|exact HI].
    + intros y w' HI'. simpl in HI'. rewrite wp_bind.
      eapply wp_conseq.
      * apply (IH (xs ++ [x]) (ys ++ [y]) w'); [|exact HI'].
        intros xs' x' ys' w'' [rest Hrest] HI''. apply Hstep; [|exact HI''].
        exists rest. rewrite <- Hrest. rewrite <- app_assoc. reflexivity.
      * intros ys' w'' HI''. rewrite wp_ret.
        rewrite <- !app_assoc in HI''. exact HI''.
Qed.

Lemma wp_map_M {A B} (f : A -> M B)
      (I : list A -> list B -> world -> Prop) (l : list A) w :
  (forall xs x ys w', (exists rest, l = xs ++ x :: rest) ->
      I xs ys w' ->
      wp (f x) (fun y w'' => I (xs ++ [x]) (ys ++ [y]) w'') w') ->
  I [] [] w ->
  wp (map_M f l) (fun ys w' => I l ys w') w.
Proof.
  intros Hstep HI.
  apply (@wp_map_M_from _ _ f I l [] [] w); assumption.
Qed.

Ltac wp_run :=
  repeat (progress (rewrite ?wp_bind, ?wp_ret, ?wp_deref, ?wp_alloc, ?wp_store,
                    ?wp_py_raw, ?wp_np_raw, ?wp_lift_ok;
                    cbv beta; cbn [heap py_random np_random fst snd]));
  try rewrite wp_ret.

(** Running an operation whose behaviour is known, then the continuation. *)
Tactic Notation "wp_apply" uconstr(H) :=
  try rewrite wp_bind; eapply wp_conseq; [eapply H|cbv beta].

(** ** The heap *)

Lemma length_update_nth {A} (l : list A) i x :
  length (update_nth l i x) = length l.
Proof.
  revert i; induction l as [|y l IH]; intros [|i]; simpl; auto.
Qed.

Lemma nth_update_nth_eq {A} (l : list A) i x d :
  (i < length l)%nat -> nth i (update_nth l i x) d = x.
Proof.
  revert i; induction l as [|y l IH]; intros [|i] H; simpl in *; try lia; auto.
  apply IH. lia.
Qed.

Lemma nth_update_nth_neq {A} (l : list A) i j x d :
  i <> j -> nth j (update_nth l i x) d = nth j l d.
Proof.
  revert i j; induction l as [|y l IH]; intros [|i] [|j] H; simpl; auto.
  congruence.
Qed.

Lemma Forall_update_nth {A} (P : A -> Prop) (l : list A) i x :
  Forall P l -> P x -> Forall P (update_nth l i x).
Proof.
  intros Hl Hx. revert i; induction Hl; intros [|i]; simpl; auto.
Qed.

Lemma lookup_alloc_new w w' ind :
  heap w' = heap w ++ [ind] -> lookup w' (length (heap w)) = ind.
Proof.
  intros E. unfold lookup. rewrite E, app_nth2 by lia.
  rewrite Nat.sub_diag. reflexivity.
Qed.

Lemma lookup_store_eq w w' r ind :
  heap w' = update_nth (heap w) r ind -> (r < length (heap w))%nat ->
  lookup w' r = ind.
Proof. intros E H. unfold lookup. rewrite E. apply nth_update_nth_eq. exact H. Qed.

Lemma lookup_store_neq w w' r r' ind :
  heap w' = update_nth (heap w) r ind -> r <> r' ->
  lookup w' r' = lookup w r'.
Proof. intros E H. unfold lookup. rewrite E. apply nth_update_nth_neq. exact H. Qed.

Lemma lookup_overflow w r :
  (length (heap w) <= r)%nat -> lookup w r = unset_individual.
Proof. intros H. unfold lookup. apply nth_overflow. exact H. Qed.

Lemma length_store w w' r ind :
  heap w' = update_nth (heap w) r ind -> length (heap w') = length (heap w).
Proof. intros ->. apply length_update_nth. Qed.

Lemma lookup_closed n w r :
  heap_closed n w -> closed n (tree (lookup w r)).
Proof.
  unfold heap_closed, lookup. intros H.
  destruct (Nat.lt_ge_cases r (length (heap w))) as [Hlt|Hge].
  - rewrite Forall_forall in H. apply H. apply nth_In. exact Hlt.
  - rewrite nth_overflow by exact Hge. exact I.
Qed.

Lemma lookup_same_heap w w' r : heap w' = heap w -> lookup w' r = lookup w r.
Proof. unfold lookup. intros ->. reflexivity. Qed.

Section Grows.

Variable n : nat.

Lemma grows_refl F w : grows n F w w.
Proof. repeat split; auto. Qed.

Lemma grows_same_heap F w w' : heap w' = heap w -> grows n F w w'.
Proof.
  intros H. unfold grows, heap_closed, lookup. rewrite H. repeat split; auto.
Qed.

Lemma grows_trans (F F' : ref -> Prop) w w1 w2 :
  grows n F w w1 -> grows n F' w1 w2 ->
  (forall r, (r < length (heap w))%nat -> F' r -> F r) ->
  grows n F w w2.
Proof.
  intros (Hl1 & Hf1 & Hc1) (Hl2 & Hf2 & Hc2) Hsub. repeat split.
  - lia.
  - intros r Hr HF. rewrite Hf2; [apply Hf1; assumption|lia|].
    intros HF'. apply HF. apply Hsub; assumption.
  - auto.
Qed.

Lemma grows_store (F : ref -> Prop) w w' r ind :
  heap w' = update_nth (heap w) r ind ->
  F r -> (heap_closed n w -> closed n (tree ind)) ->
  grows n F w w'.
Proof.
  intros E HF Hc. repeat split.
  - rewrite E, length_update_nth. lia.
  - intros r' Hr' HF'. eapply lookup_store_neq; eauto. intros ->. auto.
  - unfold heap_closed in *. rewrite E. intros H.
    apply Forall_update_nth; auto.
Qed.

Lemma grows_length F w w' : grows n F w w' -> (length (heap w) <= length (heap w'))%nat.
Proof. intros H; apply H. Qed.

Lemma grows_lookup (F : ref -> Prop) w w' r :
  grows n F w w' -> (r < length (heap w))%nat -> ~ F r ->
  lookup w' r = lookup w r.
Proof. intros H; apply H. Qed.

Lemma grows_closed F w w' : grows n F w w' -> heap_closed n w -> heap_closed n w'.
Proof. intros H; apply H. Qed.

End Grows.

(** ** Random draws leave the heap alone *)

Lemma wp_randbelow k w :
  (0 < k)%nat ->
  wp (randbelow k) (fun i w' => heap w' = heap w /\ (i < k)%nat) w.
Proof.
  intros Hk. unfold randbelow. wp_run. split; [reflexivity|].
  pose proof (N.mod_upper_bound (tape (py_random w) (cursor (py_random w)))
                                (N.of_nat k)) as Hlt.
  lia.
Qed.

Lemma wp_random_choice {A} (l : list A) w :
  l <> [] ->
  wp (random_choice l) (fun x w' => heap w' = heap w /\ In x l) w.
Proof.
  intros Hl. unfold random_choice. destruct l as [|a l]; [congruence|].
  wp_apply wp_randbelow; [simpl; lia|].
  intros i w' [Hh Hi]. unfold getitem.
  destruct (nth_error (a :: l) i) as [x|] eqn:Hx.
  - rewrite wp_lift_ok. split; [exact Hh|]. eapply nth_error_In; eauto.
  - apply nth_error_None in Hx. lia.
Qed.

Lemma wp_random_randint a b w :
  (a <= b)%nat ->
  wp (random_randint a b)
     (fun i w' => heap w' = heap w /\ (a <= i <= b)%nat) w.
Proof.
  intros Hab. unfold random_randint.
  destruct (b <? a)%nat eqn:Hlt; [apply Nat.ltb_lt in Hlt; lia|].
  wp_apply wp_randbelow; [lia|].
  intros i w' [Hh Hi]. wp_run. split; [exact Hh|lia].
Qed.

(** [random.randrange(k)] is the next raw draw of the generator, reduced
    modulo [k]. *)
Lemma wp_random_randrange k w :
  (0 < k)%nat ->
  wp (random_randrange k)
     (fun i w' =>
        heap w' = heap w /\ (i < k)%nat /\
        i = N.to_nat (tape (py_random w) (cursor (py_random w))
                      mod N.of_nat k)%N) w.
Proof.
  intros Hk. unfold random_randrange.
  destruct (k =? 0)%nat eqn:He; [apply Nat.eqb_eq in He; lia|].
  unfold randbelow. wp_run. split; [reflexivity|]. split; [|reflexivity].
  pose proof (N.mod_upper_bound (tape (py_random w) (cursor (py_random w)))
                                (N.of_nat k)) as Hlt.
  lia.
Qed.

Lemma wp_random_random w :
  wp random_random (fun _ w' => heap w' = heap w) w.
Proof. unfold random_random. wp_run. reflexivity. Qed.

Lemma wp_np_random_random w :
  wp np_random_random
     (fun u w' => heap w' = heap w /\ py_random w' = py_random w /\
                  u = unit_float (tape (np_random w) (cursor (np_random w))))
     w.
Proof. unfold np_random_random. wp_run. repeat split. Qed.

Lemma wp_randomTerm_value config w :
  wp (randomTerm_value config) (fun _ w' => heap w' = heap w) w.
Proof.
  unfold randomTerm_value, np_random_uniform. wp_run. reflexivity.
Qed.

Ltac finish :=
  repeat split; simpl; auto;
  try congruence; try contradiction; try discriminate; try lia.

(** ** Trees *)

Lemma len_pos t : (1 <= len t)%nat.
Proof. destruct t; simpl; lia. Qed.

Lemma closed_subtree n t : forall i, closed n t -> closed n (subtree t i).
Proof.
  induction t as [j|c|p a IHa b IHb]; intros [|i] H; simpl; auto.
  destruct H as [Ha Hb]. destruct (i <? len a)%nat; auto.
Qed.

Lemma closed_replace_subtree n s t :
  forall i, closed n t -> closed n s -> closed n (replace_subtree t i s).
Proof.
  induction t as [j|c|p a IHa b IHb]; intros [|i] H Hs; simpl; auto.
  destruct H as [Ha Hb]. destruct (i <? len a)%nat; simpl; auto.
Qed.

Lemma full_tree_height h : forall t, full_tree h t -> height t = h.
Proof.
  induction h as [|h IH]; intros [j|c|p a b] H; simpl in *;
    try contradiction; auto.
  destruct H as [Ha Hb]. rewrite (IH a Ha), (IH b Hb). lia.
Qed.

(** ** Tree generation *)

Section GenerateFacts.

Variable pset : PrimitiveSet.
Variable ephemeral : M Q.

Hypothesis ephemeral_heap :
  forall w, wp ephemeral (fun _ w' => heap w' = heap w) w.

Lemma wp_make_terminal w :
  wp (make_terminal pset ephemeral)
     (fun t w' => heap w' = heap w /\ closed (arguments pset) t /\
                  full_tree 0 t) w.
Proof.
  unfold make_terminal.
  wp_apply (@wp_random_choice terminal).
  { unfold terminals. intros H. apply app_eq_nil in H.
    destruct H as [_ H]. discriminate. }
  intros [i|] w' [Hh Hin].
  - wp_run. repeat split; auto. simpl.
    unfold terminals in Hin. apply in_app_or in Hin.
    destruct Hin as [Hin|[Hin|[]]]; [|discriminate].
    apply in_map_iff in Hin. destruct Hin as (j & Hj & Hin).
    inversion Hj; subst. apply in_seq in Hin. lia.
  - wp_apply ephemeral_heap. intros c w'' Hh'. wp_run. finish.
Qed.

Lemma wp_condition m min_ h depth w :
  wp (condition pset m min_ h depth)
     (fun stop w' => heap w' = heap w /\
                     (depth = h -> stop = true) /\
                     (m = Full -> stop = true -> depth = h)) w.
Proof.
  unfold condition. destruct m.
  - destruct (depth =? h)%nat eqn:He.
    + wp_run. finish.
    + apply Nat.eqb_neq in He. destruct (min_ <=? depth)%nat.
      * wp_apply wp_random_random. intros u w' Hh. wp_run. finish.
      * wp_run. finish.
  - wp_run. repeat split; auto.
    + intros ->. apply Nat.eqb_refl.
    + intros _ H. apply Nat.eqb_eq. exact H.
Qed.

Lemma wp_generate_node m min_ h :
  forall remaining depth w,
    (depth + remaining = h)%nat ->
    wp (generate_node pset ephemeral m min_ h depth remaining)
       (fun t w' => heap w' = heap w /\ closed (arguments pset) t /\
                    (height t <= remaining)%nat /\
                    (m = Full -> full_tree remaining t)) w.
Proof.
  induction remaining as [|r IH]; intros depth w Hd; simpl.
  - wp_apply wp_condition. intros stop w' (Hh & Hstop & _).
    assert (Ht : wp (make_terminal pset ephemeral)
              (fun t w'' => heap w'' = heap w /\ closed (arguments pset) t /\
                            (height t <= 0)%nat /\ (m = Full -> full_tree 0 t))
              w').
    { eapply wp_conseq; [apply wp_make_terminal|].
      intros t w'' (Hh' & Hc & Hf).
      rewrite (full_tree_height _ _ Hf). finish. }
    destruct stop; exact Ht.
  - wp_apply wp_condition. intros stop w' (Hh & Hstop & Hfull).
    destruct stop.
    + eapply wp_conseq; [apply wp_make_terminal|].
      intros t w'' (Hh' & Hc & Hf).
      rewrite (full_tree_height _ _ Hf). finish.
      intros Hm. specialize (Hfull Hm eq_refl). lia.
    + wp_apply (@wp_random_choice primitive); [discriminate|].
      intros prim w1 [Hh1 _].
      wp_apply (IH (S depth) w1); [lia|].
      intros a w2 (Hh2 & Hca & Hha & Hfa).
      wp_apply (IH (S depth) w2); [lia|].
      intros b w3 (Hh3 & Hcb & Hhb & Hfb).
      wp_run. finish.
Qed.

Lemma wp_generate m min_ max_ w :
  (min_ <= max_)%nat ->
  wp (generate pset ephemeral m min_ max_)
     (fun t w' => heap w' = heap w /\ closed (arguments pset) t /\
                  (height t <= max_)%nat /\
                  (m = Full -> exists h, (min_ <= h <= max_)%nat /\
                                         full_tree h t)) w.
Proof.
  intros Hmm. unfold generate.
  wp_apply wp_random_randint; [exact Hmm|].
  intros h w' [Hh Hr].
  eapply wp_conseq; [apply (@wp_generate_node m min_ h h 0 w'); lia|].
  intros t w'' (Hh' & Hc & Hht & Hf). finish.
  intros Hm. exists h. auto.
Qed.

Lemma wp_genHalfAndHalf min_ max_ w :
  (min_ <= max_)%nat ->
  wp (genHalfAndHalf pset ephemeral min_ max_)
     (fun t w' => heap w' = heap w /\ closed (arguments pset) t /\
                  (height t <= max_)%nat) w.
Proof.
  intros Hmm. unfold genHalfAndHalf.
  wp_apply (@wp_random_choice method); [discriminate|].
  intros m w' [Hh _].
  eapply wp_conseq; [apply wp_generate; exact Hmm|].
  intros t w'' (Hh' & Hc & Hht & _). finish.
Qed.

End GenerateFacts.

(** ** Operations on individuals *)

Lemma wp_deepcopy r w :
  wp (deepcopy r)
     (fun c w' => c = length (heap w) /\ heap w' = heap w ++ [lookup w r] /\
                  py_random w' = py_random w) w.
Proof. unfold deepcopy. wp_run. repeat split. Qed.

Lemma wp_set_tree r t w :
  wp (set_tree r t)
     (fun _ w' => heap w' = update_nth (heap w) r
                                       (mkInd t (wvalues (lookup w r)))) w.
Proof. unfold set_tree. wp_run. reflexivity. Qed.

Lemma wp_del_fitness_values r w :
  wp (del_fitness_values r)
     (fun _ w' => heap w' = update_nth (heap w) r
                                       (mkInd (tree (lookup w r)) [])) w.
Proof. unfold del_fitness_values. wp_run. reflexivity. Qed.

Lemma wp_set_fitness_values r vals w :
  wp (set_fitness_values r vals)
     (fun _ w' =>
        heap w' = update_nth (heap w) r
                    (mkInd (tree (lookup w r))
                           (map (fun vw => (fst vw * snd vw)%Q)
                                (combine vals weights)))) w.
Proof. unfold set_fitness_values. wp_run. reflexivity. Qed.

(** What a store at [r] leaves of an object. *)
Lemma lookup_store w w' r ind r' :
  heap w' = update_nth (heap w) r ind ->
  lookup w' r' = lookup w r' \/
  (r' = r /\ (r < length (heap w))%nat /\ lookup w' r' = ind).
Proof.
  intros E. destruct (Nat.eq_dec r r') as [->|Hne].
  - destruct (Nat.lt_ge_cases r' (length (heap w))) as [Hlt|Hge].
    + right. repeat split; auto. eapply lookup_store_eq; eauto.
    + left. rewrite !lookup_overflow; auto.
      rewrite (@length_store _ _ _ _ E). exact Hge.
  - left. eapply lookup_store_neq; eauto.
Qed.

Lemma grows_store2 n (F : ref -> Prop) w w1 w2 a b x y :
  heap w1 = update_nth (heap w) a x ->
  heap w2 = update_nth (heap w1) b y ->
  F a -> F b ->
  (heap_closed n w -> closed n (tree x) /\ closed n (tree y)) ->
  grows n F w w2.
Proof.
  intros E1 E2 Ha Hb Hc. repeat split.
  - rewrite E2, length_update_nth, E1, length_update_nth. lia.
  - intros r Hr HF.
    rewrite (@lookup_store_neq w1 w2 b r y E2) by (intros ->; auto).
    apply (@lookup_store_neq w w1 a r x E1). intros ->; auto.
  - unfold heap_closed in *. rewrite E2, E1. intros H.
    destruct (Hc H) as [Hx Hy].
    apply Forall_update_nth; auto. apply Forall_update_nth; auto.
Qed.

Lemma seq_nonempty a k : (0 < k)%nat -> seq a k <> [].
Proof. destruct k; simpl; [lia|discriminate]. Qed.

(** One-point crossover works in place on its two arguments and keeps
    their fitness values. *)
Lemma wp_cxOnePoint n a b w :
  wp (cxOnePoint a b)
     (fun out w' =>
        out = [a; b] /\
        grows n (fun r => r = a \/ r = b) w w' /\
        length (heap w') = length (heap w) /\
        forall r, wvalues (lookup w' r) = wvalues (lookup w r)) w.
Proof.
  unfold cxOnePoint. wp_run.
  destruct ((len (tree (lookup w a)) <? 2)%nat
            || (len (tree (lookup w b)) <? 2)%nat) eqn:Hsmall.
  - wp_run. repeat split; auto.
  - apply orb_false_iff in Hsmall. destruct Hsmall as [H1 H2].
    apply Nat.ltb_ge in H1, H2.
    wp_apply (@wp_random_choice unit); [discriminate|].
    intros _ w1 [Hh1 _].
    wp_apply (@wp_random_choice nat); [apply seq_nonempty; lia|].
    intros index1 w2 [Hh2 _].
    wp_apply (@wp_random_choice nat); [apply seq_nonempty; lia|].
    intros index2 w3 [Hh3 _].
    wp_apply wp_set_tree. intros _ w4 E4.
    wp_apply wp_set_tree. intros _ w5 E5.
    wp_run.
    assert (Hw3 : heap w3 = heap w) by congruence.
    rewrite Hw3 in E4.
    split; [reflexivity|]. split; [|split].
    + eapply grows_store2; eauto. simpl. intros Hc.
      split; apply closed_replace_subtree; try apply closed_subtree;
        apply lookup_closed; exact Hc.
    + rewrite (@length_store _ _ _ _ E5). apply (@length_store _ _ _ _ E4).
    + intros r.
      assert (H4 : forall r', wvalues (lookup w4 r') = wvalues (lookup w r')).
      { intros r'. destruct (lookup_store _ _ _ _ r' E4) as [->|(-> & _ & ->)]; simpl.
        - reflexivity.
        - rewrite (lookup_same_heap _ _ a Hw3). reflexivity. }
      destruct (lookup_store _ _ _ _ r E5) as [->|(-> & _ & ->)]; simpl; apply H4.
Qed.

Lemma grows_app n (F : ref -> Prop) w w' news :
  heap w' = heap w ++ news ->
  (heap_closed n w -> Forall (fun ind => closed n (tree ind)) news) ->
  grows n F w w'.
Proof.
  intros E Hc. repeat split.
  - rewrite E, length_app. lia.
  - intros r Hr _. unfold lookup. rewrite E. apply app_nth1. exact Hr.
  - unfold heap_closed in *. rewrite E. intros H. apply Forall_app. auto.
Qed.

Lemma lookup_app_old w w' news r :
  heap w' = heap w ++ news -> (r < length (heap w))%nat ->
  lookup w' r = lookup w r.
Proof. intros E Hr. unfold lookup. rewrite E. apply app_nth1. exact Hr. Qed.

Lemma lookup_app_new w w' news k :
  heap w' = heap w ++ news ->
  lookup w' (length (heap w) + k) = nth k news unset_individual.
Proof.
  intros E. unfold lookup. rewrite E, app_nth2 by lia. f_equal. lia.
Qed.

(** The copies kept by the height limit are new objects, in order. *)
Lemma wp_map_deepcopy args w :
  Forall (fun r => (r < length (heap w))%nat) args ->
  wp (map_M deepcopy args)
     (fun keep w' => keep = seq (length (heap w)) (length args) /\
                     heap w' = heap w ++ map (lookup w) args /\
                     py_random w' = py_random w) w.
Proof.
  intros Hargs.
  apply (wp_map_M deepcopy
           (fun xs ys w' => ys = seq (length (heap w)) (length xs) /\
                            heap w' = heap w ++ map (lookup w) xs /\
                            py_random w' = py_random w)).
  - intros xs x ys w' [rest Hrest] (Hys & Hh & Hpy).
    eapply wp_conseq; [apply wp_deepcopy|].
    intros c w'' (Hc & Hh' & Hpy').
    assert (Hx : (x < length (heap w))%nat).
    { rewrite Forall_forall in Hargs. apply Hargs. rewrite Hrest.
      apply in_or_app. right. left. reflexivity. }
    split; [|split].
    + rewrite length_app, seq_app. simpl. rewrite Hys, Hc, Hh.
      rewrite length_app, length_map. reflexivity.
    + rewrite Hh', Hh, map_app, <- app_assoc. simpl.
      rewrite (lookup_app_old w w' (map (lookup w) xs) x Hh Hx). reflexivity.
    + congruence.
  - split; [reflexivity|]. simpl. rewrite app_nil_r. split; reflexivity.
Qed.

Lemma wp_staticLimit max_value func args w
      (Post : world -> list ref -> world -> Prop) :
  args <> [] ->
  Forall (fun r => (r < length (heap w))%nat) args ->
  (forall w1, heap w1 = heap w ++ map (lookup w) args ->
              py_random w1 = py_random w ->
              wp (func args) (fun outs w2 => Post w1 outs w2) w1) ->
  wp (staticLimit max_value func args)
     (fun res w3 =>
        exists w1 outs w2,
          heap w1 = heap w ++ map (lookup w) args /\
          Post w1 outs w2 /\
          heap w3 = heap w2 /\
          Forall2 (limited max_value (seq (length (heap w)) (length args)) w2)
                  outs res) w.
Proof.
  intros Hne Hargs Hfunc. unfold staticLimit.
  wp_apply wp_map_deepcopy; [exact Hargs|].
  intros keep w1 (Hkeep & Hh1 & Hpy1).
  wp_apply (Hfunc w1 Hh1 Hpy1). intros outs w2 HPost.
  eapply wp_conseq.
  - apply (wp_map_M _
             (fun xs ys w' => heap w' = heap w2 /\
                              Forall2 (limited max_value keep w2) xs ys)).
    + intros xs x ys w' _ [Hh HF]. wp_run.
      rewrite (lookup_same_heap _ _ x Hh).
      destruct (max_value <? height (tree (lookup w2 x)))%nat eqn:Hcmp.
      * apply Nat.ltb_lt in Hcmp.
        wp_apply (@wp_random_choice ref).
        { rewrite Hkeep. apply seq_nonempty.
          destruct args; [congruence|simpl; lia]. }
        intros c w'' [Hh' Hin]. split; [congruence|].
        apply Forall2_app; [exact HF|]. constructor; [|constructor].
        right. split; assumption.
      * apply Nat.ltb_ge in Hcmp. wp_run. split; [exact Hh|].
        apply Forall2_app; [exact HF|]. constructor; [|constructor].
        left. split; [reflexivity|exact Hcmp].
    + split; [reflexivity|constructor].
  - intros res w3 [Hh3 HF]. exists w1, outs, w2. subst keep. auto.
Qed.


Lemma grows_heap_right n (F : ref -> Prop) w w2 w3 :
  heap w3 = heap w2 -> grows n F w w2 -> grows n F w w3.
Proof.
  intros E H. unfold grows, heap_closed, lookup in *. rewrite E. exact H.
Qed.

Lemma grows_heap_left n (F : ref -> Prop) w w1 w2 :
  heap w1 = heap w -> grows n F w1 w2 -> grows n F w w2.
Proof.
  intros E H. unfold grows, heap_closed, lookup in *. rewrite <- E. exact H.
Qed.

Lemma getitem_nth {A} (l : list A) (i : nat) (d : A) :
  i < length l -> getitem l i = Ok (nth i l d).
Proof.
  intros H. unfold getitem. rewrite (nth_error_nth' l d H). reflexivity.
Qed.

Lemma setitem_ok {A} (l : list A) (i : nat) (x : A) :
  i < length l -> setitem l i x = Ok (update_nth l i x).
Proof.
  intros H. unfold setitem. apply Nat.ltb_lt in H. rewrite H. reflexivity.
Qed.

(** Deleting the fitness values of two individuals. *)
Lemma del_two_fitness w1 w2 w3 c1 c2 :
  heap w2 = update_nth (heap w1) c1 (mkInd (tree (lookup w1 c1)) []) ->
  heap w3 = update_nth (heap w2) c2 (mkInd (tree (lookup w2 c2)) []) ->
  c1 < length (heap w1) -> c2 < length (heap w1) ->
  (forall r, tree (lookup w3 r) = tree (lookup w1 r)) /\
  wvalues (lookup w3 c1) = [] /\
  wvalues (lookup w3 c2) = [] /\
  length (heap w3) = length (heap w1) /\
  (forall r, r <> c1 -> r <> c2 -> lookup w3 r = lookup w1 r).
Proof.
  intros E2 E3 H1 H2.
  assert (L2 : length (heap w2) = length (heap w1))
    by (apply (length_store _ _ _ _ E2)).
  assert (T2 : forall r, tree (lookup w2 r) = tree (lookup w1 r)).
  { intros r. destruct (lookup_store _ _ _ _ r E2) as [->|(-> & _ & ->)];
      reflexivity. }
  assert (W2 : wvalues (lookup w2 c1) = []).
  { rewrite (lookup_store_eq _ _ _ _ E2 H1). reflexivity. }
  split; [|split; [|split; [|split]]].
  - intros r. destruct (lookup_store _ _ _ _ r E3) as [->|(-> & _ & ->)];
      simpl; apply T2.
  - destruct (lookup_store _ _ _ _ c1 E3) as [->|(_ & _ & ->)];
      [exact W2|reflexivity].
  - rewrite (lookup_store_eq _ _ _ _ E3) by lia. reflexivity.
  - rewrite (length_store _ _ _ _ E3). exact L2.
  - intros r Hr1 Hr2.
    rewrite (lookup_store_neq _ _ _ r _ E3) by congruence.
    apply (lookup_store_neq _ _ _ r _ E2). congruence.
Qed.

(** ** The decorated operators *)

Section Operators.

Variable config : Config.

Let n := arguments (pset config).
Let limit := max_height config.

(** [toolbox.mate]: two copies are made, the parents are crossed in
    place, and each child is returned unless it is too high, in which
    case one of the copies is returned in its place. *)
Lemma wp_toolbox_mate a b w :
  a < length (heap w) -> b < length (heap w) ->
  wp (toolbox_mate config a b)
     (fun res w' =>
        let L := length (heap w) in
        exists c1 c2,
          res = [c1; c2] /\
          length (heap w') = L + 2 /\
          grows n (fun r => r = a \/ r = b) w w' /\
          lookup w' L = lookup w a /\
          lookup w' (L + 1) = lookup w b /\
          (forall r, r < L -> wvalues (lookup w' r) = wvalues (lookup w r)) /\
          limited limit [L; L + 1] w' a c1 /\
          limited limit [L; L + 1] w' b c2) w.
Proof.
  intros Ha Hb. unfold toolbox_mate.
  eapply wp_conseq.
  - apply (wp_staticLimit _ _ _ w
             (fun w1 outs w2 =>
                outs = [a; b] /\
                grows n (fun r => r = a \/ r = b) w1 w2 /\
                length (heap w2) = length (heap w1) /\
                forall r, wvalues (lookup w2 r) = wvalues (lookup w1 r))).
    + discriminate.
    + repeat constructor; assumption.
    + intros w1 _ _. apply wp_cxOnePoint.
  - cbv beta. intros res w3 (w1 & outs & w2 & Hh1 & (-> & Hg & Hlen & Hwv) & Hh3 & HF).
    simpl in Hh1, HF.
    inversion HF as [|o1 c1 os1 cs1 Hl1 HF1]; subst.
    inversion HF1 as [|o2 c2 os2 cs2 Hl2 HF2]; subst.
    inversion HF2; subst.
    assert (Hlen1 : length (heap w1) = length (heap w) + 2).
    { rewrite Hh1, length_app. reflexivity. }
    assert (Hlk : forall r, lookup w3 r = lookup w2 r).
    { intros r. apply lookup_same_heap. exact Hh3. }
    assert (HL : forall r, limited limit [length (heap w); S (length (heap w))] w2 r =
                           limited limit [length (heap w); length (heap w) + 1] w3 r).
    { intros r. unfold limited. rewrite Hlk. rewrite Nat.add_1_r. reflexivity. }
    exists c1, c2. cbv zeta. rewrite <- !HL.
    split; [reflexivity|]. split; [|split; [|split; [|split; [|split; [|split; assumption]]]]].
    + rewrite Hh3, Hlen, Hlen1. reflexivity.
    + apply (grows_heap_right n _ w w2 w3); [congruence|].
      apply (grows_trans n (fun r => r = a \/ r = b)
                         (fun r => r = a \/ r = b) w w1 w2); auto.
      apply (grows_app n _ w w1 _ Hh1). intros Hc.
      repeat constructor; apply lookup_closed; exact Hc.
    + rewrite Hlk.
      rewrite (grows_lookup n _ w1 w2 (length (heap w)) Hg) by lia.
      rewrite <- (Nat.add_0_r (length (heap w))).
      rewrite (lookup_app_new w w1 _ 0 Hh1). reflexivity.
    + rewrite Hlk.
      rewrite (grows_lookup n _ w1 w2 (length (heap w) + 1) Hg) by lia.
      rewrite (lookup_app_new w w1 _ 1 Hh1). reflexivity.
    + intros r Hr. rewrite Hlk, Hwv.
      rewrite (lookup_app_old w w1 _ r Hh1 Hr). reflexivity.
Qed.

(** One turn of the crossover loop. *)
Lemma wp_crossover_step (next_gen : list ref) i w :
  1 <= i < length next_gen ->
  nth (i - 1) next_gen 0 < length (heap w) ->
  nth i next_gen 0 < length (heap w) ->
  wp (crossover_step config next_gen i)
     (fun next_gen' w' =>
        let a := nth (i - 1) next_gen 0 in
        let b := nth i next_gen 0 in
        let u := unit_float (tape (np_random w) (cursor (np_random w))) in
        let L := length (heap w) in
        (Qlt_bool u (prob_crossover config) = false /\
         next_gen' = next_gen /\ heap w' = heap w) \/
        (Qlt_bool u (prob_crossover config) = true /\
         exists c1 c2,
           next_gen' = update_nth (update_nth next_gen (i - 1) c1) i c2 /\
           length (heap w') = L + 2 /\
           grows n (fun r => r = a \/ r = b) w w' /\
           tree (lookup w' L) = tree (lookup w a) /\
           tree (lookup w' (L + 1)) = tree (lookup w b) /\
           wvalues (lookup w' c1) = [] /\
           wvalues (lookup w' c2) = [] /\
           limited limit [L; L + 1] w' a c1 /\
           limited limit [L; L + 1] w' b c2)) w.
Proof.
  intros Hi Ha Hb. unfold crossover_step.
  wp_apply wp_np_random_random. intros u w0 (Hh0 & _ & ->).
  destruct (Qlt_bool _ (prob_crossover config)) eqn:Hu; cbv zeta.
  2:{ wp_run. left. auto. }
  rewrite (@getitem_nth ref next_gen (i - 1) 0) by lia.
  rewrite (@getitem_nth ref next_gen i 0) by lia.
  wp_run.
  set (a := nth (i - 1) next_gen 0) in *.
  set (b := nth i next_gen 0) in *.
  wp_apply (wp_toolbox_mate a b w0); [rewrite Hh0; exact Ha|rewrite Hh0; exact Hb|].
  rewrite Hh0.
  intros res w1 (c1 & c2 & -> & Hlen1 & Hg1 & Hk1 & Hk2 & _ & Hl1 & Hl2).
  rewrite (@setitem_ok ref next_gen (i - 1) c1) by lia.
  wp_run.
  rewrite (@setitem_ok ref _ i c2) by (rewrite length_update_nth; lia).
  wp_run.
  rewrite (@getitem_nth ref _ (i - 1) 0) by (rewrite !length_update_nth; lia).
  rewrite (@getitem_nth ref _ i 0) by (rewrite !length_update_nth; lia).
  rewrite nth_update_nth_neq by lia.
  rewrite nth_update_nth_eq by lia.
  rewrite nth_update_nth_eq by (rewrite length_update_nth; lia).
  wp_run.
  wp_apply wp_del_fitness_values. intros _ w2 E2.
  rewrite wp_bind, wp_lift_ok.
  wp_apply wp_del_fitness_values. intros _ w3 E3.
  wp_run. right. split; [reflexivity|]. exists c1, c2.
  assert (Hc1 : c1 < length (heap w1)).
  { destruct Hl1 as [[-> _]|[_ [<-|[<-|[]]]]]; lia. }
  assert (Hc2 : c2 < length (heap w1)).
  { destruct Hl2 as [[-> _]|[_ [<-|[<-|[]]]]]; lia. }
  destruct (del_two_fitness w1 w2 w3 c1 c2 E2 E3 Hc1 Hc2)
    as (HT & HW1 & HW2 & HL3 & Hframe).
  assert (HL : forall o c, limited limit [length (heap w); length (heap w) + 1] w1 o c ->
                           limited limit [length (heap w); length (heap w) + 1] w3 o c).
  { intros o c. unfold limited. rewrite HT. auto. }
  split; [reflexivity|].
  split; [lia|].
  split; [|split; [|split; [|split; [|split; [|split]]]]]; auto.
  - apply (grows_heap_left n _ w w0 w3 Hh0).
    apply (grows_trans n _ (fun r => r = c1 \/ r = c2) w0 w1 w3 Hg1).
    + apply (grows_store2 n _ w1 w2 w3 c1 c2 _ _ E2 E3); auto.
      simpl. intros Hc. split; apply lookup_closed.
      * exact Hc.
      * unfold heap_closed in *. rewrite E2.
        apply Forall_update_nth; [exact Hc|]. simpl.
        apply (lookup_closed _ w1). exact Hc.
    + rewrite Hh0. intros r Hr [-> | ->].
      * destruct Hl1 as [[-> _]|[_ [<-|[<-|[]]]]]; auto; lia.
      * destruct Hl2 as [[-> _]|[_ [<-|[<-|[]]]]]; auto; lia.
  - rewrite HT, Hk1. apply f_equal. apply lookup_same_heap. exact Hh0.
  - rewrite HT, Hk2. apply f_equal. apply lookup_same_heap. exact Hh0.
Qed.

(** Uniform mutation with the registered generator, [genFull] of depths 0
    to 2: in place, at a node of the tree, a full subtree. *)
Lemma wp_mutUniform r w :
  wp (mutUniform (toolbox_expr_mut config) r)
     (fun outs w' =>
        outs = [r] /\
        exists index h sub,
          index = N.to_nat (tape (py_random w) (cursor (py_random w))
                            mod N.of_nat (len (tree (lookup w r))))%N /\
          index < len (tree (lookup w r)) /\
          h <= 2 /\ full_tree h sub /\ closed n sub /\
          heap w' =
          update_nth (heap w) r
            (mkInd (replace_subtree (tree (lookup w r)) index sub)
                   (wvalues (lookup w r)))) w.
Proof.
  unfold mutUniform. wp_run.
  wp_apply wp_random_randrange; [apply len_pos|].
  intros index w1 (Hh1 & Hindex & Hdraw).
  wp_apply (wp_generate (pset config) (randomTerm_value config)
                        (wp_randomTerm_value config) Full 0 2 w1); [lia|].
  intros sub w2 (Hh2 & Hc & _ & Hfull).
  destruct (Hfull eq_refl) as (h & Hh & Hf).
  wp_apply wp_set_tree. intros _ w3 E3. wp_run.
  split; [reflexivity|]. exists index, h, sub.
  repeat split; auto; try lia.
  rewrite E3. rewrite (lookup_same_heap w1 w2 r Hh2).
  rewrite (lookup_same_heap w w1 r Hh1). congruence.
Qed.

(** One turn of the mutation loop. What the decorated operator returns
    is dropped: the mutant keeps the subtree it received. *)
Lemma wp_mutation_step r w :
  r < length (heap w) ->
  wp (mutation_step config r)
     (fun _ w' =>
        let u := unit_float (tape (np_random w) (cursor (np_random w))) in
        let L := length (heap w) in
        (Qlt_bool u (prob_mutation config) = false /\ heap w' = heap w) \/
        (Qlt_bool u (prob_mutation config) = true /\
         exists index h sub,
           index = N.to_nat (tape (py_random w) (cursor (py_random w))
                             mod N.of_nat (len (tree (lookup w r))))%N /\
           index < len (tree (lookup w r)) /\
           h <= 2 /\ full_tree h sub /\
           lookup w' r
           = mkInd (replace_subtree (tree (lookup w r)) index sub) [] /\
           length (heap w') = L + 1 /\
           lookup w' L = lookup w r /\
           grows n (fun x => x = r) w w')) w.
Proof.
  intros Hr. unfold mutation_step.
  wp_apply wp_np_random_random. intros u w0 (Hh0 & Hpy0 & ->).
  destruct (Qlt_bool _ (prob_mutation config)) eqn:Hu; cbv zeta.
  2:{ wp_run. left. auto. }
  unfold toolbox_mutate.
  wp_apply (wp_staticLimit limit _ [r] w0
              (fun w1 outs w2 =>
                 outs = [r] /\
                 exists index h sub,
                   index = N.to_nat (tape (py_random w) (cursor (py_random w))
                                     mod N.of_nat (len (tree (lookup w1 r))))%N /\
                   index < len (tree (lookup w1 r)) /\
                   h <= 2 /\ full_tree h sub /\ closed n sub /\
                   heap w2 =
                   update_nth (heap w1) r
                     (mkInd (replace_subtree (tree (lookup w1 r)) index sub)
                            (wvalues (lookup w1 r))))).
  { discriminate. }
  { repeat constructor. rewrite Hh0. exact Hr. }
  { intros w1 _ Hpy1. rewrite <- Hpy0, <- Hpy1. apply wp_mutUniform. }
  intros res w3 (w1 & outs & w2 & Hh1 & (-> & index & h & sub & Hdraw & Hindex & Hh & Hf & Hc & E2) & Hh3 & _).
  wp_apply wp_del_fitness_values. intros _ w4 E4.
  right. split; [reflexivity|]. exists index, h, sub.
  simpl in Hh1. rewrite Hh0, (lookup_same_heap w w0 r Hh0) in Hh1.
  assert (Hk1 : lookup w1 r = lookup w r)
    by (apply (lookup_app_old w w1 _ r Hh1 Hr)).
  assert (Hlen1 : length (heap w1) = length (heap w) + 1)
    by (rewrite Hh1, length_app; reflexivity).
  rewrite Hk1 in *.
  assert (Hk3 : lookup w3 r
                = mkInd (replace_subtree (tree (lookup w r)) index sub)
                        (wvalues (lookup w r))).
  { rewrite (lookup_same_heap w2 w3 r Hh3).
    apply (lookup_store_eq w1 w2 r _ E2). lia. }
  rewrite Hk3 in E4. simpl in E4. rewrite Hh3 in E4.
  assert (Hlen4 : length (heap w4) = length (heap w) + 1).
  { rewrite (length_store _ _ _ _ E4), (length_store _ _ _ _ E2). exact Hlen1. }
  split; [exact Hdraw|].
  split; [exact Hindex|]. split; [exact Hh|]. split; [exact Hf|].
  split; [|split; [exact Hlen4|split]].
  - apply (lookup_store_eq w2 w4 r _ E4).
    rewrite (length_store _ _ _ _ E2). lia.
  - rewrite (lookup_store_neq w2 w4 r _ _ E4) by lia.
    rewrite (lookup_store_neq w1 w2 r _ _ E2) by lia.
    rewrite <- (Nat.add_0_r (length (heap w))).
    rewrite (lookup_app_new w w1 _ 0 Hh1). reflexivity.
  - apply (grows_trans n _ (fun x => x = r) w w1 w4).
    + apply (grows_app n _ w w1 _ Hh1). intros Hcl.
      repeat constructor. apply lookup_closed. exact Hcl.
    + apply (grows_store2 n _ w1 w2 w4 r r _ _ E2 E4); auto.
      simpl. intros Hcl.
      assert (closed n (replace_subtree (tree (lookup w r)) index sub)).
      { apply closed_replace_subtree; [|exact Hc].
        rewrite <- Hk1. apply lookup_closed. exact Hcl. }
      auto.
    + auto.
Qed.

End Operators.


(** ** The crossover and mutation loops *)

Lemma py_range_1_2 size i :
  In i (py_range 1 size 2) -> 1 <= i < size /\ (Nat.odd size = true -> i + 1 < size).
Proof.
  unfold py_range. intros H. apply in_map_iff in H.
  destruct H as (k & <- & Hk). apply in_seq in Hk.
  split.
  - pose proof (Nat.Div0.mul_div_le (size - 1 + 2 - 1) 2). lia.
  - intros Hodd. apply Nat.odd_spec in Hodd. destruct Hodd as [j ->].
    replace (2 * j + 1 - 1 + 2 - 1) with (1 + j * 2) in Hk by lia.
    rewrite Nat.div_add in Hk by lia. simpl in Hk. lia.
Qed.

Lemma in_range_grows n F L w w' r :
  grows n F w w' -> in_range L w r -> in_range L w' r.
Proof.
  intros Hg [H1 H2]. split; [exact H1|].
  pose proof (grows_length n F w w' Hg). lia.
Qed.

Lemma Forall_nth_default {A} (P : A -> Prop) (l : list A) (i : nat) (d : A) :
  Forall P l -> i < length l -> P (nth i l d).
Proof.
  intros H Hi. rewrite Forall_forall in H. apply H. apply nth_In. exact Hi.
Qed.

Section Loops.

Variable config : Config.

Let n := arguments (pset config).

(** The crossover loop on offspring created since the heap had [L]
    objects: as many offspring after as before, all of them created
    since then, and no older object touched. *)
Lemma wp_crossover_loop L (next_gen : list ref) w :
  length next_gen = size_population config ->
  Forall (in_range L w) next_gen ->
  wp (crossover_loop config next_gen)
     (fun next_gen' w' =>
        length next_gen' = length next_gen /\
        Forall (in_range L w') next_gen' /\
        grows n (fun r => L <= r) w w') w.
Proof.
  intros Hlen Hrange. unfold crossover_loop.
  eapply wp_conseq.
  - apply (wp_for_M (crossover_step config)
             (fun rest ng' w' =>
                Forall (fun i => 1 <= i < length next_gen) rest /\
                length ng' = length next_gen /\
                Forall (in_range L w') ng' /\
                grows n (fun r => L <= r) w w')).
    + intros i rest ng' w' (Hrest & Hl & Hr & Hg).
      inversion Hrest as [|? ? Hi Hrest']; subst.
      assert (Ha : in_range L w' (nth (i - 1) ng' 0))
        by (apply Forall_nth_default; [exact Hr|lia]).
      assert (Hb : in_range L w' (nth i ng' 0))
        by (apply Forall_nth_default; [exact Hr|lia]).
      eapply wp_conseq.
      * apply (wp_crossover_step config ng' i w');
          [lia|apply Ha|apply Hb].
      * cbv beta zeta.
        intros ng'' w'' [(_ & -> & Hh)|(_ & c1 & c2 & -> & Hlen'' & Hg'' & _ & _ & _ & _ & Hl1 & Hl2)].
        -- split; [exact Hrest'|]. split; [exact Hl|]. split.
           ++ eapply Forall_impl; [|exact Hr]. intros r [H1 H2].
              split; [exact H1|]. rewrite Hh. exact H2.
           ++ apply (grows_heap_right n _ w w' w'' Hh Hg).
        -- split; [exact Hrest'|].
           split; [rewrite !length_update_nth; exact Hl|].
           assert (Hc : forall o c,
                      in_range L w' o ->
                      limited (max_height config)
                              [length (heap w'); length (heap w') + 1] w'' o c ->
                      in_range L w'' c).
           { intros o c [Ho1 Ho2] [[-> _]|[_ [<-|[<-|[]]]]];
               unfold in_range; lia. }
           split.
           ++ apply Forall_update_nth; [apply Forall_update_nth|].
              ** eapply Forall_impl; [|exact Hr].
                 intros r Hr'. apply (in_range_grows n _ L w' w'' r Hg'' Hr').
              ** apply (Hc _ _ Ha Hl1).
              ** apply (Hc _ _ Hb Hl2).
           ++ apply (grows_trans n _ _ w w' w'' Hg Hg'').
              intros r _ [-> | ->]; [apply Ha|apply Hb].
    + split; [|split; [reflexivity|split; [exact Hrange|apply grows_refl]]].
      apply Forall_forall. intros i Hi. rewrite Hlen.
      apply (py_range_1_2 _ _ Hi).
  - cbv beta. intros ng' w' (_ & H). exact H.
Qed.

Lemma wp_mutation_loop L (next_gen : list ref) w :
  Forall (in_range L w) next_gen ->
  wp (mutation_loop config next_gen)
     (fun _ w' => grows n (fun r => L <= r) w w') w.
Proof.
  intros Hrange. unfold mutation_loop.
  eapply wp_conseq.
  - apply (wp_for_M (fun (_ : unit) mutant => mutation_step config mutant)
             (fun rest _ w' =>
                Forall (in_range L w') rest /\
                grows n (fun r => L <= r) w w')).
    + intros r rest _ w' (Hrest & Hg).
      inversion Hrest as [|? ? Hr Hrest']; subst.
      eapply wp_conseq; [apply (wp_mutation_step config r w'); apply Hr|].
      cbv beta zeta.
      intros _ w'' [(_ & Hh)|(_ & index & h & sub & _ & _ & _ & _ & _ & _ & _ & Hg'')].
      * split.
        -- eapply Forall_impl; [|exact Hrest']. intros x [H1 H2].
           split; [exact H1|]. rewrite Hh. exact H2.
        -- apply (grows_heap_right n _ w w' w'' Hh Hg).
      * split.
        -- eapply Forall_impl; [|exact Hrest'].
           intros x Hx. apply (in_range_grows n _ L w' w'' x Hg'' Hx).
        -- apply (grows_trans n _ _ w w' w'' Hg Hg'').
           intros x _ ->. apply Hr.
    + split; [exact Hrange|apply grows_refl].
  - cbv beta. intros _ w' (_ & H). exact H.
Qed.

End Loops.


(** ** Selection and cloning *)

(** Repeating a computation that leaves the heap alone. *)
Lemma wp_repeat_M {A} (f : M A) (P : A -> Prop) k w :
  (forall w', heap w' = heap w ->
              wp f (fun y w'' => heap w'' = heap w /\ P y) w') ->
  wp (repeat_M k f)
     (fun ys w' => heap w' = heap w /\ length ys = k /\ Forall P ys) w.
Proof.
  intros Hf. unfold repeat_M.
  eapply wp_conseq.
  - apply (wp_map_M (fun _ : nat => f)
             (fun xs ys w' => heap w' = heap w /\ length ys = length xs /\
                              Forall P ys)).
    + intros xs x ys w' _ (Hh & Hl & HP).
      eapply wp_conseq; [apply (Hf w' Hh)|].
      cbv beta. intros y w'' [Hh' Hy].
      split; [exact Hh'|]. split.
      * rewrite !length_app, Hl. reflexivity.
      * apply Forall_app. split; [exact HP|]. constructor; [exact Hy|constructor].
    + split; [reflexivity|]. split; [reflexivity|constructor].
  - cbv beta. intros ys w' (Hh & Hl & HP). rewrite length_seq in Hl. auto.
Qed.

Lemma wp_max_by_fitness aspirants w :
  aspirants <> [] ->
  wp (max_by_fitness aspirants)
     (fun r w' => heap w' = heap w /\ In r aspirants) w.
Proof.
  intros Hne. unfold max_by_fitness.
  destruct aspirants as [|first others]; [congruence|].
  eapply wp_conseq.
  - apply (wp_for_M _
             (fun (rest : list ref) best w' =>
                heap w' = heap w /\ In best (first :: others) /\
                forall r, In r rest -> In r (first :: others))).
    + intros r rest best w' (Hh & Hb & Hrest). wp_run.
      split; [exact Hh|]. split.
      * destruct (fitness_gt _ _); [apply Hrest; left; reflexivity|exact Hb].
      * intros r' Hr'. apply Hrest. right. exact Hr'.
    + split; [reflexivity|]. split; [left; reflexivity|].
      intros r Hr. right. exact Hr.
  - cbv beta. intros r w' (Hh & Hb & _). auto.
Qed.

(** Tournament selection returns [k] members of the population. *)
Lemma wp_selTournament tournsize individuals k w :
  individuals <> [] -> 0 < tournsize ->
  wp (selTournament tournsize individuals k)
     (fun chosen w' =>
        heap w' = heap w /\ length chosen = k /\
        Forall (fun r => In r individuals) chosen) w.
Proof.
  intros Hne Ht. unfold selTournament.
  apply (wp_repeat_M _ (fun r => In r individuals)).
  intros w' Hh. unfold selRandom.
  wp_apply (wp_repeat_M (random_choice individuals)
                        (fun r => In r individuals) tournsize w').
  { intros w'' Hh''. eapply wp_conseq; [apply wp_random_choice; exact Hne|].
    cbv beta. intros r w3 [Hh3 Hr]. split; [congruence|exact Hr]. }
  intros aspirants w'' (Hh'' & Hl & Hasp).
  eapply wp_conseq.
  - apply wp_max_by_fitness. intros ->. simpl in Hl. lia.
  - cbv beta. intros r w3 [Hh3 Hr]. split; [congruence|].
    rewrite Forall_forall in Hasp. apply Hasp. exact Hr.
Qed.

Section Variation.

Variable config : Config.

Let n := arguments (pset config).

(** Selection, cloning, crossover and mutation: as many offspring as
    [size_population], all of them new objects, and no older object
    touched. *)
Lemma wp_variation_phase (population : list ref) w :
  population <> [] ->
  Forall (fun r => r < length (heap w)) population ->
  wp (variation_phase config population)
     (fun next_gen w' =>
        length next_gen = size_population config /\
        Forall (in_range (length (heap w)) w') next_gen /\
        grows n (fun r => length (heap w) <= r) w w') w.
Proof.
  intros Hne Hpop. unfold variation_phase, toolbox_select.
  wp_apply wp_selTournament; [exact Hne|apply Nat.lt_0_succ|].
  intros sel w1 (Hh1 & Hlsel & Hsel).
  assert (Hsel1 : Forall (fun r => r < length (heap w1)) sel).
  { rewrite Hh1. eapply Forall_impl; [|exact Hsel].
    rewrite Forall_forall in Hpop. exact Hpop. }
  wp_apply (wp_map_deepcopy sel w1 Hsel1).
  rewrite Hh1. intros clones w2 (Hclones & Hh2 & _).
  assert (Hg2 : grows n (fun r => length (heap w) <= r) w w2).
  { apply (grows_app n _ w w2 _ Hh2). intros Hc.
    apply Forall_map. apply Forall_forall. intros r _.
    apply lookup_closed. apply (grows_closed n (fun _ => False) w w1);
      [apply grows_same_heap; exact Hh1|exact Hc]. }
  assert (Hr2 : Forall (in_range (length (heap w)) w2) clones).
  { rewrite Hclones. apply Forall_forall. intros r Hr. apply in_seq in Hr.
    unfold in_range. rewrite Hh2, length_app, length_map. exact Hr. }
  wp_apply (wp_crossover_loop config (length (heap w)) clones w2).
  { rewrite Hclones, length_seq. exact Hlsel. }
  { exact Hr2. }
  intros ng w3 (Hlng & Hr3 & Hg3).
  wp_apply (wp_mutation_loop config (length (heap w)) ng w3 Hr3).
  intros _ w4 Hg4. wp_run.
  split; [|split].
  - rewrite Hlng, Hclones, length_seq. exact Hlsel.
  - eapply Forall_impl; [|exact Hr3].
    intros r Hr. apply (in_range_grows n _ _ w3 w4 r Hg4 Hr).
  - apply (grows_trans n _ _ w w3 w4 (grows_trans n _ _ w w2 w3 Hg2 Hg3 (fun _ _ H => H)) Hg4).
    auto.
Qed.

End Variation.


(** ** Evaluation of the population *)

Lemma eval_expr_closed protected_div args t :
  closed (length args) t ->
  eval_expr protected_div args t = Ok (eval_total protected_div t args).
Proof.
  induction t as [i|c|p a IHa b IHb]; simpl; intros H.
  - unfold eval_total. simpl.
    destruct (nth_error args i) eqn:E; [reflexivity|].
    apply nth_error_None in E. lia.
  - reflexivity.
  - destruct H as [Ha Hb]. unfold eval_total. simpl.
    rewrite (IHa Ha), (IHb Hb). reflexivity.
Qed.

Lemma length_row_features (row : list Q) :
  length (row_features row) = length row - 1.
Proof.
  unfold row_features. rewrite <- firstn_pred_removelast.
  rewrite length_firstn. lia.
Qed.

Lemma map_fst_combine_le {A B} (l : list A) (l' : list B) :
  length l <= length l' -> map fst (combine l l') = l.
Proof.
  revert l'; induction l as [|x l IH]; intros [|y l'] H; simpl in *;
    try reflexivity; try lia.
  rewrite IH by lia. reflexivity.
Qed.

Section Evaluation.

Variable protected_div : Q -> Q -> Q.
Variable config : Config.
Hypothesis Hvalid : valid_config config.

Let n := arguments (pset config).

Lemma pset_arguments_pos : 1 <= n.
Proof.
  destruct Hvalid as (_ & _ & _ & H). unfold n, pset; simpl. lia.
Qed.

Lemma toolbox_compile_ok t :
  toolbox_compile protected_div config t = Ok (Lambda n t).
Proof.
  unfold toolbox_compile, compile. fold n.
  pose proof pset_arguments_pos as H.
  destruct n as [|k] eqn:E; [lia|]. reflexivity.
Qed.

(** On a valid configuration the evaluation of a tree over the
    arguments of the primitive set returns one fitness value. *)
Lemma fitness_function_mse_total t :
  closed n t ->
  exists v,
    fitness_function_mse protected_div (pset config) t (training_data config)
    = Ok [v].
Proof.
  intros Hc.
  destruct Hvalid as (_ & Hrect & Hrows & Hcols).
  assert (Hlenrow : forall row, In row (values (training_data config)) ->
                                length row = shape1 (training_data config)).
  { intros row Hin. unfold rectangular in Hrect.
    rewrite Forall_forall in Hrect. apply Hrect. exact Hin. }
  pose proof (error_loop_ok protected_div (Lambda n t)
                (training_data config) (eval_total protected_div t)
                (fun p r => ((r - p) ^ 2)%Q) Hrect) as Hloop.
  unfold fitness_function_mse.
  pose proof (toolbox_compile_ok t) as Hcomp.
  unfold toolbox_compile in Hcomp. rewrite Hcomp.
  cbv beta iota delta [rbind] in Hloop |- *.
  rewrite Hloop.
  - unfold truediv_rows.
    destruct (shape0 (training_data config)) as [|k] eqn:E; [lia|].
    eexists. reflexivity.
  - intros row Hin Hrow. specialize (Hlenrow row Hin). subst row.
    simpl in Hlenrow. lia.
  - intros row Hin. simpl.
    assert (Hl : length (row_features row) = n).
    { rewrite length_row_features, (Hlenrow row Hin). reflexivity. }
    rewrite Hl, Nat.eqb_refl. apply eval_expr_closed. rewrite Hl. exact Hc.
Qed.

Lemma wp_toolbox_evaluate r w :
  heap_closed n w ->
  wp (toolbox_evaluate protected_div config r)
     (fun vals w' => w' = w /\ exists v, vals = [v]) w.
Proof.
  intros Hc. unfold toolbox_evaluate. wp_run.
  destruct (fitness_function_mse_total (tree (lookup w r))
              (lookup_closed n w r Hc)) as [v Hv].
  rewrite Hv. rewrite wp_lift_ok. split; [reflexivity|]. exists v. reflexivity.
Qed.

(** Scoring the population: every member receives one weighted fitness
    value; trees and other objects are what they were. *)
Lemma wp_evaluate_all (population : list ref) w :
  heap_closed n w ->
  Forall (fun r => r < length (heap w)) population ->
  wp (evaluate_all protected_div config population)
     (fun _ w' =>
        grows n (fun r => In r population) w w' /\
        length (heap w') = length (heap w) /\
        (forall r, tree (lookup w' r) = tree (lookup w r)) /\
        (forall r, In r population ->
                   exists x, wvalues (lookup w' r) = [x])) w.
Proof.
  intros Hc Hpop. unfold evaluate_all.
  wp_apply (wp_map_M (toolbox_evaluate protected_div config)
              (fun xs ys w' => w' = w /\ length ys = length xs /\
                               Forall (fun vals => exists v : Q, vals = [v]) ys)).
  { intros xs x ys w' _ (-> & Hl & Hys).
    eapply wp_conseq; [apply wp_toolbox_evaluate; exact Hc|].
    cbv beta. intros vals w' (-> & Hv).
    split; [reflexivity|]. split.
    - rewrite !length_app, Hl. reflexivity.
    - apply Forall_app. split; [exact Hys|]. constructor; [exact Hv|constructor]. }
  { split; [reflexivity|]. split; [reflexivity|constructor]. }
  intros fitnesses w0 (-> & Hl & Hfit).
  eapply wp_conseq.
  - apply (wp_for_M (fun (_ : unit) pf => set_fitness_values (fst pf) (snd pf))
             (fun rest _ w' =>
                Forall (fun pf => exists v : Q, snd pf = [v]) rest /\
                Forall (fun pf => In (fst pf) population) rest /\
                grows n (fun r => In r population) w w' /\
                length (heap w') = length (heap w) /\
                (forall r, tree (lookup w' r) = tree (lookup w r)) /\
                (forall r, In r population ->
                           In r (map fst rest) \/
                           exists x, wvalues (lookup w' r) = [x]))).
    + intros [r vals] rest _ w' (Hrest & Hmem & Hg & Hlen & Ht & Hw).
      inversion Hrest as [|? ? [v Hv] Hrest']; subst. simpl in Hv. subst vals.
      inversion Hmem as [|? ? Hin Hmem']; subst. simpl in Hin.
      simpl fst; simpl snd.
      eapply wp_conseq; [apply wp_set_fitness_values|].
      cbv beta. intros _ w'' E. simpl in E.
      assert (Hr : r < length (heap w')).
      { rewrite Hlen. rewrite Forall_forall in Hpop. apply Hpop. exact Hin. }
      split; [exact Hrest'|]. split; [exact Hmem'|].
      split; [|split; [|split]].
      * apply (grows_trans n _ (fun x => In x population) w w' w'' Hg); [|auto].
        apply (grows_store n _ w' w'' r _ E Hin).
        simpl. intros Hc'. apply lookup_closed. exact Hc'.
      * rewrite (length_store _ _ _ _ E). exact Hlen.
      * intros r'. rewrite <- Ht.
        destruct (lookup_store _ _ _ _ r' E) as [->|(-> & _ & ->)]; reflexivity.
      * intros r' Hr'. destruct (Nat.eq_dec r r') as [<-|Hne].
        -- right. rewrite (lookup_store_eq _ _ _ _ E Hr). simpl. eauto.
        -- destruct (Hw r' Hr') as [[H|H]|H].
           ++ simpl in H. congruence.
           ++ left. exact H.
           ++ right. rewrite (lookup_store_neq _ _ _ r' _ E Hne). exact H.
    + split; [|split; [|split; [apply grows_refl|split; [reflexivity|split; [reflexivity|]]]]].
      * apply Forall_forall. intros [r vals] Hin. apply in_combine_r in Hin.
        rewrite Forall_forall in Hfit. apply Hfit. exact Hin.
      * apply Forall_forall. intros [r vals] Hin. apply in_combine_l in Hin.
        exact Hin.
      * intros r Hr. left. rewrite map_fst_combine_le by lia. exact Hr.
  - cbv beta. intros _ w' (_ & _ & Hg & Hlen & Ht & Hw).
    split; [exact Hg|]. split; [exact Hlen|]. split; [exact Ht|].
    intros r Hr. destruct (Hw r Hr) as [[]|H]. exact H.
Qed.

End Evaluation.


(** ** The hall of fame *)

Lemma fitness_gt_singleton (i w : Individual) (x b : Q) :
  wvalues i = [x] -> wvalues w = [b] ->
  fitness_gt i w = true -> (b <= x)%Q.
Proof.
  unfold fitness_gt. intros -> ->. simpl.
  destruct (Qeq_bool x b); [discriminate|].
  unfold Qlt_bool. rewrite negb_involutive.
  intros H. apply Qle_bool_iff. exact H.
Qed.

(** Inserting into an empty hall of fame archives a copy. *)
Lemma wp_hof_insert_empty r w :
  wp (hof_insert (mkHof 1 [] []) r)
     (fun hof' w' =>
        hof' = mkHof 1 [length (heap w)] [length (heap w)] /\
        heap w' = heap w ++ [lookup w r]) w.
Proof.
  unfold hof_insert.
  wp_apply wp_deepcopy. intros c w' (-> & Hh & _). simpl. wp_run.
  split; [reflexivity|exact Hh].
Qed.

Section HallOfFame.

Variable n : nat.

(** The loop of [HallOfFame.update] on an archive of one individual:
    the archive still holds one individual, the same or a copy of a
    strictly better member of the population. *)
Lemma wp_hof_update_loop (population : list ref) h0 w0 :
  h0 < length (heap w0) ->
  (exists a, wvalues (lookup w0 h0) = [a]) ->
  Forall (fun r => r < length (heap w0) /\
                   exists x, wvalues (lookup w0 r) = [x]) population ->
  wp (for_M (fun hof ind =>
               i <- deref ind ;;
               worst <- lift (getitem (items hof) (length (items hof) - 1)) ;;
               w <- deref worst ;;
               if (fitness_gt i w || (length (items hof) <? maxsize hof))
               then
                 hofers <- map_M deref (items hof) ;;
                 if existsb (fun h => expr_eqb (tree i) (tree h)) hofers
                 then ret hof
                 else
                   hof' <- (if (maxsize hof <=? length (items hof))
                            then hof_remove_last hof else ret hof) ;;
                   hof_insert hof' ind
               else ret hof)
            population (mkHof 1 [h0] [h0]))
     (fun hof' w' =>
        exists h',
          hof' = mkHof 1 [h'] [h'] /\
          h' < length (heap w') /\
          grows n (fun _ => False) w0 w' /\
          (exists a b, wvalues (lookup w0 h0) = [a] /\
                       wvalues (lookup w' h') = [b] /\ (a <= b)%Q) /\
          (h' = h0 \/ length (heap w0) <= h')) w0.
Proof.
  intros Hh0 [a0 Ha0] Hpop.
  eapply wp_conseq.
  - apply (wp_for_M _
             (fun rest hof' w' =>
                Forall (fun r => r < length (heap w0) /\
                                 exists x, wvalues (lookup w0 r) = [x]) rest /\
                exists h',
                  hof' = mkHof 1 [h'] [h'] /\
                  h' < length (heap w') /\
                  grows n (fun _ => False) w0 w' /\
                  (exists a b, wvalues (lookup w0 h0) = [a] /\
                               wvalues (lookup w' h') = [b] /\ (a <= b)%Q) /\
                  (h' = h0 \/ length (heap w0) <= h'))).
    + intros ind rest hof' w' (Hrest & hc & -> & Hhc & Hg & (a & b & Ha & Hb & Hab) & Hor).
      inversion Hrest as [|? ? [Hind [x Hx]] Hrest']; subst.
      assert (Hlk : lookup w' ind = lookup w0 ind).
      { apply (grows_lookup n _ w0 w' ind Hg Hind). auto. }
      wp_run. simpl. change (getitem [hc] 0) with (@Ok nat hc). wp_run.
      change (1 <? 1) with false. rewrite orb_false_r.
      destruct (fitness_gt (lookup w' ind) (lookup w' hc)) eqn:Hgt.
      2:{ wp_run. split; [exact Hrest'|]. exists hc. eauto 10. }
      simpl. wp_run.
      match goal with |- context [if ?c then _ else _] => destruct c end.
      { wp_run. split; [exact Hrest'|]. exists hc. eauto 10. }
      unfold hof_remove_last. simpl. wp_run.
      eapply wp_conseq; [apply wp_hof_insert_empty|].
      cbv beta. intros hof'' w'' [-> Hh''].
      split; [exact Hrest'|]. exists (length (heap w')).
      assert (Hg'' : grows n (fun _ : nat => False) w' w'').
      { apply (grows_app n _ w' w'' _ Hh''). intros Hc.
        repeat constructor. apply lookup_closed. exact Hc. }
      split; [reflexivity|]. split; [|split; [|split]].
      * rewrite Hh'', length_app. simpl. lia.
      * apply (grows_trans n _ _ w0 w' w'' Hg Hg''). auto.
      * exists a, x. split; [exact Ha|]. split.
        -- rewrite (lookup_alloc_new w' w'' _ Hh''), Hlk. exact Hx.
        -- apply (Qle_trans _ b); [exact Hab|].
           apply (fitness_gt_singleton (lookup w' ind) (lookup w' hc));
             [rewrite Hlk; exact Hx|exact Hb|exact Hgt].
      * right. apply (grows_length n _ w0 w' Hg).
    + split; [exact Hpop|]. exists h0.
      split; [reflexivity|]. split; [exact Hh0|]. split; [apply grows_refl|].
      split; [|left; reflexivity].
      exists a0, a0. split; [exact Ha0|]. split; [exact Ha0|apply Qle_refl].
  - cbv beta. intros hof' w' (_ & H). exact H.
Qed.

(** [HallOfFame.update] on the archive of the benchmark, empty or
    holding one individual. *)
Lemma wp_hof_update hof (population : list ref) w :
  population <> [] ->
  Forall (fun r => r < length (heap w) /\
                   exists x, wvalues (lookup w r) = [x]) population ->
  (hof = mkHof 1 [] [] \/
   exists h, hof = mkHof 1 [h] [h] /\ h < length (heap w) /\
             exists a, wvalues (lookup w h) = [a]) ->
  wp (hof_update hof population)
     (fun hof' w' =>
        exists h',
          hof' = mkHof 1 [h'] [h'] /\
          h' < length (heap w') /\
          grows n (fun _ => False) w w' /\
          (exists b, wvalues (lookup w' h') = [b] /\
                     forall h, items hof = [h] ->
                               exists a, wvalues (lookup w h) = [a] /\
                                         (a <= b)%Q) /\
          (length (heap w) <= h' \/ items hof = [h'])) w.
Proof.
  intros Hne Hpop Hhof. unfold hof_update.
  destruct Hhof as [->|(h & -> & Hh & a & Ha)].
  - simpl. destruct population as [|first rest]; [congruence|].
    unfold getitem; simpl nth_error. rewrite wp_bind, wp_bind, wp_lift_ok.
    eapply wp_conseq; [apply wp_hof_insert_empty|].
    cbv beta. intros hof0 w0 [-> Hh0].
    assert (Hg0 : grows n (fun _ : nat => False) w w0).
    { apply (grows_app n _ w w0 _ Hh0). intros Hc.
      repeat constructor. apply lookup_closed. exact Hc. }
    assert (Hfirst : exists x, wvalues (lookup w first) = [x]).
    { inversion Hpop as [|? ? [_ H] _]; exact H. }
    destruct Hfirst as [x Hx].
    eapply wp_conseq.
    + apply (wp_hof_update_loop (first :: rest) (length (heap w)) w0).
      * rewrite Hh0, length_app. simpl. lia.
      * exists x. rewrite (lookup_alloc_new w w0 _ Hh0). exact Hx.
      * eapply Forall_impl; [|exact Hpop]. cbv beta.
        intros r [Hr [y Hy]]. split.
        -- pose proof (grows_length n _ w w0 Hg0). lia.
        -- exists y. rewrite (grows_lookup n _ w w0 r Hg0 Hr); auto.
    + cbv beta. intros hof' w' (h' & -> & Hh' & Hg & (a & b & _ & Hb & _) & Hor).
      exists h'. split; [reflexivity|]. split; [exact Hh'|]. split; [|split].
      * apply (grows_trans n _ _ w w0 w' Hg0 Hg). auto.
      * exists b. split; [exact Hb|]. simpl. discriminate.
      * left. pose proof (grows_length n _ w w0 Hg0). lia.
  - simpl. rewrite wp_bind, wp_ret.
    eapply wp_conseq.
    + apply (wp_hof_update_loop population h w Hh); [eauto|exact Hpop].
    + cbv beta. intros hof' w' (h' & -> & Hh' & Hg & (a' & b & Ha' & Hb & Hab) & Hor).
      exists h'. split; [reflexivity|]. split; [exact Hh'|]. split; [exact Hg|].
      split.
      * exists b. split; [exact Hb|]. simpl. intros h1 Hh1.
        inversion Hh1; subst. exists a'. auto.
      * destruct Hor as [->|H]; [right; reflexivity|left; exact H].
Qed.

End HallOfFame.


(** ** One generation *)

Section Generation.

Variable protected_div : Q -> Q -> Q.
Variable config : Config.
Variable time_clock : nat -> Q.
Hypothesis Hvalid : valid_config config.

Let n := arguments (pset config).

(** Evaluation, archive update and statistics of one generation. *)
Lemma wp_evaluate_phase g st w :
  loop_invariant config g st w ->
  wp (evaluate_phase protected_div config (population st) (halloffame st))
     (fun r w1 =>
        let '(hof1, fits, size) := r in
        exists h',
          hof1 = mkHof 1 [h'] [h'] /\
          h' < length (heap w1) /\
          ~ In h' (population st) /\
          heap_closed n w1 /\
          Forall (fun r => r < length (heap w1)) (population st) /\
          (exists b, wvalues (lookup w1 h') = [b] /\
                     forall h, items (halloffame st) = [h] ->
                               exists a, wvalues (lookup w h) = [a] /\
                                         (a <= b)%Q)) w.
Proof.
  intros (Hlen & Hpop & Hclosed & _ & Harch).
  assert (Hne : population st <> []).
  { destruct Hvalid as (Hsize & _). intros E. rewrite E in Hlen.
    simpl in Hlen. lia. }
  unfold evaluate_phase.
  wp_apply (wp_evaluate_all protected_div config Hvalid (population st) w Hclosed Hpop).
  intros _ we (Hge & Hlene & Hte & Hwe).
  assert (Hpope : Forall (fun r => r < length (heap we) /\
                                   exists x, wvalues (lookup we r) = [x])
                         (population st)).
  { apply Forall_forall. intros r Hr. split; [|apply Hwe; exact Hr].
    rewrite Hlene. rewrite Forall_forall in Hpop. apply Hpop. exact Hr. }
  wp_apply (wp_hof_update n (halloffame st) (population st) we Hne Hpope).
  { destruct Harch as [[_ ->]|(_ & h & -> & Hh & Hnin & a & Ha)].
    - left. reflexivity.
    - right. exists h. split; [reflexivity|]. split; [lia|].
      exists a. rewrite (grows_lookup n _ w we h Hge Hh Hnin). exact Ha. }
  intros hof1 w1 (h' & -> & Hh' & Hg1 & (b & Hb & Hmono) & Hor).
  assert (Hlk1 : forall r, r < length (heap we) -> lookup w1 r = lookup we r).
  { intros r Hr. apply (grows_lookup n _ we w1 r Hg1 Hr). auto. }
  wp_apply (wp_map_M _ (fun (xs : list nat) (ys : list Q) w' => w' = w1)).
  { intros xs x ys w' [rest Hrest] ->. wp_run.
    assert (Hx : In x (population st)).
    { rewrite Hrest. apply in_or_app. right. left. reflexivity. }
    rewrite Forall_forall in Hpope. destruct (Hpope x Hx) as [Hxl [v Hv]].
    unfold fitness_values. rewrite (Hlk1 x Hxl), Hv. simpl.
    unfold getitem; simpl. rewrite wp_lift_ok. reflexivity. }
  { reflexivity. }
  intros fits w' ->.
  wp_apply (wp_map_M _ (fun (xs : list nat) (ys : list nat) w' => w' = w1)).
  { intros xs x ys w' _ ->. wp_run. reflexivity. }
  { reflexivity. }
  intros size w' ->. wp_run.
  exists h'. split; [reflexivity|]. split; [exact Hh'|].
  split; [|split; [|split]].
  - intros Hin. destruct Hor as [Hnew|Hold].
    + rewrite Forall_forall in Hpop. specialize (Hpop h' Hin). lia.
    + destruct Harch as [[_ E]|(_ & h & E & _ & Hnin & _)];
        rewrite E in Hold; simpl in Hold; [discriminate|].
      inversion Hold; subst. contradiction.
  - apply (grows_closed n _ we w1 Hg1).
    apply (grows_closed n _ w we Hge). exact Hclosed.
  - eapply Forall_impl; [|exact Hpop]. cbv beta. intros r Hr.
    pose proof (grows_length n _ we w1 Hg1). lia.
  - exists b. split; [exact Hb|]. intros h Hh.
    destruct (Hmono h Hh) as (a & Ha & Hab). exists a. split; [|exact Hab].
    destruct Harch as [[_ E]|(_ & h0 & E & Hh0 & Hnin & _)];
      rewrite E in Hh; simpl in Hh; [discriminate|].
    inversion Hh; subst.
    rewrite <- (grows_lookup n _ w we h Hge Hh0 Hnin). exact Ha.
Qed.

(** One turn of the loop over the generations, with its two phases. *)
Lemma generation_step_spec g st w :
  loop_invariant config g st w ->
  exists hof1 fits size w1 next_gen w2 h' record,
    evaluate_phase protected_div config (population st) (halloffame st) w
    = Ok ((hof1, fits, size), w1) /\
    variation_phase config (population st) w1 = Ok (next_gen, w2) /\
    generation_step protected_div config time_clock st g w
    = Ok (mkState next_gen hof1 (statistics st ++ [record]), w2) /\
    generation record = g /\
    hof1 = mkHof 1 [h'] [h'] /\
    h' < length (heap w1) /\
    lookup w2 h' = lookup w1 h' /\
    ~ In h' next_gen /\
    (exists b, wvalues (lookup w1 h') = [b] /\
               forall h, items (halloffame st) = [h] ->
                         exists a, wvalues (lookup w h) = [a] /\ (a <= b)%Q) /\
    loop_invariant config (S g)
                   (mkState next_gen hof1 (statistics st ++ [record])) w2.
Proof.
  intros Hinv.
  destruct (wp_ok _ _ _ (wp_evaluate_phase g st w Hinv))
    as ([[hof1 fits] size] & w1 & Heval & h' & -> & Hh' & Hnin & Hc1 & Hpop1 & Hmono).
  destruct Hinv as (Hlen & Hpop & Hclosed & Hstats & Harch).
  assert (Hne : population st <> []).
  { destruct Hvalid as (Hsize & _). intros E. rewrite E in Hlen.
    simpl in Hlen. lia. }
  destruct (wp_ok _ _ _ (wp_variation_phase config (population st) w1 Hne Hpop1))
    as (next_gen & w2 & Hvar & Hlng & Hrng & Hg2).
  assert (Hlk : lookup w2 h' = lookup w1 h').
  { apply (grows_lookup n _ w1 w2 h' Hg2 Hh'). lia. }
  exists (mkHof 1 [h'] [h']), fits, size, w1, next_gen, w2, h'.
  eexists.
  split; [exact Heval|]. split; [exact Hvar|].
  split; [|split; [|split; [reflexivity|split; [exact Hh'|split; [exact Hlk|split; [|split; [exact Hmono|]]]]]]].
  - unfold generation_step, bind. rewrite Heval, Hvar. simpl.
    unfold lookup in Hlk. rewrite (toolbox_compile_ok protected_div config Hvalid).
    simpl. reflexivity.
  - reflexivity.
  - intros Hin. rewrite Forall_forall in Hrng.
    destruct (Hrng h' Hin) as [H _]. lia.
  - split; [exact Hlng|]. split; [|split; [|split]].
    + eapply Forall_impl; [|exact Hrng]. intros r [_ Hr]. exact Hr.
    + apply (grows_closed n _ w1 w2 Hg2 Hc1).
    + cbn [statistics]. rewrite map_app, Hstats, seq_S. reflexivity.
    + right. split; [lia|]. exists h'. simpl.
      split; [reflexivity|]. split; [|split].
      * pose proof (grows_length n _ w1 w2 Hg2). lia.
      * intros Hin. rewrite Forall_forall in Hrng.
        destruct (Hrng h' Hin) as [H _]. lia.
      * destruct Hmono as (b & Hb & _). exists b. rewrite Hlk. exact Hb.
Qed.

End Generation.


(** ** The loop over the generations *)

Lemma for_M_snoc {A S} (body : S -> A -> M S) (l : list A) (x : A) :
  forall acc w,
    for_M body (l ++ [x]) acc w
    = bind (for_M body l acc) (fun acc' => body acc' x) w.
Proof.
  induction l as [|y l IH]; intros acc w; simpl.
  - unfold bind, ret. destruct (body acc x w) as [[a w']|e]; reflexivity.
  - unfold bind. destruct (body acc y w) as [[a w']|e]; [|reflexivity].
    rewrite IH. reflexivity.
Qed.

Section Run.

Variable protected_div : Q -> Q -> Q.
Variable config : Config.
Variable time_clock : nat -> Q.

Let n := arguments (pset config).

Lemma run_generations_S g w :
  run_generations protected_div config time_clock (S g) w
  = bind (run_generations protected_div config time_clock g)
         (fun st => generation_step protected_div config time_clock st g) w.
Proof.
  unfold run_generations. rewrite seq_S. simpl.
  unfold bind.
  destruct (initial_state config w) as [[st w']|e]; [|reflexivity].
  rewrite for_M_snoc. reflexivity.
Qed.

(** The initial population: [k] new individuals. *)
Lemma wp_toolbox_population k w :
  heap_closed n w ->
  wp (toolbox_population config k)
     (fun pop w' =>
        length pop = k /\
        Forall (fun r => r < length (heap w')) pop /\
        heap_closed n w') w.
Proof.
  intros Hc. unfold toolbox_population, repeat_M.
  eapply wp_conseq.
  - apply (wp_map_M (fun _ : nat => toolbox_individual config)
             (fun xs ys w' =>
                length ys = length xs /\
                Forall (fun r => r < length (heap w')) ys /\
                heap_closed n w')).
    + intros xs x ys w' _ (Hl & Hys & Hc').
      unfold toolbox_individual, toolbox_expr.
      wp_apply (wp_genHalfAndHalf (pset config) (randomTerm_value config)
                  (wp_randomTerm_value config) 1 2 w'); [lia|].
      intros t w1 (Hh1 & Hct & _). wp_run.
      split; [rewrite !length_app, Hl; reflexivity|]. split.
      * apply Forall_app. split.
        -- eapply Forall_impl; [|exact Hys]. cbv beta. intros r Hr.
           rewrite length_app, Hh1. simpl. lia.
        -- constructor; [|constructor]. rewrite length_app. simpl. lia.
      * unfold heap_closed in *. simpl. rewrite Hh1.
        apply Forall_app. split; [exact Hc'|]. constructor; [exact Hct|constructor].
    + split; [reflexivity|]. split; [constructor|exact Hc].
  - cbv beta. intros pop w' (Hl & Hpop & Hc'). rewrite length_seq in Hl. auto.
Qed.

Hypothesis Hvalid : valid_config config.

(** From a heap the trees of which are over the arguments of the primitive
    set, every generation boundary is reached, and the invariant of the
    loop holds there. *)
Lemma run_generations_invariant g :
  forall w, heap_closed n w ->
    exists st w',
      run_generations protected_div config time_clock g w = Ok (st, w') /\
      loop_invariant config g st w'.
Proof.
  induction g as [|g IH]; intros w Hc.
  - unfold run_generations, initial_state. simpl.
    destruct (wp_ok _ _ _ (wp_toolbox_population (size_population config) w Hc))
      as (pop & w' & Hpop & Hl & Hr & Hc').
    exists (mkState pop (mkHof 1 [] []) []), w'.
    split.
    + unfold bind, ret. rewrite Hpop. reflexivity.
    + split; [exact Hl|]. split; [exact Hr|]. split; [exact Hc'|].
      split; [reflexivity|]. left. split; reflexivity.
  - destruct (IH w Hc) as (st & w' & Hrun & Hinv).
    destruct (generation_step_spec protected_div config time_clock Hvalid g st w' Hinv)
      as (hof1 & fits & size & w1 & ng & w2 & h' & record & _ & _ & Hstep & _ & _ & _ & _ & _ & _ & Hinv').
    eexists. exists w2. split; [|exact Hinv'].
    rewrite run_generations_S. unfold bind. rewrite Hrun. exact Hstep.
Qed.

End Run.


(** ** The unpaired offspring of an odd population *)

Section LastOffspring.

Variable config : Config.

Let n := arguments (pset config).
Let size := size_population config.

Hypothesis Hodd : Nat.odd size = true.

(** When the last offspring is an object of its own, the crossover loop
    leaves it where it is and as it is. *)
Lemma wp_crossover_loop_last (next_gen : list ref) w :
  length next_gen = size ->
  Forall (fun r => r < length (heap w)) next_gen ->
  (forall k, k < size - 1 -> nth k next_gen 0 <> nth (size - 1) next_gen 0) ->
  wp (crossover_loop config next_gen)
     (fun next_gen' w' =>
        length next_gen' = length next_gen /\
        nth (size - 1) next_gen' 0 = nth (size - 1) next_gen 0 /\
        lookup w' (nth (size - 1) next_gen 0)
        = lookup w (nth (size - 1) next_gen 0)) w.
Proof.
  intros Hlen Hvalid Hdistinct. unfold crossover_loop. fold size.
  set (m := size - 1) in *. set (z := nth m next_gen 0) in *.
  assert (Hm : m < size).
  { apply Nat.odd_spec in Hodd. destruct Hodd as [j Hj]. unfold m. lia. }
  eapply wp_conseq.
  - apply (wp_for_M (crossover_step config)
             (fun rest ng' w' =>
                Forall (fun i => 1 <= i /\ i + 1 < size) rest /\
                length ng' = size /\
                Forall (fun r => r < length (heap w')) ng' /\
                nth m ng' 0 = z /\
                (forall k, k < m -> nth k ng' 0 <> z) /\
                lookup w' z = lookup w z /\
                z < length (heap w'))).
    + intros i rest ng' w' (Hrest & Hl & Hv & Hz & Hd & Hlk & Hzl).
      inversion Hrest as [|? ? [Hi1 Hi2] Hrest']; subst.
      assert (Ha : nth (i - 1) ng' 0 < length (heap w'))
        by (apply Forall_nth_default; [exact Hv|lia]).
      assert (Hb : nth i ng' 0 < length (heap w'))
        by (apply Forall_nth_default; [exact Hv|lia]).
      assert (Haz : nth (i - 1) ng' 0 <> z) by (apply Hd; unfold m; lia).
      assert (Hbz : nth i ng' 0 <> z) by (apply Hd; unfold m; lia).
      eapply wp_conseq; [apply (wp_crossover_step config ng' i w'); [lia|exact Ha|exact Hb]|].
      cbv beta zeta.
      intros ng'' w'' [(_ & -> & Hh)|(_ & c1 & c2 & -> & Hlen'' & Hg'' & _ & _ & _ & _ & Hl1 & Hl2)].
      * split; [exact Hrest'|]. split; [exact Hl|]. rewrite Hh.
        split; [exact Hv|]. split; [exact Hz|]. split; [exact Hd|].
        split; [|exact Hzl]. rewrite (lookup_same_heap w' w'' z Hh). exact Hlk.
      * assert (Hc : forall o c,
                   o <> z -> o < length (heap w') ->
                   limited (max_height config)
                           [length (heap w'); length (heap w') + 1] w'' o c ->
                   c <> z /\ c < length (heap w'')).
        { intros o c Ho Hol [[-> _]|[_ [<-|[<-|[]]]]]; lia. }
        destruct (Hc _ _ Haz Ha Hl1) as [Hc1z Hc1l].
        destruct (Hc _ _ Hbz Hb Hl2) as [Hc2z Hc2l].
        split; [exact Hrest'|].
        split; [rewrite !length_update_nth; exact Hl|].
        split; [|split; [|split; [|split]]].
        -- apply Forall_update_nth; [apply Forall_update_nth|]; auto.
           eapply Forall_impl; [|exact Hv]. cbv beta. intros r Hr. lia.
        -- rewrite !nth_update_nth_neq by (unfold m; lia). exact Hz.
        -- intros k Hk.
           destruct (Nat.eq_dec k i) as [->|Hki].
           { rewrite nth_update_nth_eq by (rewrite length_update_nth; lia).
             exact Hc2z. }
           rewrite nth_update_nth_neq by lia.
           destruct (Nat.eq_dec k (i - 1)) as [->|Hki'].
           { rewrite nth_update_nth_eq by lia. exact Hc1z. }
           rewrite nth_update_nth_neq by lia. apply Hd. exact Hk.
        -- rewrite <- Hlk. apply (grows_lookup n _ w' w'' z Hg'' Hzl).
           intros [H|H]; congruence.
        -- lia.
    + split.
      * apply Forall_forall. intros i Hi.
        destruct (py_range_1_2 size i Hi) as [H1 H2]. split; [lia|auto].
      * split; [exact Hlen|]. split; [exact Hvalid|].
        split; [reflexivity|]. split; [exact Hdistinct|].
        split; [reflexivity|].
        apply Forall_nth_default; [exact Hvalid|lia].
  - cbv beta. intros ng' w' (_ & Hl & _ & Hz & _ & Hlk & _).
    split; [lia|]. split; [exact Hz|exact Hlk].
Qed.

End LastOffspring.

(** C10. In a population of odd size the crossover loop visits the pairs
    of indices (0,1), (2,3), ... only: in every generation, whatever the
    population and the draws, the last clone is still the last offspring
    after the loop, and it is the object it was, tree and fitness. *)
Theorem last_offspring_of_odd_population_is_not_mated
        (config : Config) (population : list ref) (w : world) :
  Nat.odd (size_population config) = true ->
  population <> [] ->
  Forall (fun r => r < length (heap w)) population ->
  exists selected w1 clones w2 next_gen w3,
    toolbox_select population (size_population config) w = Ok (selected, w1) /\
    map_M toolbox_clone selected w1 = Ok (clones, w2) /\
    crossover_loop config clones w2 = Ok (next_gen, w3) /\
    Forall (fun i => 1 <= i /\ i + 1 < size_population config)
           (py_range 1 (size_population config) 2) /\
    length next_gen = size_population config /\
    nth (size_population config - 1) next_gen 0
    = nth (size_population config - 1) clones 0 /\
    lookup w3 (nth (size_population config - 1) clones 0)
    = lookup w2 (nth (size_population config - 1) clones 0).
Proof.
  intros Hodd Hne Hpop.
  destruct (wp_ok _ _ _ (wp_selTournament 3 population (size_population config)
                           w Hne (Nat.lt_0_succ 2)))
    as (sel & w1 & Hsel & Hh1 & Hlsel & Hin).
  assert (Hsel1 : Forall (fun r => r < length (heap w1)) sel).
  { rewrite Hh1. eapply Forall_impl; [|exact Hin].
    rewrite Forall_forall in Hpop. exact Hpop. }
  destruct (wp_ok _ _ _ (wp_map_deepcopy sel w1 Hsel1))
    as (clones & w2 & Hclone & Hclones & Hh2 & _).
  assert (Hlen : length clones = size_population config)
    by (rewrite Hclones, length_seq; exact Hlsel).
  assert (Hsize : 0 < size_population config).
  { apply Nat.odd_spec in Hodd. destruct Hodd as [j Hj]. lia. }
  assert (Hnth : forall k, k < size_population config ->
                           nth k clones 0 = length (heap w1) + k).
  { intros k Hk. rewrite Hclones. apply seq_nth. lia. }
  assert (Hv2 : Forall (fun r => r < length (heap w2)) clones).
  { rewrite Hclones. apply Forall_forall. intros r Hr. apply in_seq in Hr.
    rewrite Hh2, length_app, length_map. lia. }
  assert (Hd : forall k, k < size_population config - 1 ->
                         nth k clones 0
                         <> nth (size_population config - 1) clones 0).
  { intros k Hk. rewrite !Hnth by lia. lia. }
  destruct (wp_ok _ _ _ (wp_crossover_loop_last config Hodd clones w2 Hlen
                           Hv2 Hd))
    as (ng & w3 & Hloop & Hlng & Hlast & Hlk).
  exists sel, w1, clones, w2, ng, w3.
  split; [exact Hsel|]. split; [exact Hclone|]. split; [exact Hloop|].
  split; [|split; [lia|split; [exact Hlast|exact Hlk]]].
  apply Forall_forall. intros i Hi.
  destruct (py_range_1_2 _ i Hi) as [H1 H2]. split; [lia|auto].
Qed.

Lemma last_offspring_of_odd_population_is_not_mated_witness :
  exists selected w1 clones w2 next_gen w3,
    toolbox_select [0; 1; 2] 3 world_trio = Ok (selected, w1) /\
    map_M toolbox_clone selected w1 = Ok (clones, w2) /\
    crossover_loop config_three clones w2 = Ok (next_gen, w3) /\
    Forall (fun i => 1 <= i /\ i + 1 < 3) (py_range 1 3 2) /\
    length next_gen = 3 /\
    nth 2 next_gen 0 = nth 2 clones 0 /\
    lookup w3 (nth 2 clones 0) = lookup w2 (nth 2 clones 0).
Proof.
  apply (last_offspring_of_odd_population_is_not_mated
           config_three [0; 1; 2] world_trio).
  - reflexivity.
  - discriminate.
  - repeat constructor.
Defined.


(** ** The run *)

Lemma heap_closed_nil n py np : heap_closed n (mkWorld py np []).
Proof. constructor. Qed.

(** C4. On a valid configuration, from any state of the two random
    generators, every generation boundary is reached and the population
    there has exactly [size_population] members. *)
Theorem population_size_invariant
        (protected_div : Q -> Q -> Q) (config : Config)
        (time_clock : nat -> Q) (py np : rng) (g : nat) :
  valid_config config ->
  exists st w',
    run_generations protected_div config time_clock g (mkWorld py np [])
    = Ok (st, w') /\
    length (population st) = size_population config.
Proof.
  intros Hvalid.
  destruct (run_generations_invariant protected_div config time_clock Hvalid g
              (mkWorld py np []) (heap_closed_nil _ py np))
    as (st & w' & Hrun & Hlen & _).
  exists st, w'. split; [exact Hrun|exact Hlen].
Qed.

Lemma population_size_invariant_witness :
  exists st w',
    run_generations sample_division config_three sample_clock 2 world_three
    = Ok (st, w') /\
    length (population st) = 3.
Proof.
  apply (population_size_invariant sample_division config_three sample_clock
           (py_random world_three) (np_random world_three) 2).
  unfold valid_config, rectangular, shape0, shape1; simpl.
  repeat split; try lia; repeat constructor.
Defined.

(** Fitness values are the weighted values divided by the weight -1:
    a greater weighted value is a smaller fitness value. *)
Lemma fitness_values_singleton ind a :
  wvalues ind = [a] -> fitness_values ind = [(a / -(1))%Q].
Proof. unfold fitness_values. intros ->. reflexivity. Qed.

Lemma Qdiv_minus_one_le a b : (a <= b)%Q -> (b / -(1) <= a / -(1))%Q.
Proof.
  unfold Qle, Qdiv, Qmult, Qinv. simpl. rewrite !Pos.mul_1_r. lia.
Qed.



(** ** The initial population *)

Lemma len_height_bound (t : expr) : len t + 1 <= 2 ^ S (height t).
Proof.
  induction t as [i|c|p a IHa b IHb]; simpl; try lia.
  assert (Ha : 2 ^ S (height a) <= 2 ^ S (Nat.max (height a) (height b)))
    by (apply Nat.pow_le_mono_r; lia).
  assert (Hb : 2 ^ S (height b) <= 2 ^ S (Nat.max (height a) (height b)))
    by (apply Nat.pow_le_mono_r; lia).
  simpl in Ha, Hb, IHa, IHb. lia.
Qed.

Lemma height_pos_len (t : expr) : 1 <= height t -> 3 <= len t.
Proof.
  destruct t as [i|c|p a b]; simpl; try lia.
  intros _. pose proof (len_pos a). pose proof (len_pos b). lia.
Qed.

Section GenerateRoot.

Variable pset : PrimitiveSet.
Variable ephemeral : M Q.
Hypothesis ephemeral_heap :
  forall w, wp ephemeral (fun _ w' => heap w' = heap w) w.

(** With a minimal height of at least 1 the root is a primitive, whatever
    the method. *)
Lemma wp_generate_root m min_ max_ w :
  1 <= min_ <= max_ ->
  wp (generate pset ephemeral m min_ max_)
     (fun t w' => heap w' = heap w /\ closed (arguments pset) t /\
                  1 <= height t <= max_) w.
Proof.
  intros Hmm. unfold generate.
  wp_apply wp_random_randint; [lia|].
  intros h w' [Hh Hr].
  destruct h as [|r]; [lia|]. cbn [generate_node].
  assert (Hcond : forall (Q : bool -> world -> Prop),
             Q false w' -> wp (condition pset m min_ (S r) 0) Q w').
  { intros Q HQ. unfold condition. destruct m.
    - cbn [Nat.eqb]. destruct min_ as [|k]; [lia|]. cbn [Nat.leb].
      rewrite wp_ret. exact HQ.
    - cbn [Nat.eqb]. rewrite wp_ret. exact HQ. }
  rewrite wp_bind. apply Hcond.
  wp_apply (@wp_random_choice primitive); [discriminate|].
  intros prim w1 [Hh1 _].
  wp_apply (wp_generate_node pset ephemeral ephemeral_heap m min_ (S r) r 1 w1);
    [lia|].
  intros a w2 (Hh2 & Hca & Hha & _).
  wp_apply (wp_generate_node pset ephemeral ephemeral_heap m min_ (S r) r 1 w2);
    [lia|].
  intros b w3 (Hh3 & Hcb & Hhb & _).
  wp_run. simpl. repeat split; auto; try congruence; lia.
Qed.

Lemma wp_genHalfAndHalf_root min_ max_ w :
  1 <= min_ <= max_ ->
  wp (genHalfAndHalf pset ephemeral min_ max_)
     (fun t w' => heap w' = heap w /\ closed (arguments pset) t /\
                  1 <= height t <= max_) w.
Proof.
  intros Hmm. unfold genHalfAndHalf.
  wp_apply (@wp_random_choice method); [discriminate|].
  intros m w' [Hh _].
  eapply wp_conseq; [apply wp_generate_root; exact Hmm|].
  cbv beta. intros t w'' (Hh' & Hc & Hht). repeat split; auto; try congruence; lia.
Qed.

End GenerateRoot.

Lemma wp_toolbox_population_fresh config k w :
  wp (toolbox_population config k)
     (fun pop w' =>
        pop = seq (length (heap w)) k /\
        exists news,
          heap w' = heap w ++ news /\ length news = k /\
          Forall (fresh_individual (arguments (pset config))) news) w.
Proof.
  unfold toolbox_population, repeat_M.
  eapply wp_conseq.
  - apply (wp_map_M (fun _ : nat => toolbox_individual config)
             (fun xs ys w' =>
                ys = seq (length (heap w)) (length xs) /\
                exists news,
                  heap w' = heap w ++ news /\ length news = length xs /\
                  Forall (fresh_individual (arguments (pset config))) news)).
    + intros xs x ys w' _ (Hys & news & Hh & Hl & Hnews).
      unfold toolbox_individual, toolbox_expr.
      wp_apply (wp_genHalfAndHalf_root (pset config) (randomTerm_value config)
                  (wp_randomTerm_value config) 1 2 w'); [lia|].
      intros t w1 (Hh1 & Hct & Hht). wp_run.
      split.
      * rewrite Hh1, Hh, !length_app, Hl, Hys. simpl.
        rewrite seq_app. reflexivity.
      * exists (news ++ [mkInd t []]). split; [|split].
        -- rewrite Hh1, Hh, app_assoc. reflexivity.
        -- rewrite !length_app, Hl. reflexivity.
        -- apply Forall_app. split; [exact Hnews|].
           constructor; [|constructor].
           unfold fresh_individual. simpl.
           pose proof (len_height_bound t) as Hb.
           pose proof (height_pos_len t) as Hp.
           assert (Hpow : 2 ^ S (height t) <= 2 ^ 3)
             by (apply Nat.pow_le_mono_r; lia).
           change (2 ^ 3) with 8 in Hpow.
           repeat split; auto; lia.
    + split; [reflexivity|]. exists []. rewrite app_nil_r.
      repeat split. constructor.
  - cbv beta. intros pop w' (Hpop & news & Hh & Hl & Hnews).
    rewrite length_seq in *. split; [exact Hpop|]. exists news. auto.
Qed.



(** ** The end of a run *)

Section EndOfRun.

Variable protected_div : Q -> Q -> Q.
Variable config : Config.
Variable time_clock : nat -> Q.

(** The initial state is always built: no generation, no record. *)
Lemma run_generations_0 w :
  exists st w',
    run_generations protected_div config time_clock 0 w = Ok (st, w') /\
    statistics st = [].
Proof.
  destruct (wp_ok _ _ _ (wp_toolbox_population_fresh
                           config (size_population config) w))
    as (pop & w' & Hrun & _).
  exists (mkState pop (mkHof 1 [] []) []), w'. split; [|reflexivity].
  unfold run_generations, initial_state, bind. rewrite Hrun. reflexivity.
Qed.

(** A turn of the loop that returns has appended one record, numbered by
    the generation. *)
Lemma generation_step_appends st g w st' w' :
  generation_step protected_div config time_clock st g w = Ok (st', w') ->
  exists record,
    statistics st' = statistics st ++ [record] /\ generation record = g.
Proof.
  unfold generation_step, bind.
  destruct (evaluate_phase protected_div config (population st)
              (halloffame st) w) as [[[[hof fits] size] w1]|e];
    [|discriminate].
  destruct (variation_phase config (population st) w1) as [[next_gen w2]|e];
    [|discriminate].
  destruct (lift (getitem (items hof) 0) w2) as [[best_ref w3]|e];
    [|discriminate].
  destruct (deref best_ref w3) as [[best_ind w4]|e]; [|discriminate].
  destruct (lift (toolbox_compile protected_div config (tree best_ind)) w4)
    as [[func w5]|e]; [|discriminate].
  unfold ret. intros H. inversion H; subst. cbn [statistics].
  eexists. split; reflexivity.
Qed.

(** The loop leaves by its last turn or by an exception raised in a turn:
    after [g] turns there are [g] records, numbered in order, unless a turn
    before raised. *)
Lemma run_generations_or_raise g :
  forall w,
    (exists st w',
        run_generations protected_div config time_clock g w = Ok (st, w') /\
        map generation (statistics st) = seq 0 g) \/
    (exists g0 st0 w0 e,
        g0 < g /\
        run_generations protected_div config time_clock g0 w = Ok (st0, w0) /\
        map generation (statistics st0) = seq 0 g0 /\
        generation_step protected_div config time_clock st0 g0 w0 = Raise e /\
        run_generations protected_div config time_clock g w = Raise e).
Proof.
  induction g as [|g IH]; intros w.
  - left. destruct (run_generations_0 w) as (st & w' & Hrun & Hstats).
    exists st, w'. split; [exact Hrun|]. rewrite Hstats. reflexivity.
  - destruct (IH w) as [(st & w' & Hrun & Hstats)
                       |(g0 & st0 & w0 & e & Hg0 & Hrun0 & Hstats0 & Hstep & Hrun)].
    + destruct (generation_step protected_div config time_clock st g w')
        as [[st' w'']|e] eqn:Hstep.
      * left. exists st', w''. split.
        -- rewrite run_generations_S. unfold bind. rewrite Hrun. exact Hstep.
        -- destruct (generation_step_appends st g w' st' w'' Hstep)
             as (record & -> & Hgen).
           rewrite map_app, Hstats, seq_S. cbn [map Nat.add]. rewrite Hgen.
           reflexivity.
      * right. exists g, st, w', e. split; [lia|]. split; [exact Hrun|].
        split; [exact Hstats|]. split; [exact Hstep|].
        rewrite run_generations_S. unfold bind. rewrite Hrun. exact Hstep.
    + right. exists g0, st0, w0, e. split; [lia|]. split; [exact Hrun0|].
      split; [exact Hstats0|]. split; [exact Hstep|].
      rewrite run_generations_S. unfold bind. rewrite Hrun. reflexivity.
Qed.

End EndOfRun.

(** C8, as the code has it. The loop has no early-stopping condition, but
    an exception ends the run. For every configuration and every state of
    the generators and the heap, either [execute_algorithm] returns, after
    exactly [num_generations] turns of the loop, numbered
    [0 .. num_generations - 1] in order and each appending one record, the
    list of statistics, the final population and the hall of fame of the
    state the last turn leaves; or some turn [g] of the loop, reached
    after [g] turns that appended [g] records, raises an exception, and
    the run ends in that exception. *)
Theorem execute_algorithm_runs_every_generation
        (protected_div : Q -> Q -> Q) (config : Config)
        (time_clock : nat -> Q) (w : world) :
  (exists stats pop hof w',
      execute_algorithm protected_div config time_clock w
      = Ok ((stats, pop, hof), w') /\
      length stats = num_generations config /\
      map generation stats = seq 0 (num_generations config) /\
      run_generations protected_div config time_clock (num_generations config)
                      w
      = Ok (mkState pop hof stats, w')) \/
  (exists g st wg e,
      g < num_generations config /\
      run_generations protected_div config time_clock g w = Ok (st, wg) /\
      length (statistics st) = g /\
      map generation (statistics st) = seq 0 g /\
      generation_step protected_div config time_clock st g wg = Raise e /\
      execute_algorithm protected_div config time_clock w = Raise e).
Proof.
  destruct (run_generations_or_raise protected_div config time_clock
              (num_generations config) w)
    as [([pop hof stats] & w' & Hrun & Hstats)
       |(g & st & wg & e & Hg & Hrun0 & Hstats0 & Hstep & Hrun)].
  - left. exists stats, pop, hof, w'. cbn [statistics] in Hstats.
    split; [|split; [|split; [exact Hstats|exact Hrun]]].
    + unfold execute_algorithm, bind. rewrite Hrun. reflexivity.
    + rewrite <- (length_map generation), Hstats. apply length_seq.
  - right. exists g, st, wg, e. split; [exact Hg|]. split; [exact Hrun0|].
    split; [|split; [exact Hstats0|split; [exact Hstep|]]].
    + rewrite <- (length_map generation), Hstats0. apply length_seq.
    + unfold execute_algorithm, bind. rewrite Hrun. reflexivity.
Qed.

(** C8, as stated, fails: with two generations to run, a population of
    three and a training dataset without rows, the first evaluation of the
    first generation divides by the number of rows and the run ends in
    ZeroDivisionError, with no record and nothing returned. *)
Lemma run_on_no_rows_stops_in_the_first_generation :
  0 < num_generations (mkConfig 3 2 (1 # 2) (1 # 2) 2 (-(1)) 1 empty_dataset) /\
  execute_algorithm sample_division
    (mkConfig 3 2 (1 # 2) (1 # 2) 2 (-(1)) 1 empty_dataset)
    sample_clock world_three
  = Raise ZeroDivisionError /\
  exists st w,
    run_generations sample_division
      (mkConfig 3 2 (1 # 2) (1 # 2) 2 (-(1)) 1 empty_dataset)
      sample_clock 0 world_three
    = Ok (st, w) /\
    statistics st = [] /\
    generation_step sample_division
      (mkConfig 3 2 (1 # 2) (1 # 2) 2 (-(1)) 1 empty_dataset)
      sample_clock st 0 w
    = Raise ZeroDivisionError.
Proof.
  split; [simpl; lia|]. split; [vm_compute; reflexivity|].
  eexists. eexists. split; [vm_compute; reflexivity|].
  split; [reflexivity|]. vm_compute. reflexivity.
Qed.


(** ** The hall of fame and NaN *)

Section FloatArchive.

Import Float.

Let update_body (hof : HallOfFame) (ind : Individual) : result HallOfFame :=
  let? worst := getitem (items hof) (length (items hof) - 1) in
  if (fitness_gt ind worst || (length (items hof) <? maxsize hof))
  then
    if existsb (fun h => expr_eqb (tree ind) (tree h)) (items hof)
    then Ok hof
    else
      let? hof' := (if (maxsize hof <=? length (items hof))
                    then hof_remove_last hof else Ok hof) in
      Ok (hof_insert hof' ind)
  else Ok hof.

Lemma fitness_gt_numbers (i w : Individual) (x b : Q) :
  wvalues i = [Number x] -> wvalues w = [Number b] ->
  fitness_gt i w = true -> (b <= x)%Q.
Proof.
  unfold fitness_gt. intros -> ->. cbn [tuple_le float_same float_le].
  destruct (Qeq_bool x b); [discriminate|].
  rewrite negb_true_iff. intros H.
  destruct (Qlt_le_dec x b) as [Hlt|Hle]; [|exact Hle].
  apply Qlt_le_weak in Hlt. apply Qle_bool_iff in Hlt.
  rewrite Hlt in H. discriminate.
Qed.

(** One turn of the loop of [HallOfFame.update] on an archive of one
    individual, when both fitnesses are numbers: the archive holds the
    same individual, or the new one, which is then strictly better. *)
Lemma update_body_numbers (h ind : Individual) (a x : Q) :
  wvalues h = [Number a] -> wvalues ind = [Number x] ->
  exists h1 a1,
    update_body (mkHof 1 [wvalues h] [h]) ind
    = Ok (mkHof 1 [wvalues h1] [h1]) /\
    wvalues h1 = [Number a1] /\ (a <= a1)%Q /\ (h1 = h \/ h1 = ind).
Proof.
  intros Ha Hx. unfold update_body.
  cbn [items maxsize length Nat.sub getitem nth_error rbind].
  change (1 <? 1) with false. rewrite orb_false_r.
  destruct (fitness_gt ind h) eqn:Hgt.
  - cbn [existsb]. rewrite orb_false_r.
    destruct (expr_eqb (tree ind) (tree h)).
    + exists h, a. split; [reflexivity|]. split; [exact Ha|].
      split; [apply Qle_refl|left; reflexivity].
    + change (1 <=? 1) with true. cbn [hof_remove_last items rbind].
      exists ind, x. split; [reflexivity|]. split; [exact Hx|].
      split; [|right; reflexivity].
      apply (fitness_gt_numbers ind h x a Hx Ha Hgt).
  - exists h, a. split; [reflexivity|]. split; [exact Ha|].
    split; [apply Qle_refl|left; reflexivity].
Qed.

Lemma for_acc_cons {A B} (body : B -> A -> result B) (x : A) (l : list A)
      (acc : B) :
  for_acc body (x :: l) acc = let? acc' := body acc x in for_acc body l acc'.
Proof. reflexivity. Qed.

(** The loop of [HallOfFame.update] on an archive of one individual, when
    every fitness is a number: the archive still holds one individual, the
    same or a strictly better member of the population. *)
Lemma update_loop_numbers (population : list Individual) :
  Forall scored_with_a_number population ->
  forall h a,
    wvalues h = [Number a] ->
    exists h' a',
      for_acc update_body population (mkHof 1 [wvalues h] [h])
      = Ok (mkHof 1 [wvalues h'] [h']) /\
      wvalues h' = [Number a'] /\ (a <= a')%Q /\
      (h' = h \/ In h' population).
Proof.
  induction 1 as [|ind l [x Hx] _ IH]; intros h a Ha.
  - exists h, a. split; [reflexivity|]. split; [exact Ha|].
    split; [apply Qle_refl|left; reflexivity].
  - rewrite for_acc_cons.
    destruct (update_body_numbers h ind a x Ha Hx)
      as (h1 & a1 & Hstep & Ha1 & Hle1 & Hor).
    rewrite Hstep. cbn [rbind].
    destruct (IH h1 a1 Ha1) as (h' & a' & Hrun & Ha' & Hle & Hin).
    exists h', a'. split; [exact Hrun|]. split; [exact Ha'|].
    split; [apply (Qle_trans _ a1); assumption|].
    destruct Hin as [->|Hin]; [|right; right; exact Hin].
    destruct Hor as [->| ->]; [left; reflexivity|right; left; reflexivity].
Qed.

Lemma update_numbers (h : Individual) (population : list Individual) :
  scored_with_a_number h ->
  Forall scored_with_a_number population ->
  exists h' v v',
    hof_update (mkHof 1 [wvalues h] [h]) population
    = Ok (mkHof 1 [wvalues h'] [h']) /\
    fitness_values h = [Number v] /\
    fitness_values h' = [Number v'] /\
    (v' <= v)%Q /\
    (h' = h \/ In h' population).
Proof.
  intros [a Ha] Hpop.
  destruct (update_loop_numbers population Hpop h a Ha)
    as (h' & a' & Hrun & Ha' & Hle & Hin).
  exists h', (a / -(1))%Q, (a' / -(1))%Q.
  split; [|split; [|split; [|split]]].
  - unfold hof_update. cbn [items length Nat.eqb andb rbind]. exact Hrun.
  - unfold fitness_values. rewrite Ha. reflexivity.
  - unfold fitness_values. rewrite Ha'. reflexivity.
  - apply Qdiv_minus_one_le. exact Hle.
  - exact Hin.
Qed.

End FloatArchive.

(** C5, as the code has it. When every fitness value is a number, none
    being NaN, the hall of fame never gets worse. An update of a hall of
    fame holding one individual leaves it holding one individual, the
    same or a member of the population, whose fitness is no larger. And
    in a run on a valid configuration, where the fitness values are the
    numbers computed in exact arithmetic, from one generation boundary to
    the next the fitness of the archived best individual does not get
    larger; the individual archived by the update of a generation is,
    after the variation and the replacement of the population, the same
    object with the same tree and fitness, and no member of the new
    population. *)
Theorem archive_best_never_worsens
        (protected_div : Q -> Q -> Q) (config : Config)
        (time_clock : nat -> Q) (py np : rng) (g : nat)
        (archived : Float.Individual) (members : list Float.Individual) :
  Float.scored_with_a_number archived ->
  Forall Float.scored_with_a_number members ->
  valid_config config ->
  1 <= g ->
  (exists archived' v v',
      Float.hof_update
        (Float.mkHof 1 [Float.wvalues archived] [archived]) members
      = Ok (Float.mkHof 1 [Float.wvalues archived'] [archived']) /\
      Float.fitness_values archived = [Float.Number v] /\
      Float.fitness_values archived' = [Float.Number v'] /\
      (v' <= v)%Q /\
      (archived' = archived \/ In archived' members)) /\
  (exists st w st' w' v v',
      run_generations protected_div config time_clock g (mkWorld py np [])
      = Ok (st, w) /\
      run_generations protected_div config time_clock (S g) (mkWorld py np [])
      = Ok (st', w') /\
      archive_best (halloffame st) w = [v] /\
      archive_best (halloffame st') w' = [v'] /\
      (v' <= v)%Q /\
      exists fits size w1 next_gen best,
        evaluate_phase protected_div config (population st) (halloffame st) w
        = Ok ((halloffame st', fits, size), w1) /\
        variation_phase config (population st) w1 = Ok (next_gen, w') /\
        population st' = next_gen /\
        items (halloffame st') = [best] /\
        lookup w' best = lookup w1 best /\
        ~ In best (population st')).
Proof.
  intros Harchived Hmembers Hvalid Hg.
  split; [apply update_numbers; assumption|].
  destruct (run_generations_invariant protected_div config time_clock Hvalid g
              (mkWorld py np []) (heap_closed_nil _ py np))
    as (st & w & Hrun & Hinv).
  destruct (generation_step_spec protected_div config time_clock Hvalid g st w Hinv)
    as (hof1 & fits & size & w1 & ng & w2 & h' & record & Heval & Hvar & Hstep
        & _ & -> & Hh' & Hlk & Hnin & (b & Hb & Hmono) & _).
  destruct Hinv as (_ & _ & _ & _ & [[Hg0 _]|(_ & h & Hhof & _ & _ & _)]); [lia|].
  destruct (Hmono h) as (a & Ha & Hab); [rewrite Hhof; reflexivity|].
  exists st, w. eexists. exists w2, (a / -(1))%Q, (b / -(1))%Q.
  split; [exact Hrun|]. split.
  { rewrite run_generations_S. unfold bind. rewrite Hrun. exact Hstep. }
  split; [|split; [|split]].
  - unfold archive_best. rewrite Hhof. simpl.
    apply fitness_values_singleton. exact Ha.
  - unfold archive_best. simpl.
    apply fitness_values_singleton. rewrite Hlk. exact Hb.
  - apply Qdiv_minus_one_le. exact Hab.
  - exists fits, size, w1, ng, h'. simpl.
    split; [exact Heval|]. split; [exact Hvar|]. split; [reflexivity|].
    split; [reflexivity|]. split; [exact Hlk|exact Hnin].
Qed.

Lemma archive_best_never_worsens_witness :
  (exists archived' v v',
      Float.hof_update
        (Float.mkHof 1 [[Float.Number (-(3))]]
                     [Float.mkInd tree_x [Float.Number (-(3))]])
        [Float.mkInd tree_2x [Float.Number (-(5))];
         Float.mkInd tree_3x [Float.Number (-(1))]]
      = Ok (Float.mkHof 1 [Float.wvalues archived'] [archived']) /\
      Float.fitness_values (Float.mkInd tree_x [Float.Number (-(3))])
      = [Float.Number v] /\
      Float.fitness_values archived' = [Float.Number v'] /\
      (v' <= v)%Q /\
      (archived' = Float.mkInd tree_x [Float.Number (-(3))] \/
       In archived' [Float.mkInd tree_2x [Float.Number (-(5))];
                     Float.mkInd tree_3x [Float.Number (-(1))]])) /\
  (exists st w st' w' v v',
      run_generations sample_division config_three sample_clock 1 world_three
      = Ok (st, w) /\
      run_generations sample_division config_three sample_clock 2 world_three
      = Ok (st', w') /\
      archive_best (halloffame st) w = [v] /\
      archive_best (halloffame st') w' = [v'] /\
      (v' <= v)%Q /\
      exists fits size w1 next_gen best,
        evaluate_phase sample_division config_three (population st)
                       (halloffame st) w
        = Ok ((halloffame st', fits, size), w1) /\
        variation_phase config_three (population st) w1 = Ok (next_gen, w') /\
        population st' = next_gen /\
        items (halloffame st') = [best] /\
        lookup w' best = lookup w1 best /\
        ~ In best (population st')).
Proof.
  apply (archive_best_never_worsens sample_division config_three sample_clock
           (py_random world_three) (np_random world_three) 1
           (Float.mkInd tree_x [Float.Number (-(3))])
           [Float.mkInd tree_2x [Float.Number (-(5))];
            Float.mkInd tree_3x [Float.Number (-(1))]]).
  - eexists. reflexivity.
  - repeat constructor; eexists; reflexivity.
  - unfold valid_config, rectangular, shape0, shape1; simpl.
    repeat split; try lia; repeat constructor.
  - lia.
Defined.

(** C5, as stated, fails: a fitness that is NaN is neither less than nor
    equal to any other, so [Fitness.__gt__], which is [not __le__], holds
    of it and against it. A hall of fame holding an individual of fitness
    0 is updated with a population of two, of fitness NaN and 4: the NaN
    individual takes the place of the best, then the individual of
    fitness 4 takes the place of the NaN one, and the best archived
    fitness has gone from 0 to 4. *)
Lemma a_nan_fitness_lets_the_archive_worsen :
  exists hof1 hof2 best1 best2 v1 v2,
    Float.hof_update (Float.mkHof 1 [] [])
                     [Float.mkInd tree_x [Float.Number 0]]
    = Ok hof1 /\
    Float.hof_update hof1
                     [Float.mkInd tree_2x [Float.NaN 0];
                      Float.mkInd tree_3x [Float.Number (-(4))]]
    = Ok hof2 /\
    Float.items hof1 = [best1] /\
    Float.items hof2 = [best2] /\
    Float.fitness_values best1 = [Float.Number v1] /\
    Float.fitness_values best2 = [Float.Number v2] /\
    (v1 == 0)%Q /\ (v2 == 4)%Q /\ (v1 < v2)%Q.
Proof.
  eexists. eexists. eexists. eexists. eexists. eexists.
  split; [vm_compute; reflexivity|].
  split; [vm_compute; reflexivity|].
  split; [reflexivity|]. split; [reflexivity|].
  split; [reflexivity|]. split; [reflexivity|].
  split; [reflexivity|]. split; reflexivity.
Qed.


(** ** Crossover, mutation and the fitness of the offspring *)

Lemma fitness_valid_unset ind : wvalues ind = [] -> fitness_valid ind = false.
Proof. unfold fitness_valid. intros ->. reflexivity. Qed.

(** C7, as the code has it. In a turn of the crossover loop on two scored
    offspring, the fitness of both members is unset exactly when the draw
    is below [prob_crossover], whether or not the height limit replaced an
    output. Without the draw the pair and the heap are what they were.
    With it, each member afterwards is either the crossed individual, not
    higher than [max_height], or, that individual being too high, a new
    copy of one of the two individuals as they were before the crossover. *)
Theorem crossover_step_unsets_fitness_when_drawn
        (config : Config) (next_gen : list ref) (i : nat) (w : world) :
  1 <= i < length next_gen ->
  nth (i - 1) next_gen 0 < length (heap w) ->
  nth i next_gen 0 < length (heap w) ->
  fitness_valid (lookup w (nth (i - 1) next_gen 0)) = true ->
  fitness_valid (lookup w (nth i next_gen 0)) = true ->
  let drawn :=
    Qlt_bool (unit_float (tape (np_random w) (cursor (np_random w))))
             (prob_crossover config) in
  exists next_gen' w',
    crossover_step config next_gen i w = Ok (next_gen', w') /\
    length next_gen' = length next_gen /\
    (fitness_valid (lookup w' (nth (i - 1) next_gen' 0)) = false
     <-> drawn = true) /\
    (fitness_valid (lookup w' (nth i next_gen' 0)) = false
     <-> drawn = true) /\
    (drawn = false -> next_gen' = next_gen /\ heap w' = heap w) /\
    (drawn = true ->
     forall k, k = i - 1 \/ k = i ->
       (nth k next_gen' 0 = nth k next_gen 0 /\
        height (tree (lookup w' (nth k next_gen' 0))) <= max_height config) \/
       (max_height config < height (tree (lookup w' (nth k next_gen 0))) /\
        length (heap w) <= nth k next_gen' 0 /\
        (tree (lookup w' (nth k next_gen' 0))
         = tree (lookup w (nth (i - 1) next_gen 0)) \/
         tree (lookup w' (nth k next_gen' 0))
         = tree (lookup w (nth i next_gen 0))))).
Proof.
  intros Hi Ha Hb Hfa Hfb drawn.
  destruct (wp_ok _ _ _ (wp_crossover_step config next_gen i w Hi Ha Hb))
    as (ng' & w' & Hstep & Hpost).
  exists ng', w'. split; [exact Hstep|].
  cbv zeta in Hpost. fold drawn in Hpost.
  destruct Hpost as [(Hd & -> & Hh)|(Hd & c1 & c2 & -> & Hlen & Hg & Hk1 & Hk2 & Hw1 & Hw2 & Hl1 & Hl2)].
  - rewrite Hd. rewrite !(lookup_same_heap w w' _ Hh), Hfa, Hfb.
    split; [reflexivity|].
    split; [split; discriminate|]. split; [split; discriminate|].
    split; [auto|discriminate].
  - rewrite Hd.
    assert (Hn1 : nth (i - 1) (update_nth (update_nth next_gen (i - 1) c1) i c2) 0 = c1).
    { rewrite nth_update_nth_neq by lia. apply nth_update_nth_eq. lia. }
    assert (Hn2 : nth i (update_nth (update_nth next_gen (i - 1) c1) i c2) 0 = c2).
    { apply nth_update_nth_eq. rewrite length_update_nth. lia. }
    rewrite Hn1, Hn2.
    split; [rewrite !length_update_nth; reflexivity|].
    split; [split; [reflexivity|intros _; apply fitness_valid_unset; exact Hw1]|].
    split; [split; [reflexivity|intros _; apply fitness_valid_unset; exact Hw2]|].
    split; [discriminate|]. intros _ k [-> | ->].
    + rewrite Hn1. destruct Hl1 as [[-> Hh]|[Hh Hin]].
      * left. split; [reflexivity|exact Hh].
      * right. split; [exact Hh|].
        destruct Hin as [<-|[<-|[]]]; (split; [lia|]);
          [left; exact Hk1|right; exact Hk2].
    + rewrite Hn2. destruct Hl2 as [[-> Hh]|[Hh Hin]].
      * left. split; [reflexivity|exact Hh].
      * right. split; [exact Hh|].
        destruct Hin as [<-|[<-|[]]]; (split; [lia|]);
          [left; exact Hk1|right; exact Hk2].
Qed.

Lemma crossover_step_unsets_fitness_when_drawn_witness :
  exists next_gen' w',
    crossover_step config_one [0; 1] 1 world_pair = Ok (next_gen', w') /\
    length next_gen' = 2 /\
    (fitness_valid (lookup w' (nth 0 next_gen' 0)) = false <-> true = true) /\
    (fitness_valid (lookup w' (nth 1 next_gen' 0)) = false <-> true = true) /\
    (true = false -> next_gen' = [0; 1] /\ heap w' = heap world_pair) /\
    (true = true ->
     forall k, k = 0 \/ k = 1 ->
       (nth k next_gen' 0 = nth k [0; 1] 0 /\
        height (tree (lookup w' (nth k next_gen' 0))) <= 2) \/
       (2 < height (tree (lookup w' (nth k [0; 1] 0))) /\
        2 <= nth k next_gen' 0 /\
        (tree (lookup w' (nth k next_gen' 0)) = tree_3x \/
         tree (lookup w' (nth k next_gen' 0)) = tree_3x))).
Proof.
  apply (crossover_step_unsets_fitness_when_drawn config_one [0; 1] 1 world_pair).
  - simpl. lia.
  - simpl. lia.
  - simpl. lia.
  - reflexivity.
  - reflexivity.
Defined.

(** C7, as stated, fails: the crossed first member is too high and is
    replaced by a copy of what it was, so the operation is reverted for
    it; its fitness, set before, is unset all the same. *)
Lemma reverted_crossover_still_unsets_fitness :
  exists next_gen' w',
    crossover_step config_one [0; 1] 1 world_pair = Ok (next_gen', w') /\
    max_height config_one < height (tree (lookup w' 0)) /\
    nth 0 next_gen' 0 = 2 /\
    tree (lookup w' 2) = tree (lookup world_pair 0) /\
    fitness_valid (lookup world_pair 0) = true /\
    fitness_valid (lookup w' (nth 0 next_gen' 0)) = false.
Proof.
  eexists. eexists. split; [vm_compute; reflexivity|].
  vm_compute. repeat split. lia.
Qed.


(** ** The mutation operator of the loop *)

Lemma index_of_draw_mod (raw m : nat) :
  index_of_draw (N.of_nat raw) m = raw mod m.
Proof.
  unfold index_of_draw. destruct m as [|m].
  - simpl. rewrite N.mod_0_r. apply Nat2N.id.
  - rewrite <- Nat2N.inj_mod. apply Nat2N.id.
Qed.

Lemma index_of_draw_lt (raw : N) (m : nat) : 0 < m -> index_of_draw raw m < m.
Proof.
  intros Hm. unfold index_of_draw.
  pose proof (N.mod_lt raw (N.of_nat m)) as H. lia.
Qed.

Lemma py_draw_lt (w : world) (i m : nat) : 0 < m -> py_draw w i m < m.
Proof. intros Hm. apply index_of_draw_lt. exact Hm. Qed.

Lemma count_in_seq (i : nat) :
  forall m a,
    length (filter (fun j => j =? i) (seq a m))
    = if (a <=? i) && (i <? a + m) then 1 else 0.
Proof.
  induction m as [|m IH]; intros a; cbn [seq filter].
  - destruct (Nat.leb_spec a i), (Nat.ltb_spec i (a + 0)); simpl; lia.
  - specialize (IH (S a)).
    destruct (Nat.eqb_spec a i) as [->|Hne]; cbn [length]; rewrite IH.
    + destruct (Nat.leb_spec (S i) i), (Nat.leb_spec i i),
        (Nat.ltb_spec i (S i + m)), (Nat.ltb_spec i (i + S m)); simpl; lia.
    + destruct (Nat.leb_spec (S a) i), (Nat.leb_spec a i),
        (Nat.ltb_spec i (S a + m)), (Nat.ltb_spec i (a + S m)); simpl; lia.
Qed.

Lemma seq_as_map (a m : nat) : seq a m = map (fun j => a + j) (seq 0 m).
Proof.
  revert a. induction m as [|m IH]; intros a; [reflexivity|].
  cbn [seq map]. rewrite Nat.add_0_r. f_equal.
  rewrite (IH (S a)), (IH 1), map_map. apply map_ext.
  intros j. lia.
Qed.

Lemma length_filter_map {A B} (p : B -> bool) (g : A -> B) (l : list A) :
  length (filter p (map g l)) = length (filter (fun x => p (g x)) l).
Proof.
  induction l as [|x l IH]; [reflexivity|].
  cbn [map filter]. destruct (p (g x)); cbn [length]; rewrite IH; reflexivity.
Qed.

(** Over any whole number of periods, every index is given by the same
    number of raw draws: a uniform draw gives a uniform index. *)
Lemma index_of_draw_uniform (m i : nat) :
  i < m ->
  forall k,
    length (filter (fun raw => index_of_draw (N.of_nat raw) m =? i)
                   (seq 0 (k * m)))
    = k.
Proof.
  intros Hi. induction k as [|k IH]; [reflexivity|].
  replace (S k * m) with (k * m + m) by lia.
  rewrite seq_app, filter_app, length_app, IH. cbn [Nat.add].
  rewrite (seq_as_map (k * m) m), length_filter_map.
  rewrite (filter_ext_in _ (fun j => j =? i)).
  - rewrite count_in_seq.
    destruct (Nat.leb_spec 0 i), (Nat.ltb_spec i (0 + m)); simpl; lia.
  - intros j Hj. apply in_seq in Hj.
    rewrite index_of_draw_mod.
    rewrite Nat.add_comm, Nat.Div0.mod_add, Nat.mod_small by lia.
    reflexivity.
Qed.

Lemma wp_bind_ok {A B} (m : M A) (k : A -> M B) (Q : B -> world -> Prop)
      w a w' :
  m w = Ok (a, w') -> wp (k a) Q w' -> wp (bind m k) Q w.
Proof. intros Hm Hk. unfold wp, bind in *. rewrite Hm. exact Hk. Qed.

Lemma wp_of_ok {A} (m : M A) (Q : A -> world -> Prop) w a w' :
  m w = Ok (a, w') -> Q a w' -> wp m Q w.
Proof. intros Hm HQ. unfold wp. rewrite Hm. exact HQ. Qed.

Ltac simpl_lookup :=
  repeat match goal with
         | |- context [lookup (mkWorld ?a ?b ?h) ?r] =>
             change (lookup (mkWorld a b h) r) with (nth r h unset_individual)
         end.

Section MutationStep.

Variable config : Config.

Let n := arguments (pset config).

(** [toolbox.expr_mut], that is [gp.genFull(pset, 0, 2)]: a tree of the
    "full" method whose height is the next draw of [random.randint(0, 2)]. *)
Lemma wp_toolbox_expr_mut w :
  wp (toolbox_expr_mut config)
     (fun sub w' => heap w' = heap w /\ closed n sub /\
                    full_tree (py_draw w 0 3) sub) w.
Proof.
  unfold toolbox_expr_mut, genFull, generate, random_randint.
  change (2 <? 0) with false. cbv iota.
  change (2 - 0 + 1) with 3. unfold randbelow. wp_run.
  change (0 + N.to_nat (tape (py_random w) (cursor (py_random w))
                        mod N.of_nat 3))
    with (py_draw w 0 3).
  eapply wp_conseq;
    [apply (wp_generate_node (pset config) (randomTerm_value config)
              (wp_randomTerm_value config) Full 0 (py_draw w 0 3)
              (py_draw w 0 3) 0); reflexivity|].
  cbv beta. intros sub w' (Hh & Hc & _ & Hfull).
  split; [exact Hh|]. split; [exact Hc|]. apply Hfull. reflexivity.
Qed.

Lemma wp_mutation_step_exact mutant w :
  mutant < length (heap w) ->
  Qlt_bool (unit_float (tape (np_random w) (cursor (np_random w))))
           (prob_mutation config) = true ->
  wp (mutation_step config mutant)
     (fun _ w' =>
        exists sub w_after,
          toolbox_expr_mut config
            (mkWorld (mkRng (tape (py_random w)) (S (cursor (py_random w))))
                     (mkRng (tape (np_random w)) (S (cursor (np_random w))))
                     (heap w ++ [lookup w mutant]))
          = Ok (sub, w_after) /\
          lookup w' mutant
          = mkInd (replace_subtree (tree (lookup w mutant))
                                   (py_draw w 0 (len (tree (lookup w mutant))))
                                   sub) []) w.
Proof.
  intros Hm Hdrawn.
  unfold mutation_step, np_random_random. wp_run. rewrite Hdrawn.
  unfold toolbox_mutate, staticLimit. cbn [map_M]. unfold deepcopy. wp_run.
  unfold mutUniform. wp_run.
  simpl_lookup. rewrite !(app_nth1 _ _ _ Hm).
  change (nth mutant (heap w) unset_individual) with (lookup w mutant).
  set (t := tree (lookup w mutant)).
  unfold random_randrange.
  destruct (Nat.eqb_spec (len t) 0) as [E|_];
    [pose proof (len_pos t); lia|].
  unfold randbelow. wp_run.
  change (N.to_nat (tape (py_random w) (cursor (py_random w))
                    mod N.of_nat (len t)))
    with (py_draw w 0 (len t)).
  match goal with |- wp _ _ ?w0 => set (w_gen := w0) end.
  destruct (wp_ok _ _ _ (wp_toolbox_expr_mut w_gen))
    as (sub & w_after & Hgen & Hh & _).
  apply (wp_of_ok _ _ _ _ _ Hgen).
  unfold set_tree. wp_run. cbn [map_M]. wp_run.
  match goal with |- wp _ _ ?w0 => set (w_set := w0) end.
  assert (Hafter : mutant < length (heap w_after)).
  { rewrite Hh. unfold w_gen. cbn [heap]. rewrite length_app. lia. }
  assert (Hlen : mutant < length (heap w_set)).
  { unfold w_set. cbn [heap]. rewrite length_update_nth. exact Hafter. }
  assert (Hset : tree (lookup w_set mutant)
                 = replace_subtree t (py_draw w 0 (len t)) sub).
  { unfold lookup, w_set. cbn [heap].
    rewrite nth_update_nth_eq; [reflexivity|exact Hafter]. }
  assert (Hend : forall (a : ref) w',
             heap w' = heap w_set ->
             wp (ys <- ret [];; ret (a :: ys))
                (fun _ w'0 =>
                   wp (del_fitness_values mutant)
                      (fun _ w'1 =>
                         exists sub0 w_after0,
                           toolbox_expr_mut config w_gen = Ok (sub0, w_after0) /\
                           lookup w'1 mutant
                           = mkInd (replace_subtree t (py_draw w 0 (len t)) sub0)
                                   []) w'0) w').
  { intros a w' Hw'. wp_run. unfold del_fitness_values. wp_run.
    exists sub, w_after. split; [exact Hgen|].
    simpl_lookup. rewrite nth_update_nth_eq by (rewrite Hw'; exact Hlen).
    rewrite (lookup_same_heap w_set w' mutant Hw'), Hset. reflexivity. }
  match goal with |- context [if ?c then _ else _] => destruct c end.
  - eapply wp_conseq; [apply (@wp_random_choice ref); discriminate|].
    cbv beta. intros a w' [Hw' _]. apply Hend. exact Hw'.
  - rewrite wp_ret. apply Hend. reflexivity.
Qed.

End MutationStep.

(** C6, as the code has it. A mutant chosen by the draw is changed in
    place. The node is the next draw of [random.randrange] over the
    number of nodes, and every node is given by the same number of raw
    draws: it is picked uniformly. The subtree there is replaced by the
    tree that [gp.genFull(pset, 0, 2)] generates from the draws that
    follow: a tree of the "full" method whose height, 0 to 2, is the next
    draw of [random.randint(0, 2)], and the fitness is unset. *)
Theorem mutation_step_replaces_a_subtree_by_a_full_one
        (config : Config) (mutant : ref) (w : world) :
  mutant < length (heap w) ->
  Qlt_bool (unit_float (tape (np_random w) (cursor (np_random w))))
           (prob_mutation config) = true ->
  let t := tree (lookup w mutant) in
  let index := py_draw w 0 (len t) in
  let h := py_draw w 1 3 in
  exists w' sub w_after,
    mutation_step config mutant w = Ok (tt, w') /\
    index < len t /\
    (forall i k, i < len t ->
       length (filter (fun raw => index_of_draw (N.of_nat raw) (len t) =? i)
                      (seq 0 (k * len t))) = k) /\
    genFull (pset config) (randomTerm_value config) 0 2
      (mkWorld (mkRng (tape (py_random w)) (S (cursor (py_random w))))
               (mkRng (tape (np_random w)) (S (cursor (np_random w))))
               (heap w ++ [lookup w mutant]))
    = Ok (sub, w_after) /\
    h <= 2 /\ full_tree h sub /\ height sub = h /\
    tree (lookup w' mutant) = replace_subtree t index sub /\
    fitness_valid (lookup w' mutant) = false.
Proof.
  intros Hr Hdrawn t index h.
  destruct (wp_ok _ _ _ (wp_mutation_step_exact config mutant w Hr Hdrawn))
    as ([] & w' & Hstep & sub & w_after & Hgen & Hlk).
  pose proof (wp_toolbox_expr_mut config
                (mkWorld (mkRng (tape (py_random w)) (S (cursor (py_random w))))
                         (mkRng (tape (np_random w)) (S (cursor (np_random w))))
                         (heap w ++ [lookup w mutant]))) as Hfull.
  unfold wp in Hfull. rewrite Hgen in Hfull.
  destruct Hfull as (_ & _ & Hfull).
  change (full_tree h sub) in Hfull.
  exists w', sub, w_after.
  split; [exact Hstep|].
  split; [apply py_draw_lt; apply len_pos|].
  split; [intros i k Hi; apply index_of_draw_uniform; exact Hi|].
  split; [exact Hgen|].
  split; [pose proof (py_draw_lt w 1 3); unfold h; lia|].
  split; [exact Hfull|].
  split; [apply full_tree_height; exact Hfull|].
  rewrite Hlk. split; reflexivity.
Qed.

Lemma mutation_step_replaces_a_subtree_by_a_full_one_witness :
  let t := tree (lookup world_mutant 0) in
  let index := py_draw world_mutant 0 (len t) in
  let h := py_draw world_mutant 1 3 in
  exists w' sub w_after,
    mutation_step config_one 0 world_mutant = Ok (tt, w') /\
    index < len t /\
    (forall i k, i < len t ->
       length (filter (fun raw => index_of_draw (N.of_nat raw) (len t) =? i)
                      (seq 0 (k * len t))) = k) /\
    genFull (pset config_one) (randomTerm_value config_one) 0 2
      (mkWorld (mkRng (tape (py_random world_mutant))
                      (S (cursor (py_random world_mutant))))
               (mkRng (tape (np_random world_mutant))
                      (S (cursor (np_random world_mutant))))
               (heap world_mutant ++ [lookup world_mutant 0]))
    = Ok (sub, w_after) /\
    h <= 2 /\ full_tree h sub /\ height sub = h /\
    tree (lookup w' 0) = replace_subtree t index sub /\
    fitness_valid (lookup w' 0) = false.
Proof.
  apply (mutation_step_replaces_a_subtree_by_a_full_one config_one 0
           world_mutant).
  - simpl. lia.
  - reflexivity.
Defined.

(** C6, as stated, fails: from the same state the mutation of the loop
    and a mutation drawing its subtree with the "grow" method leave
    different trees. *)
Lemma mutation_does_not_grow :
  exists w1 w2,
    mutation_step config_one 0 world_mutant = Ok (tt, w1) /\
    grow_mutation_step config_one 0 world_mutant = Ok (tt, w2) /\
    tree (lookup w2 0) = ARG 0 /\
    tree (lookup w1 0)
    = Prim np_add (Prim np_add (ARG 0) (ARG 0)) (Prim np_add (ARG 0) (ARG 0)) /\
    tree (lookup w1 0) <> tree (lookup w2 0).
Proof.
  eexists. eexists. split; [vm_compute; reflexivity|].
  split; [vm_compute; reflexivity|].
  vm_compute. repeat split. discriminate.
Qed.


(** ** Two runs *)

Lemma same_but_duration_refl r : same_but_duration r r.
Proof. repeat split. Qed.

Lemma same_state_refl st : same_state st st.
Proof.
  repeat split. induction (statistics st); constructor; auto.
  apply same_but_duration_refl.
Qed.

Lemma same_draws_next g1 g2 :
  same_draws g1 g2 ->
  tape g1 (cursor g1) = tape g2 (cursor g2) /\
  same_draws (mkRng (tape g1) (S (cursor g1))) (mkRng (tape g2) (S (cursor g2))).
Proof.
  intros H. split; [exact (H 0)|].
  intros i. cbn [tape cursor]. rewrite !Nat.add_succ_r. exact (H (S i)).
Qed.

(** *** Computations that read the generators through their draws only *)

Lemma alike_ret {A B} (R : A -> B -> Prop) a b :
  R a b -> alike R (ret a) (ret b).
Proof. intros H w1 w2 Hw. split; assumption. Qed.

Lemma alike_bind {A B A' B'} (R : A -> B -> Prop) (S : A' -> B' -> Prop)
      (m1 : M A) (m2 : M B) (k1 : A -> M A') (k2 : B -> M B') :
  alike R m1 m2 ->
  (forall a b, R a b -> alike S (k1 a) (k2 b)) ->
  alike S (bind m1 k1) (bind m2 k2).
Proof.
  intros Hm Hk w1 w2 Hw. unfold bind. specialize (Hm w1 w2 Hw).
  destruct (m1 w1) as [[a w1']|e1], (m2 w2) as [[b w2']|e2];
    simpl in Hm; try contradiction.
  - destruct Hm as [Hab Hw']. apply (Hk a b Hab w1' w2' Hw').
  - exact Hm.
Qed.

Lemma alike_ret_eq {A} (a : A) : alike eq (ret a) (ret a).
Proof. apply alike_ret. reflexivity. Qed.

Lemma alike_bind_eq {A B} (m : M A) (k : A -> M B) :
  alike eq m m -> (forall a, alike eq (k a) (k a)) ->
  alike eq (bind m k) (bind m k).
Proof.
  intros Hm Hk. apply (alike_bind eq eq m m k k Hm).
  intros a b <-. apply Hk.
Qed.

Lemma alike_raise {A} (e : exn) : alike eq (@raise A e) (@raise A e).
Proof. intros w1 w2 _. reflexivity. Qed.

Lemma alike_lift {A} (r : result A) : alike eq (lift r) (lift r).
Proof.
  intros w1 w2 Hw. unfold lift. destruct r; simpl; [split|]; auto.
Qed.

Lemma alike_py_raw : alike eq py_raw py_raw.
Proof.
  intros w1 w2 (Hh & Hpy & Hnp). unfold py_raw, next_raw.
  destruct (same_draws_next _ _ Hpy) as [Hx Hpy'].
  split; [exact Hx|]. repeat split; assumption.
Qed.

Lemma alike_np_raw : alike eq np_raw np_raw.
Proof.
  intros w1 w2 (Hh & Hpy & Hnp). unfold np_raw, next_raw.
  destruct (same_draws_next _ _ Hnp) as [Hx Hnp'].
  split; [exact Hx|]. repeat split; assumption.
Qed.

Lemma alike_deref r : alike eq (deref r) (deref r).
Proof.
  intros w1 w2 Hw. unfold deref. split; [|exact Hw].
  destruct Hw as (Hh & _). rewrite Hh. reflexivity.
Qed.

Lemma alike_alloc ind : alike eq (alloc ind) (alloc ind).
Proof.
  intros w1 w2 (Hh & Hpy & Hnp). unfold alloc. split.
  - rewrite Hh. reflexivity.
  - split; [simpl; rewrite Hh; reflexivity|split; assumption].
Qed.

Lemma alike_store r ind : alike eq (store r ind) (store r ind).
Proof.
  intros w1 w2 (Hh & Hpy & Hnp). unfold store. split; [reflexivity|].
  split; [simpl; rewrite Hh; reflexivity|split; assumption].
Qed.

Lemma alike_map_M {A B} (f : A -> M B) (l : list A) :
  (forall x, alike eq (f x) (f x)) -> alike eq (map_M f l) (map_M f l).
Proof.
  intros Hf. induction l as [|x l IH]; cbn [map_M].
  - apply alike_ret_eq.
  - apply alike_bind_eq; [apply Hf|]. intros y.
    apply alike_bind_eq; [exact IH|]. intros ys. apply alike_ret_eq.
Qed.

Lemma alike_for_M_rel {A S1 S2} (R : S1 -> S2 -> Prop)
      (body1 : S1 -> A -> M S1) (body2 : S2 -> A -> M S2) (l : list A) :
  (forall acc1 acc2 x, R acc1 acc2 -> alike R (body1 acc1 x) (body2 acc2 x)) ->
  forall acc1 acc2, R acc1 acc2 ->
                    alike R (for_M body1 l acc1) (for_M body2 l acc2).
Proof.
  intros Hbody. induction l as [|x l IH]; intros acc1 acc2 Hacc; cbn [for_M].
  - apply alike_ret. exact Hacc.
  - apply (alike_bind R R); [apply Hbody; exact Hacc|].
    intros a b Hab. apply IH. exact Hab.
Qed.

Lemma alike_for_M {A S} (body : S -> A -> M S) (l : list A) (acc : S) :
  (forall acc x, alike eq (body acc x) (body acc x)) ->
  alike eq (for_M body l acc) (for_M body l acc).
Proof.
  intros Hbody. apply (alike_for_M_rel eq); [|reflexivity].
  intros acc1 acc2 x <-. apply Hbody.
Qed.

Create HintDb alike.

#[local] Hint Resolve alike_py_raw alike_np_raw alike_deref alike_alloc
  alike_store : alike.

(** One step of the decomposition of a computation: a known operation, or
    a sequence, a branch, a loop. *)
Ltac alike_step :=
  match goal with
  | |- forall _, _ => intro
  | |- alike _ (bind _ _) _ => apply alike_bind_eq
  | |- alike _ (ret _) _ => apply alike_ret_eq
  | |- alike _ (raise _) _ => apply alike_raise
  | |- alike _ (lift _) _ => apply alike_lift
  | |- alike _ (map_M _ _) _ => apply alike_map_M
  | |- alike _ (for_M _ _ _) _ => apply alike_for_M
  | |- alike _ (if ?c then _ else _) _ => destruct c
  | |- alike _ (match ?x with _ => _ end) _ => destruct x
  | |- alike _ _ _ => solve [auto 1 with alike nocore]
  end.

Ltac alike_auto := repeat alike_step.

(** *** Python's and numpy's draws *)

Lemma alike_randbelow n : alike eq (randbelow n) (randbelow n).
Proof. unfold randbelow. alike_auto. Qed.

Lemma alike_random_random : alike eq random_random random_random.
Proof. unfold random_random. alike_auto. Qed.

#[local] Hint Resolve alike_randbelow alike_random_random : alike.

Lemma alike_random_randint a b :
  alike eq (random_randint a b) (random_randint a b).
Proof. unfold random_randint. alike_auto. Qed.

Lemma alike_random_randrange n :
  alike eq (random_randrange n) (random_randrange n).
Proof. unfold random_randrange. alike_auto. Qed.

Lemma alike_random_choice {A} (l : list A) :
  alike eq (random_choice l) (random_choice l).
Proof. unfold random_choice. destruct l; alike_auto. Qed.

Lemma alike_np_random_random : alike eq np_random_random np_random_random.
Proof. unfold np_random_random. alike_auto. Qed.

Lemma alike_np_random_uniform low high :
  alike eq (np_random_uniform low high) (np_random_uniform low high).
Proof. unfold np_random_uniform. alike_auto. Qed.

#[local] Hint Resolve alike_random_randint alike_random_randrange
  alike_random_choice alike_np_random_random alike_np_random_uniform : alike.

(** *** DEAP's operators *)

Section AlikeGenerate.

Variable pset : PrimitiveSet.
Variable ephemeral : M Q.
Hypothesis alike_ephemeral : alike eq ephemeral ephemeral.

Lemma alike_make_terminal :
  alike eq (make_terminal pset ephemeral) (make_terminal pset ephemeral).
Proof. unfold make_terminal. alike_auto. Qed.

Lemma alike_condition m min_ h depth :
  alike eq (condition pset m min_ h depth) (condition pset m min_ h depth).
Proof. unfold condition. destruct m; alike_auto. Qed.

Lemma alike_generate_node m min_ h :
  forall remaining depth,
    alike eq (generate_node pset ephemeral m min_ h depth remaining)
             (generate_node pset ephemeral m min_ h depth remaining).
Proof.
  induction remaining as [|r IH]; intros depth; cbn [generate_node].
  - apply alike_bind_eq; [apply alike_condition|].
    intros [|]; apply alike_make_terminal.
  - apply alike_bind_eq; [apply alike_condition|].
    intros [|]; [apply alike_make_terminal|].
    apply alike_bind_eq; [auto with alike|]. intros prim.
    apply alike_bind_eq; [apply IH|]. intros a.
    apply alike_bind_eq; [apply IH|]. intros b.
    apply alike_ret_eq.
Qed.

Lemma alike_generate m min_ max_ :
  alike eq (generate pset ephemeral m min_ max_)
           (generate pset ephemeral m min_ max_).
Proof.
  unfold generate. apply alike_bind_eq; [auto with alike|].
  intros h. apply alike_generate_node.
Qed.

Lemma alike_genHalfAndHalf min_ max_ :
  alike eq (genHalfAndHalf pset ephemeral min_ max_)
           (genHalfAndHalf pset ephemeral min_ max_).
Proof.
  unfold genHalfAndHalf. apply alike_bind_eq; [auto with alike|].
  intros m. apply alike_generate.
Qed.

End AlikeGenerate.

Lemma alike_deepcopy r : alike eq (deepcopy r) (deepcopy r).
Proof. unfold deepcopy. alike_auto. Qed.

Lemma alike_set_tree r t : alike eq (set_tree r t) (set_tree r t).
Proof. unfold set_tree. alike_auto. Qed.

Lemma alike_set_fitness_values r vals :
  alike eq (set_fitness_values r vals) (set_fitness_values r vals).
Proof. unfold set_fitness_values. alike_auto. Qed.

Lemma alike_del_fitness_values r :
  alike eq (del_fitness_values r) (del_fitness_values r).
Proof. unfold del_fitness_values. alike_auto. Qed.

#[local] Hint Resolve alike_deepcopy alike_set_tree alike_set_fitness_values
  alike_del_fitness_values : alike.

Lemma alike_cxOnePoint a b : alike eq (cxOnePoint a b) (cxOnePoint a b).
Proof. unfold cxOnePoint. alike_auto. Qed.

Lemma alike_mutUniform expr_gen r :
  alike eq expr_gen expr_gen ->
  alike eq (mutUniform expr_gen r) (mutUniform expr_gen r).
Proof. intros H. unfold mutUniform. alike_auto. Qed.

Lemma alike_staticLimit max_value func args :
  (forall l, alike eq (func l) (func l)) ->
  alike eq (staticLimit max_value func args) (staticLimit max_value func args).
Proof. intros H. unfold staticLimit. alike_auto. Qed.

Lemma alike_max_by_fitness aspirants :
  alike eq (max_by_fitness aspirants) (max_by_fitness aspirants).
Proof. unfold max_by_fitness. alike_auto. Qed.

Lemma alike_selTournament tournsize individuals k :
  alike eq (selTournament tournsize individuals k)
           (selTournament tournsize individuals k).
Proof.
  unfold selTournament, selRandom, repeat_M. alike_auto.
  apply alike_max_by_fitness.
Qed.

Lemma alike_hof_insert hof item :
  alike eq (hof_insert hof item) (hof_insert hof item).
Proof. unfold hof_insert. alike_auto. Qed.

Lemma alike_hof_remove_last hof :
  alike eq (hof_remove_last hof) (hof_remove_last hof).
Proof. unfold hof_remove_last. alike_auto. Qed.

#[local] Hint Resolve alike_cxOnePoint alike_max_by_fitness
  alike_selTournament alike_hof_insert alike_hof_remove_last : alike.

Lemma alike_hof_update hof population :
  alike eq (hof_update hof population) (hof_update hof population).
Proof. unfold hof_update. alike_auto. Qed.

(** *** The benchmark *)

Section AlikeBenchmark.

Variable protected_div : Q -> Q -> Q.
Variable config : Config.

Lemma alike_randomTerm_value :
  alike eq (randomTerm_value config) (randomTerm_value config).
Proof. unfold randomTerm_value. alike_auto. Qed.

Lemma alike_toolbox_population n :
  alike eq (toolbox_population config n) (toolbox_population config n).
Proof.
  unfold toolbox_population, repeat_M, toolbox_individual, toolbox_expr.
  alike_auto. apply alike_genHalfAndHalf. apply alike_randomTerm_value.
Qed.

Lemma alike_toolbox_mate a b :
  alike eq (toolbox_mate config a b) (toolbox_mate config a b).
Proof.
  unfold toolbox_mate. apply alike_staticLimit.
  intros l. alike_auto.
Qed.

Lemma alike_toolbox_mutate r :
  alike eq (toolbox_mutate config r) (toolbox_mutate config r).
Proof.
  unfold toolbox_mutate. apply alike_staticLimit.
  intros l. alike_auto. apply alike_mutUniform.
  unfold toolbox_expr_mut, genFull. apply alike_generate.
  apply alike_randomTerm_value.
Qed.

Lemma alike_evaluate_all population :
  alike eq (evaluate_all protected_div config population)
           (evaluate_all protected_div config population).
Proof. unfold evaluate_all, toolbox_evaluate. alike_auto. Qed.

Lemma alike_crossover_loop next_gen :
  alike eq (crossover_loop config next_gen) (crossover_loop config next_gen).
Proof.
  unfold crossover_loop. apply alike_for_M. intros acc i.
  unfold crossover_step. alike_auto. apply alike_toolbox_mate.
Qed.

Lemma alike_mutation_loop next_gen :
  alike eq (mutation_loop config next_gen) (mutation_loop config next_gen).
Proof.
  unfold mutation_loop. apply alike_for_M. intros acc mutant.
  unfold mutation_step. alike_auto. apply alike_toolbox_mutate.
Qed.

Lemma alike_evaluate_phase population hof :
  alike eq (evaluate_phase protected_div config population hof)
           (evaluate_phase protected_div config population hof).
Proof.
  unfold evaluate_phase. alike_auto.
  - apply alike_evaluate_all.
  - apply alike_hof_update.
Qed.

Lemma alike_variation_phase population :
  alike eq (variation_phase config population)
           (variation_phase config population).
Proof.
  unfold variation_phase, toolbox_select, toolbox_clone. alike_auto.
  - apply alike_crossover_loop.
  - apply alike_mutation_loop.
Qed.

Variables clock1 clock2 : nat -> Q.

(** A turn of the loop reads the clock for the recorded duration only. *)
Lemma alike_generation_step st1 st2 g :
  same_state st1 st2 ->
  alike same_state
        (generation_step protected_div config clock1 st1 g)
        (generation_step protected_div config clock2 st2 g).
Proof.
  destruct st1 as [pop hof stats1], st2 as [pop2 hof2 stats2].
  intros (Hp & Hh & Hs). simpl in Hp, Hh, Hs. subst pop2 hof2.
  unfold generation_step. cbn [population halloffame statistics].
  apply (alike_bind eq same_state); [apply alike_evaluate_phase|].
  intros [[hof1 fits] size] r <-.
  apply (alike_bind eq same_state); [apply alike_variation_phase|].
  intros next_gen ng <-.
  apply (alike_bind eq same_state); [apply alike_lift|].
  intros best_ref b <-.
  apply (alike_bind eq same_state); [apply alike_deref|].
  intros best_ind b <-.
  apply (alike_bind eq same_state); [apply alike_lift|].
  intros func f <-.
  apply alike_ret.
  split; [reflexivity|]. split; [reflexivity|]. cbn [statistics].
  apply Forall2_app; [exact Hs|].
  constructor; [|constructor]. repeat split.
Qed.

Lemma alike_run_generations g :
  alike same_state
        (run_generations protected_div config clock1 g)
        (run_generations protected_div config clock2 g).
Proof.
  unfold run_generations.
  apply (alike_bind eq same_state).
  - unfold initial_state. alike_auto. apply alike_toolbox_population.
  - intros st st' <-.
    apply (alike_for_M_rel same_state); [|apply same_state_refl].
    intros acc1 acc2 x Hacc. apply alike_generation_step. exact Hacc.
Qed.

End AlikeBenchmark.

(** C9, as the code has it. Two runs with the same heap and the same
    draws to come from both random generators, Python's [random] and
    [numpy.random] (what fixing both seeds fixes, whatever was drawn
    before), end alike whatever the clock reads: the same exception, or
    the same population, hall of fame and heap (every tree and fitness
    ever made), the same draws left to come in both generators, and
    statistics that differ at most in the recorded durations. *)
Theorem runs_from_the_same_generators_agree
        (protected_div : Q -> Q -> Q) (config : Config)
        (clock1 clock2 : nat -> Q) (w1 w2 : world) :
  same_seeds w1 w2 ->
  same_run same_results
    (execute_algorithm protected_div config clock1 w1)
    (execute_algorithm protected_div config clock2 w2).
Proof.
  revert w1 w2. change (alike same_results
    (execute_algorithm protected_div config clock1)
    (execute_algorithm protected_div config clock2)).
  unfold execute_algorithm.
  apply (alike_bind same_state same_results);
    [apply alike_run_generations|].
  intros st1 st2 (Hp & Hh & Hs). apply alike_ret.
  split; [exact Hs|]. split; assumption.
Qed.

Lemma runs_from_the_same_generators_agree_witness :
  same_seeds world_three world_three_later /\
  world_three <> world_three_later /\
  same_run same_results
    (execute_algorithm sample_division config_three sample_clock world_three)
    (execute_algorithm sample_division config_three (fun _ => 0%Q)
                       world_three_later).
Proof.
  assert (H : same_seeds world_three world_three_later).
  { split; [reflexivity|]. split; intros i; cbn [py_random np_random
      world_three world_three_later tape cursor];
      rewrite Nat.add_0_r, Nat.add_sub; reflexivity. }
  split; [exact H|]. split; [discriminate|].
  apply (runs_from_the_same_generators_agree sample_division config_three
           sample_clock (fun _ => 0%Q) world_three world_three_later H).
Defined.

(** C9, as stated, fails: two runs with the same state of [numpy.random]
    (and the same configuration, clock and heap) but another state of
    Python's [random] generate other trees and other fitnesses. *)
Lemma numpy_generator_alone_does_not_fix_the_run :
  np_random world_three = np_random world_three' /\
  heap world_three = heap world_three' /\
  exists st1 w1 st2 w2,
    run_generations sample_division config_three sample_clock 1 world_three
    = Ok (st1, w1) /\
    run_generations sample_division config_three sample_clock 1 world_three'
    = Ok (st2, w2) /\
    map size_list (statistics st1) = [[7; 3; 3]] /\
    map size_list (statistics st2) = [[3; 3; 3]] /\
    map fitness_list (statistics st1) <> map fitness_list (statistics st2).
Proof.
  split; [reflexivity|]. split; [reflexivity|].
  eexists. eexists. eexists. eexists.
  split; [vm_compute; reflexivity|]. split; [vm_compute; reflexivity|].
  vm_compute. repeat split. discriminate.
Qed.


(** ** The height limit and the mutation loop *)

(** C3 fails on the code. With [max_height = 2] the initial individual
    [x + x] is mutated at its second node by a full subtree of height 2.
    The decorated operator returns a copy within the limit, but the loop
    drops what it returns and keeps the mutant, changed in place: the
    final population holds a tree of height 3. *)
Theorem mutation_escapes_the_height_limit :
  valid_config config_one /\
  2 <= max_height config_one /\
  (exists returned w',
      toolbox_mutate config_one 0 world_mutant_leaf = Ok ([returned], w') /\
      height (tree (lookup w' returned)) <= max_height config_one /\
      height (tree (lookup w' 0)) = 3) /\
  (exists stats r hof w',
      execute_algorithm sample_division config_one sample_clock world_one
      = Ok ((stats, [r], hof), w') /\
      height (tree (lookup w' r)) = 3 /\
      max_height config_one < height (tree (lookup w' r))).
Proof.
  split.
  { unfold valid_config, rectangular, shape0, shape1; simpl.
    repeat split; try lia; repeat constructor. }
  split; [simpl; lia|]. split.
  - eexists. eexists. split; [vm_compute; reflexivity|].
    vm_compute. split; [lia|reflexivity].
  - eexists. eexists. eexists. eexists.
    split; [vm_compute; reflexivity|].
    vm_compute. split; [reflexivity|lia].
Qed.


(** * Further properties of the benchmark *)

(** ** A primitive set that does not fit the dataset *)

Lemma row_pred_real_arity
      (protected_div : Q -> Q -> Q) (n : nat) (body : expr)
      (data : DataFrame) (row : list Q) (rows : list (list Q)) :
  values data = row :: rows ->
  length row = columns data ->
  n <> shape1 data - 1 ->
  row_pred_real protected_div (Lambda n body) data 0 = Raise TypeError.
Proof.
  intros Hv Hlen Hn. unfold row_pred_real, getitem. rewrite Hv. simpl.
  rewrite length_firstn, Hlen.
  unfold shape1 in *.
  destruct (Nat.eqb_spec (Nat.min (columns data - 1) (columns data)) n) as [E|E].
  - exfalso. apply Hn. rewrite <- E. lia.
  - reflexivity.
Qed.

(** X3. When the primitive set has arguments, but not as many as the dataset
    has feature columns, the compiled function is called with the wrong
    number of arguments on the first row: each of the three evaluators
    raises TypeError, whatever the tree. *)
Theorem wrong_number_of_arguments_raises_TypeError
        (protected_div : Q -> Q -> Q) (pset : PrimitiveSet)
        (individual : expr) (data : DataFrame) :
  rectangular data ->
  1 <= shape0 data ->
  1 <= arguments pset ->
  arguments pset <> shape1 data - 1 ->
  fitness_function_ae protected_div pset individual data = Raise TypeError /\
  fitness_function_sse protected_div pset individual data = Raise TypeError /\
  fitness_function_mse protected_div pset individual data = Raise TypeError.
Proof.
  intros Hrect Hrows Hargs Hne.
  unfold fitness_function_ae, fitness_function_sse, fitness_function_mse,
    compile.
  destruct (arguments pset) as [|n] eqn:En; [lia|].
  unfold shape0 in *. unfold rectangular in Hrect.
  destruct (values data) as [|row rows] eqn:Hv; [simpl in Hrows; lia|].
  inversion Hrect as [|? ? Hlen _]; subst.
  pose proof (row_pred_real_arity protected_div (S n) individual data row rows
                Hv Hlen Hne) as Hrow.
  cbn [rbind length seq for_acc]. rewrite Hrow.
  repeat split; reflexivity.
Qed.

Lemma wrong_number_of_arguments_raises_TypeError_witness :
  fitness_function_ae sample_division (mkPset 2) tree_x dataset_two_rows
  = Raise TypeError /\
  fitness_function_sse sample_division (mkPset 2) tree_x dataset_two_rows
  = Raise TypeError /\
  fitness_function_mse sample_division (mkPset 2) tree_x dataset_two_rows
  = Raise TypeError.
Proof.
  apply (wrong_number_of_arguments_raises_TypeError
           sample_division (mkPset 2) tree_x dataset_two_rows).
  - repeat constructor.
  - unfold shape0; simpl; lia.
  - simpl; lia.
  - unfold shape1; simpl; lia.
Defined.


(** * Further properties of the generational loop *)

(** ** Scoring the population *)

Section Scoring.

Variable protected_div : Q -> Q -> Q.
Variable config : Config.
Hypothesis Hvalid : valid_config config.

Let n := arguments (pset config).

Let score (t : expr) : result (list Q) :=
  fitness_function_mse protected_div (pset config) t (training_data config).

Lemma wp_map_toolbox_evaluate (population : list ref) w :
  heap_closed n w ->
  wp (map_M (toolbox_evaluate protected_div config) population)
     (fun fitnesses w' =>
        w' = w /\
        Forall2 (fun r vals => exists mse, vals = [mse] /\
                                           score (tree (lookup w r)) = Ok [mse])
                population fitnesses) w.
Proof.
  intros Hc.
  apply (wp_map_M (toolbox_evaluate protected_div config)
           (fun xs ys w' =>
              w' = w /\
              Forall2 (fun r vals => exists mse, vals = [mse] /\
                                       score (tree (lookup w r)) = Ok [mse])
                      xs ys)).
  - intros xs x ys w' _ (-> & H).
    unfold toolbox_evaluate. wp_run.
    destruct (fitness_function_mse_total protected_div config Hvalid
                (tree (lookup w x)) (lookup_closed n w x Hc)) as [v Hv].
    rewrite Hv, wp_lift_ok. split; [reflexivity|].
    apply Forall2_app; [exact H|]. constructor; [|constructor].
    exists v. split; [reflexivity|exact Hv].
  - split; [reflexivity|constructor].
Qed.

Lemma wp_evaluate_all_scores (population : list ref) w :
  heap_closed n w ->
  Forall (fun r => r < length (heap w)) population ->
  wp (evaluate_all protected_div config population)
     (fun _ w' =>
        py_random w' = py_random w /\ np_random w' = np_random w /\
        length (heap w') = length (heap w) /\
        (forall r, tree (lookup w' r) = tree (lookup w r)) /\
        (forall r, ~ In r population -> lookup w' r = lookup w r) /\
        (forall r, In r population ->
                   exists mse, score (tree (lookup w r)) = Ok [mse] /\
                               wvalues (lookup w' r) = [(mse * -(1))%Q])) w.
Proof.
  intros Hc Hpop. unfold evaluate_all.
  wp_apply (wp_map_toolbox_evaluate population w Hc).
  intros fitnesses w0 (-> & Hfit).
  eapply wp_conseq.
  - apply (wp_for_M (fun (_ : unit) pf => set_fitness_values (fst pf) (snd pf))
             (fun rest _ w' =>
                Forall (fun pf => In (fst pf) population /\
                                  exists mse, snd pf = [mse] /\
                                    score (tree (lookup w (fst pf))) = Ok [mse])
                       rest /\
                py_random w' = py_random w /\ np_random w' = np_random w /\
                length (heap w') = length (heap w) /\
                (forall r, tree (lookup w' r) = tree (lookup w r)) /\
                (forall r, ~ In r population -> lookup w' r = lookup w r) /\
                (forall r, In r population ->
                           In r (map fst rest) \/
                           exists mse, score (tree (lookup w r)) = Ok [mse] /\
                                       wvalues (lookup w' r) = [(mse * -(1))%Q]))).
    + intros [r vals] rest _ w' (Hrest & Hpy & Hnp & Hlen & Ht & Hout & Hw).
      inversion Hrest as [|? ? [Hin [v [Hv Hs]]] Hrest']; subst.
      simpl in Hin, Hv, Hs. subst vals. simpl fst; simpl snd.
      unfold set_fitness_values. rewrite wp_bind, wp_deref, wp_store.
      set (w'' := mkWorld _ _ _).
      assert (E : heap w'' = update_nth (heap w') r
                    (mkInd (tree (lookup w' r)) [(v * -(1))%Q])) by reflexivity.
      assert (Hr : r < length (heap w')).
      { rewrite Hlen. rewrite Forall_forall in Hpop. apply Hpop. exact Hin. }
      split; [exact Hrest'|]. split; [exact Hpy|]. split; [exact Hnp|].
      split; [|split; [|split]].
      * rewrite (length_store _ _ _ _ E). exact Hlen.
      * intros r'. rewrite <- Ht.
        destruct (lookup_store _ _ _ _ r' E) as [->|(-> & _ & ->)]; reflexivity.
      * intros r' Hr'. rewrite <- (Hout r' Hr').
        apply (lookup_store_neq _ _ _ r' _ E). intros ->. contradiction.
      * intros r' Hr'. destruct (Nat.eq_dec r r') as [<-|Hne].
        -- right. exists v. split; [exact Hs|].
           rewrite (lookup_store_eq _ _ _ _ E Hr). reflexivity.
        -- destruct (Hw r' Hr') as [[H|H]|H].
           ++ simpl in H. congruence.
           ++ left. exact H.
           ++ right. rewrite (lookup_store_neq _ _ _ r' _ E Hne). exact H.
    + split; [|repeat (split; [reflexivity|])].
      * clear Hpop. apply Forall_forall. intros [r vals] Hin.
        induction Hfit as [|x y xs ys Hxy Hfit IH]; simpl in Hin; [contradiction|].
        destruct Hin as [Hin|Hin].
        -- inversion Hin; subst. simpl. split; [left; reflexivity|exact Hxy].
        -- destruct (IH Hin) as [H1 H2]. split; [right; exact H1|exact H2].
      * intros r Hr. left.
        rewrite map_fst_combine_le; [exact Hr|].
        rewrite (Forall2_length Hfit). apply Nat.le_refl.
  - cbv beta. intros _ w' (_ & Hpy & Hnp & Hlen & Ht & Hout & Hw).
    repeat (split; [assumption|]).
    intros r Hr. destruct (Hw r Hr) as [[]|H]. exact H.
Qed.

End Scoring.

(** X4. Scoring the population (lines 46-47) gives every member the mean
    squared error of its own tree on the training data as its fitness value,
    stored as one weighted value, the error multiplied by the weight -1.
    No tree changes, no other object changes and no random number is
    drawn. *)
Theorem evaluate_all_stores_each_members_error
        (protected_div : Q -> Q -> Q) (config : Config)
        (population : list ref) (w : world) :
  valid_config config ->
  heap_closed (arguments (pset config)) w ->
  Forall (fun r => r < length (heap w)) population ->
  exists w',
    evaluate_all protected_div config population w = Ok (tt, w') /\
    py_random w' = py_random w /\ np_random w' = np_random w /\
    (forall r, tree (lookup w' r) = tree (lookup w r)) /\
    (forall r, ~ In r population -> lookup w' r = lookup w r) /\
    (forall r, In r population ->
       exists mse v,
         fitness_function_mse protected_div (pset config)
                              (tree (lookup w r)) (training_data config)
         = Ok [mse] /\
         wvalues (lookup w' r) = [(mse * -(1))%Q] /\
         fitness_values (lookup w' r) = [v] /\ (v == mse)%Q).
Proof.
  intros Hvalid Hc Hpop.
  destruct (wp_ok _ _ _ (wp_evaluate_all_scores protected_div config Hvalid
                           population w Hc Hpop))
    as ([] & w' & Hrun & Hpy & Hnp & _ & Ht & Hout & Hw).
  exists w'. repeat (split; [assumption|]).
  intros r Hr. destruct (Hw r Hr) as (mse & Hs & Hwv).
  exists mse, (mse * -(1) / -(1))%Q.
  split; [exact Hs|]. split; [exact Hwv|]. split.
  - unfold fitness_values. rewrite Hwv. reflexivity.
  - field.
Qed.

Lemma evaluate_all_stores_each_members_error_witness :
  exists w',
    evaluate_all sample_division config_three [0; 1; 2] world_trio
    = Ok (tt, w') /\
    py_random w' = py_random world_trio /\
    np_random w' = np_random world_trio /\
    (forall r, tree (lookup w' r) = tree (lookup world_trio r)) /\
    (forall r, ~ In r [0; 1; 2] -> lookup w' r = lookup world_trio r) /\
    (forall r, In r [0; 1; 2] ->
       exists mse v,
         fitness_function_mse sample_division (pset config_three)
                              (tree (lookup world_trio r))
                              (training_data config_three)
         = Ok [mse] /\
         wvalues (lookup w' r) = [(mse * -(1))%Q] /\
         fitness_values (lookup w' r) = [v] /\ (v == mse)%Q).
Proof.
  apply (evaluate_all_stores_each_members_error
           sample_division config_three [0; 1; 2] world_trio).
  - unfold valid_config, rectangular, shape0, shape1; simpl.
    repeat split; try lia; repeat constructor.
  - unfold heap_closed; simpl. repeat constructor.
  - simpl. repeat constructor.
Defined.


(** X5. The initial population (line 35): [n] new objects, one after the
    other in the heap; each is an unscored tree of height 1 or 2, hence of 3
    to 7 nodes, over the arguments of the primitive set; the objects that
    existed before are unchanged. *)
Theorem initial_population_is_fresh
        (config : Config) (k : nat) (w : world) :
  exists pop w',
    toolbox_population config k w = Ok (pop, w') /\
    pop = seq (length (heap w)) k /\
    length (heap w') = length (heap w) + k /\
    (forall r, r < length (heap w) -> lookup w' r = lookup w r) /\
    Forall (fun r => fresh_individual (arguments (pset config)) (lookup w' r) /\
                     fitness_valid (lookup w' r) = false) pop.
Proof.
  destruct (wp_ok _ _ _ (wp_toolbox_population_fresh config k w))
    as (pop & w' & Hrun & Hpop & news & Hh & Hl & Hnews).
  exists pop, w'. split; [exact Hrun|]. split; [exact Hpop|]. split; [|split].
  - rewrite Hh, length_app, Hl. reflexivity.
  - intros r Hr. apply (lookup_app_old w w' news r Hh Hr).
  - subst pop. apply Forall_forall. intros r Hr. apply in_seq in Hr.
    replace r with (length (heap w) + (r - length (heap w))) by lia.
    rewrite (lookup_app_new w w' news _ Hh).
    assert (Hf : fresh_individual (arguments (pset config))
                   (nth (r - length (heap w)) news unset_individual)).
    { apply Forall_nth_default; [exact Hnews|lia]. }
    split; [exact Hf|]. apply fitness_valid_unset. apply Hf.
Qed.

(** ** Runs that end in an exception *)

Lemma bind_ok_eq {A B} (m : M A) (k : A -> M B) w a w' :
  m w = Ok (a, w') -> bind m k w = k a w'.
Proof. intros H. unfold bind. rewrite H. reflexivity. Qed.

Lemma bind_raise_eq {A B} (m : M A) (k : A -> M B) w e :
  m w = Raise e -> bind m k w = Raise e.
Proof. intros H. unfold bind. rewrite H. reflexivity. Qed.

(** When the evaluator fails on every tree over the arguments, the first
    generation fails on the first member of the population. *)
Lemma first_evaluation_raises
      (protected_div : Q -> Q -> Q) (config : Config) (time_clock : nat -> Q)
      (w : world) (e : exn) :
  1 <= size_population config ->
  1 <= num_generations config ->
  (forall t, closed (arguments (pset config)) t ->
             fitness_function_mse protected_div (pset config) t
                                  (training_data config) = Raise e) ->
  execute_algorithm protected_div config time_clock w = Raise e.
Proof.
  intros Hsize Hgen Hfail.
  destruct (wp_ok _ _ _ (wp_toolbox_population_fresh
                           config (size_population config) w))
    as (pop & w' & Hrun & Hpop & news & Hh & Hl & Hnews).
  unfold execute_algorithm. apply bind_raise_eq.
  unfold run_generations, initial_state.
  destruct (num_generations config) as [|g]; [lia|].
  unfold bind at 1. unfold bind at 1. rewrite Hrun. unfold ret at 1.
  cbn [seq for_M]. apply bind_raise_eq.
  unfold generation_step. cbv zeta. apply bind_raise_eq.
  unfold evaluate_phase. apply bind_raise_eq.
  unfold evaluate_all. apply bind_raise_eq.
  cbn [population].
  destruct (size_population config) as [|k]; [lia|].
  destruct news as [|ind news']; [discriminate|].
  subst pop. cbn [seq map_M]. apply bind_raise_eq.
  unfold toolbox_evaluate, bind, deref, lift.
  change (nth (length (heap w)) (heap w') unset_individual)
    with (lookup w' (length (heap w))).
  replace (length (heap w)) with (length (heap w) + 0) at 1 by lia.
  rewrite (lookup_app_new w w' _ 0 Hh). cbn [nth].
  inversion Hnews as [|? ? Hind _]; subst.
  rewrite (Hfail (tree ind)); [reflexivity|]. apply Hind.
Qed.

Lemma mse_without_rows (protected_div : Q -> Q -> Q) (pset : PrimitiveSet)
      (t : expr) (data : DataFrame) :
  closed (arguments pset) t ->
  shape0 data = 0 ->
  fitness_function_mse protected_div pset t data = Raise ZeroDivisionError.
Proof.
  intros Hc Hrows. unfold fitness_function_mse, compile.
  rewrite Hrows. cbn [seq for_acc].
  destruct (arguments pset) as [|k] eqn:E.
  - rewrite (eval_expr_closed protected_div [] t Hc). reflexivity.
  - reflexivity.
Qed.

Lemma mse_without_arguments (protected_div : Q -> Q -> Q) (pset : PrimitiveSet)
      (t : expr) (data : DataFrame) :
  arguments pset = 0 ->
  closed (arguments pset) t ->
  1 <= shape0 data ->
  fitness_function_mse protected_div pset t data = Raise TypeError.
Proof.
  intros Hargs Hc Hrows. unfold fitness_function_mse, compile.
  rewrite Hargs in *.
  rewrite (eval_expr_closed protected_div [] t Hc). cbn [rbind].
  unfold shape0 in *.
  destruct (values data) as [|row rows] eqn:Hv; [simpl in Hrows; lia|].
  cbn [length seq for_acc]. unfold row_pred_real, getitem. rewrite Hv.
  reflexivity.
Qed.

(** X6. A training dataset without rows: with a population and at least
    one generation, the run ends in the ZeroDivisionError of the first
    evaluation, whatever the number of columns. *)
Theorem run_on_a_dataset_without_rows_raises_ZeroDivisionError
        (protected_div : Q -> Q -> Q) (config : Config)
        (time_clock : nat -> Q) (w : world) :
  1 <= size_population config ->
  1 <= num_generations config ->
  shape0 (training_data config) = 0 ->
  execute_algorithm protected_div config time_clock w
  = Raise ZeroDivisionError.
Proof.
  intros Hsize Hgen Hrows.
  apply first_evaluation_raises; [exact Hsize|exact Hgen|].
  intros t Hc. apply mse_without_rows; assumption.
Qed.

Lemma run_on_a_dataset_without_rows_raises_ZeroDivisionError_witness :
  execute_algorithm sample_division
    (mkConfig 3 2 (1 # 2) (1 # 2) 2 (-(1)) 1 empty_dataset)
    sample_clock world_three
  = Raise ZeroDivisionError.
Proof.
  apply (run_on_a_dataset_without_rows_raises_ZeroDivisionError
           sample_division
           (mkConfig 3 2 (1 # 2) (1 # 2) 2 (-(1)) 1 empty_dataset)
           sample_clock world_three).
  - simpl; lia.
  - simpl; lia.
  - reflexivity.
Defined.

(** X7. A training dataset with rows but without a feature column (at most
    the target column): the primitive set has no argument, [gp.compile]
    returns the value of the expression and not a function, and the run,
    with a population and at least one generation, ends in the TypeError of
    calling that value on the first row. *)
Theorem run_on_a_dataset_without_features_raises_TypeError
        (protected_div : Q -> Q -> Q) (config : Config)
        (time_clock : nat -> Q) (w : world) :
  1 <= size_population config ->
  1 <= num_generations config ->
  1 <= shape0 (training_data config) ->
  shape1 (training_data config) <= 1 ->
  execute_algorithm protected_div config time_clock w = Raise TypeError.
Proof.
  intros Hsize Hgen Hrows Hcols.
  apply first_evaluation_raises; [exact Hsize|exact Hgen|].
  intros t Hc. apply mse_without_arguments; [|exact Hc|exact Hrows].
  unfold pset. simpl. lia.
Qed.

Lemma run_on_a_dataset_without_features_raises_TypeError_witness :
  execute_algorithm sample_division
    (mkConfig 3 2 (1 # 2) (1 # 2) 2 (-(1)) 1 (mkData [[1%Q]; [2%Q]] 1))
    sample_clock world_three
  = Raise TypeError.
Proof.
  apply (run_on_a_dataset_without_features_raises_TypeError
           sample_division
           (mkConfig 3 2 (1 # 2) (1 # 2) 2 (-(1)) 1 (mkData [[1%Q]; [2%Q]] 1))
           sample_clock world_three).
  - simpl; lia.
  - simpl; lia.
  - unfold shape0; simpl; lia.
  - unfold shape1; simpl; lia.
Defined.

(** X8. An empty population (size 0) with at least one generation: nothing
    is scored, the hall of fame finds no individual to hold, and the run
    ends in an IndexError. *)
Theorem run_with_an_empty_population_raises_IndexError
        (protected_div : Q -> Q -> Q) (config : Config)
        (time_clock : nat -> Q) (w : world) :
  size_population config = 0 ->
  1 <= num_generations config ->
  execute_algorithm protected_div config time_clock w = Raise IndexError.
Proof.
  intros Hsize Hgen.
  unfold execute_algorithm. apply bind_raise_eq.
  unfold run_generations, initial_state, toolbox_population.
  rewrite Hsize.
  destruct (num_generations config) as [|g]; [lia|].
  reflexivity.
Qed.

Lemma run_with_an_empty_population_raises_IndexError_witness :
  execute_algorithm sample_division
    (mkConfig 0 2 (1 # 2) (1 # 2) 2 (-(1)) 1 dataset_two_rows)
    sample_clock world_three
  = Raise IndexError.
Proof.
  apply (run_with_an_empty_population_raises_IndexError
           sample_division
           (mkConfig 0 2 (1 # 2) (1 # 2) 2 (-(1)) 1 dataset_two_rows)
           sample_clock world_three).
  - reflexivity.
  - simpl; lia.
Defined.

(** X9. No generation ([num_generations = 0]): the run returns no record,
    the initial population as [toolbox.population] made it, unscored, and
    an empty hall of fame. *)
Theorem run_without_generations_returns_the_initial_population
        (protected_div : Q -> Q -> Q) (config : Config)
        (time_clock : nat -> Q) (w : world) :
  num_generations config = 0 ->
  exists pop w',
    execute_algorithm protected_div config time_clock w
    = Ok (([], pop, mkHof 1 [] []), w') /\
    toolbox_population config (size_population config) w = Ok (pop, w') /\
    length pop = size_population config /\
    Forall (fun r => fitness_valid (lookup w' r) = false) pop.
Proof.
  intros Hgen.
  destruct (wp_ok _ _ _ (wp_toolbox_population_fresh
                           config (size_population config) w))
    as (pop & w' & Hrun & Hpop & news & Hh & Hl & Hnews).
  exists pop, w'. split; [|split; [exact Hrun|split]].
  - unfold execute_algorithm, run_generations, initial_state.
    rewrite Hgen. unfold bind. rewrite Hrun. reflexivity.
  - subst pop. apply length_seq.
  - subst pop. apply Forall_forall. intros r Hr. apply in_seq in Hr.
    replace r with (length (heap w) + (r - length (heap w))) by lia.
    rewrite (lookup_app_new w w' news _ Hh).
    apply fitness_valid_unset.
    apply (Forall_nth_default
             (fresh_individual (arguments (pset config))) news
             (r - length (heap w)) unset_individual Hnews). lia.
Qed.

Lemma run_without_generations_returns_the_initial_population_witness :
  exists pop w',
    execute_algorithm sample_division
      (mkConfig 3 0 (1 # 2) (1 # 2) 2 (-(1)) 1 dataset_two_rows)
      sample_clock world_three
    = Ok (([], pop, mkHof 1 [] []), w') /\
    toolbox_population
      (mkConfig 3 0 (1 # 2) (1 # 2) 2 (-(1)) 1 dataset_two_rows) 3 world_three
    = Ok (pop, w') /\
    length pop = 3 /\
    Forall (fun r => fitness_valid (lookup w' r) = false) pop.
Proof.
  apply (run_without_generations_returns_the_initial_population
           sample_division
           (mkConfig 3 0 (1 # 2) (1 # 2) 2 (-(1)) 1 dataset_two_rows)
           sample_clock world_three).
  reflexivity.
Defined.


(** ** The variation phase *)

(** X10. Selection, cloning, crossover and mutation (lines 57-71) change no
    object that existed before: the members of the current population and
    the archived individual keep their trees and their fitness, and the
    offspring are [size_population] objects created during the phase. *)
Theorem variation_changes_no_existing_object
        (config : Config) (population : list ref) (w : world) :
  population <> [] ->
  Forall (fun r => r < length (heap w)) population ->
  exists next_gen w',
    variation_phase config population w = Ok (next_gen, w') /\
    length next_gen = size_population config /\
    Forall (fun r => length (heap w) <= r < length (heap w')) next_gen /\
    (forall r, r < length (heap w) -> lookup w' r = lookup w r).
Proof.
  intros Hne Hpop.
  destruct (wp_ok _ _ _ (wp_variation_phase config population w Hne Hpop))
    as (next_gen & w' & Hrun & Hlen & Hrange & Hg).
  exists next_gen, w'. split; [exact Hrun|]. split; [exact Hlen|]. split.
  - exact Hrange.
  - intros r Hr.
    apply (grows_lookup _ _ w w' r Hg Hr). lia.
Qed.

Lemma variation_changes_no_existing_object_witness :
  exists next_gen w',
    variation_phase config_three [0; 1; 2] world_trio = Ok (next_gen, w') /\
    length next_gen = 3 /\
    Forall (fun r => 3 <= r < length (heap w')) next_gen /\
    (forall r, r < 3 -> lookup w' r = lookup world_trio r).
Proof.
  apply (variation_changes_no_existing_object config_three [0; 1; 2]
           world_trio).
  - discriminate.
  - simpl. repeat constructor.
Defined.

(** *** Probabilities at the ends of the unit interval *)

Lemma unit_float_nonneg (raw : N) : (0 <= unit_float raw)%Q.
Proof.
  unfold unit_float, Qle. cbn [Qnum Qden].
  rewrite Z.mul_0_l, Z.mul_1_r. apply N2Z.is_nonneg.
Qed.

Lemma Qlt_bool_unit_float_nonpos (p : Q) (raw : N) :
  (p <= 0)%Q -> Qlt_bool (unit_float raw) p = false.
Proof.
  intros Hp. unfold Qlt_bool.
  assert (H : Qle_bool p (unit_float raw) = true).
  { apply Qle_bool_iff. apply (Qle_trans _ 0); [exact Hp|apply unit_float_nonneg]. }
  rewrite H. reflexivity.
Qed.

Section NoOperator.

Variable config : Config.

Lemma wp_crossover_loop_never (next_gen : list ref) w :
  (prob_crossover config <= 0)%Q ->
  wp (crossover_loop config next_gen)
     (fun next_gen' w' => next_gen' = next_gen /\ heap w' = heap w) w.
Proof.
  intros Hp. unfold crossover_loop.
  eapply wp_conseq.
  - apply (wp_for_M (crossover_step config)
             (fun _ acc w' => acc = next_gen /\ heap w' = heap w)).
    + intros i rest acc w' (-> & Hh). unfold crossover_step.
      wp_apply wp_np_random_random. intros u w'' (Hh' & _ & ->).
      rewrite (Qlt_bool_unit_float_nonpos _ _ Hp). rewrite wp_ret.
      split; [reflexivity|congruence].
    + split; reflexivity.
  - cbv beta. auto.
Qed.

Lemma wp_mutation_loop_never (next_gen : list ref) w :
  (prob_mutation config <= 0)%Q ->
  wp (mutation_loop config next_gen) (fun _ w' => heap w' = heap w) w.
Proof.
  intros Hp. unfold mutation_loop.
  eapply wp_conseq.
  - apply (wp_for_M (fun (_ : unit) mutant => mutation_step config mutant)
             (fun _ _ w' => heap w' = heap w)).
    + intros r rest acc w' Hh. unfold mutation_step.
      wp_apply wp_np_random_random. intros u w'' (Hh' & _ & ->).
      rewrite (Qlt_bool_unit_float_nonpos _ _ Hp). rewrite wp_ret.
      congruence.
    + reflexivity.
  - cbv beta. auto.
Qed.

End NoOperator.

(** X11. The operators are applied when a draw of [[0, 1)] is strictly
    below the probability: with probabilities of crossover and mutation of
    0 (or less) no operator is ever applied, and every offspring is an
    exact copy, tree and fitness values, of a member of the population. *)
Theorem variation_with_zero_probabilities_only_copies
        (config : Config) (population : list ref) (w : world) :
  (prob_crossover config <= 0)%Q ->
  (prob_mutation config <= 0)%Q ->
  population <> [] ->
  Forall (fun r => r < length (heap w)) population ->
  exists next_gen w',
    variation_phase config population w = Ok (next_gen, w') /\
    length next_gen = size_population config /\
    Forall (fun r => length (heap w) <= r /\
                     exists p, In p population /\ lookup w' r = lookup w p)
           next_gen.
Proof.
  intros Hpc Hpm Hne Hpop.
  assert (H : wp (variation_phase config population)
                (fun next_gen w' =>
                   length next_gen = size_population config /\
                   Forall (fun r => length (heap w) <= r /\
                             exists p, In p population /\
                                       lookup w' r = lookup w p)
                          next_gen) w).
  { unfold variation_phase, toolbox_select.
    wp_apply wp_selTournament; [exact Hne|apply Nat.lt_0_succ|].
    intros sel w1 (Hh1 & Hlsel & Hsel).
    assert (Hsel1 : Forall (fun r => r < length (heap w1)) sel).
    { rewrite Hh1. eapply Forall_impl; [|exact Hsel].
      rewrite Forall_forall in Hpop. exact Hpop. }
    wp_apply (wp_map_deepcopy sel w1 Hsel1).
    intros clones w2 (Hclones & Hh2 & _).
    wp_apply (wp_crossover_loop_never config clones w2 Hpc).
    intros ng w3 (-> & Hh3).
    wp_apply (wp_mutation_loop_never config clones w3 Hpm).
    intros _ w4 Hh4. wp_run.
    split; [rewrite Hclones, length_seq; exact Hlsel|].
    rewrite Hclones. apply Forall_forall. intros r Hr. apply in_seq in Hr.
    rewrite Hh1 in *. split; [lia|].
    exists (nth (r - length (heap w)) sel 0). split.
    - rewrite Forall_forall in Hsel. apply Hsel. apply nth_In. lia.
    - assert (E4 : heap w4 = heap w1 ++ map (lookup w1) sel) by congruence.
      replace r with (length (heap w1) + (r - length (heap w))) at 1
        by (rewrite Hh1; lia).
      rewrite (lookup_app_new w1 w4 _ _ E4).
      rewrite (nth_indep _ unset_individual (lookup w1 0))
        by (rewrite length_map; lia).
      rewrite map_nth. apply lookup_same_heap. exact Hh1. }
  destruct (wp_ok _ _ _ H) as (next_gen & w' & Hrun & Hlen & Hcopies).
  exists next_gen, w'. auto.
Qed.

Lemma variation_with_zero_probabilities_only_copies_witness :
  exists next_gen w',
    variation_phase (mkConfig 3 2 0 0 2 (-(1)) 1 dataset_two_rows)
                    [0; 1; 2] world_trio
    = Ok (next_gen, w') /\
    length next_gen = 3 /\
    Forall (fun r => 3 <= r /\
                     exists p, In p [0; 1; 2] /\
                               lookup w' r = lookup world_trio p)
           next_gen.
Proof.
  apply (variation_with_zero_probabilities_only_copies
           (mkConfig 3 2 0 0 2 (-(1)) 1 dataset_two_rows) [0; 1; 2]
           world_trio).
  - simpl. apply Qle_refl.
  - simpl. apply Qle_refl.
  - discriminate.
  - simpl. repeat constructor.
Defined.


(** ** How far a mutation can grow a tree *)

Lemma len_replace_subtree (s : expr) (t : expr) :
  forall i, i < len t ->
            len (replace_subtree t i s) + len (subtree t i) = len t + len s.
Proof.
  induction t as [k|c|p a IHa b IHb]; intros [|j] Hi; simpl in *; try lia.
  destruct (Nat.ltb_spec j (len a)) as [Hj|Hj]; simpl.
  - specialize (IHa j Hj). lia.
  - assert (Hb : j - len a < len b) by lia.
    specialize (IHb (j - len a) Hb). lia.
Qed.

Lemma height_replace_subtree (s : expr) (t : expr) :
  forall i, height (replace_subtree t i s) <= height t + height s.
Proof.
  induction t as [k|c|p a IHa b IHb]; intros [|j]; simpl; try lia.
  destruct (j <? len a); simpl.
  - specialize (IHa j). lia.
  - specialize (IHb (j - len a)). lia.
Qed.

(** X12. One turn of the mutation loop (lines 68-71) makes the mutant's
    tree higher by at most 2 and larger by at most 6 nodes, whatever the
    height limit, and changes no other object that existed. *)
Theorem mutation_step_grows_the_tree_by_at_most_two
        (config : Config) (mutant : ref) (w : world) :
  mutant < length (heap w) ->
  exists w',
    mutation_step config mutant w = Ok (tt, w') /\
    height (tree (lookup w' mutant)) <= height (tree (lookup w mutant)) + 2 /\
    len (tree (lookup w' mutant)) <= len (tree (lookup w mutant)) + 6 /\
    (forall r, r < length (heap w) -> r <> mutant ->
               lookup w' r = lookup w r).
Proof.
  intros Hm.
  destruct (wp_ok _ _ _ (wp_mutation_step config mutant w Hm))
    as ([] & w' & Hrun & H).
  exists w'. split; [exact Hrun|]. cbv zeta in H.
  destruct H as [(_ & Hh)|(_ & index & h & sub & _ & Hi & Hh2 & Hfull & Hlk & _ & _ & Hg)].
  - rewrite (lookup_same_heap w w' mutant Hh).
    split; [lia|]. split; [lia|].
    intros r _ _. apply lookup_same_heap. exact Hh.
  - rewrite Hlk. cbn [tree].
    pose proof (full_tree_height h sub Hfull) as Hsub.
    split; [|split].
    + pose proof (height_replace_subtree sub (tree (lookup w mutant)) index).
      lia.
    + pose proof (len_replace_subtree sub (tree (lookup w mutant)) index Hi)
        as Hlen.
      pose proof (len_pos (subtree (tree (lookup w mutant)) index)).
      pose proof (len_height_bound sub) as Hb.
      assert (Hpow : 2 ^ S (height sub) <= 2 ^ 3)
        by (apply Nat.pow_le_mono_r; lia).
      change (2 ^ 3) with 8 in Hpow. lia.
    + intros r Hr Hne. apply (grows_lookup _ _ w w' r Hg Hr). exact Hne.
Qed.

Lemma mutation_step_grows_the_tree_by_at_most_two_witness :
  exists w',
    mutation_step config_one 0 world_mutant_leaf = Ok (tt, w') /\
    height (tree (lookup w' 0)) <= height (tree (lookup world_mutant_leaf 0)) + 2 /\
    len (tree (lookup w' 0)) <= len (tree (lookup world_mutant_leaf 0)) + 6 /\
    (forall r, r < length (heap world_mutant_leaf) -> r <> 0 ->
               lookup w' r = lookup world_mutant_leaf r).
Proof.
  apply (mutation_step_grows_the_tree_by_at_most_two config_one 0
           world_mutant_leaf).
  simpl. lia.
Defined.

(** ** The height limit in the crossover loop *)

Section CrossoverLimit.

Variable config : Config.

Let n := arguments (pset config).
Let size := size_population config.
Let limit := max_height config.

(** In the heap and within the height limit. *)
Let within (w : world) (r : ref) : Prop :=
  r < length (heap w) /\ height (tree (lookup w r)) <= limit.

Lemma wp_crossover_loop_limit (next_gen : list ref) w :
  length next_gen = size ->
  NoDup next_gen ->
  Forall (within w) next_gen ->
  wp (crossover_loop config next_gen)
     (fun next_gen' w' =>
        length next_gen' = size /\
        forall k, k < size -> within w' (nth k next_gen' 0)) w.
Proof.
  intros Hlen Hnodup Hwithin. unfold crossover_loop.
  eapply wp_conseq.
  - apply (wp_for_M (crossover_step config)
             (fun rest cur w' =>
                length cur = size /\
                (forall k, k < size -> within w' (nth k cur 0)) /\
                Forall (fun i => i < size) rest /\
                exists j,
                  rest = map (fun k => 1 + 2 * k) (seq j (length rest)) /\
                  forall k1 k2, 2 * j <= k1 < size -> k2 < size -> k1 <> k2 ->
                                nth k1 cur 0 <> nth k2 cur 0)).
    + intros i rest cur w' (Hl & Hin & Hrest & j & Hj & Huniq).
      inversion Hrest as [|? ? Hi Hrest']; subst.
      cbn [length seq map] in Hj. injection Hj as Hi2 Hj'.
      assert (Hi1 : i - 1 = 2 * j) by lia.
      assert (Hpos : 1 <= i < length cur) by lia.
      destruct (Hin (i - 1)) as [Ha1 Ha2]; [lia|].
      destruct (Hin i Hi) as [Hb1 Hb2].
      eapply wp_conseq;
        [apply (wp_crossover_step config cur i w' Hpos Ha1 Hb1)|].
      cbv beta zeta.
      intros cur' w'' [(_ & -> & Hh)|(_ & c1 & c2 & -> & Hlen2 & Hg & Ht1 & Ht2 & _ & _ & Hc1 & Hc2)].
      * split; [exact Hl|]. split; [|split; [exact Hrest'|]].
        -- intros k Hk. destruct (Hin k Hk) as [H1 H2].
           unfold within. rewrite (lookup_same_heap w' w'' _ Hh), Hh. auto.
        -- exists (S j). split; [exact Hj'|].
           intros k1 k2 Hk1 Hk2 Hne. apply Huniq; [lia|exact Hk2|exact Hne].
      * assert (Hcopy : forall o c,
                   within w' o ->
                   (o = nth (i - 1) cur 0 \/ o = nth i cur 0) ->
                   limited limit [length (heap w'); length (heap w') + 1] w'' o c ->
                   within w'' c /\
                   (c = o \/ length (heap w') <= c)).
        { intros o c [Ho1 Ho2] Hoab [[-> Hhc]|[_ Hkeep]].
          - split; [|left; reflexivity]. split; [lia|exact Hhc].
          - assert (Htrees : height (tree (lookup w'' (length (heap w')))) <= limit /\
                             height (tree (lookup w'' (length (heap w') + 1))) <= limit).
            { rewrite Ht1, Ht2. auto. }
            destruct Hkeep as [<-|[<-|[]]]; (split; [split|right]); try lia;
              apply Htrees. }
        destruct (Hcopy _ c1 (conj Ha1 Ha2) (or_introl eq_refl) Hc1) as [Hw1 Ho1].
        destruct (Hcopy _ c2 (conj Hb1 Hb2) (or_intror eq_refl) Hc2) as [Hw2 Ho2].
        assert (Hnth : forall k, k < size ->
                  nth k (update_nth (update_nth cur (i - 1) c1) i c2) 0
                  = if k =? i then c2 else if k =? i - 1 then c1 else nth k cur 0).
        { intros k Hk. destruct (Nat.eqb_spec k i) as [->|Hki].
          - apply nth_update_nth_eq. rewrite length_update_nth. lia.
          - rewrite nth_update_nth_neq by congruence.
            destruct (Nat.eqb_spec k (i - 1)) as [->|Hki1].
            + apply nth_update_nth_eq. lia.
            + apply nth_update_nth_neq. congruence. }
        split; [rewrite !length_update_nth; exact Hl|].
        split; [|split; [exact Hrest'|]].
        -- intros k Hk. rewrite (Hnth k Hk).
           destruct (Nat.eqb_spec k i) as [->|Hki]; [exact Hw2|].
           destruct (Nat.eqb_spec k (i - 1)) as [->|Hki1]; [exact Hw1|].
           destruct (Hin k Hk) as [H1 H2].
           assert (Hsame : lookup w'' (nth k cur 0) = lookup w' (nth k cur 0)).
           { apply (grows_lookup _ _ w' w'' _ Hg H1).
             intros [E|E]; symmetry in E; revert E.
             - apply Huniq; [lia|exact Hk|congruence].
             - apply Huniq; [lia|exact Hk|congruence]. }
           unfold within. rewrite Hsame. split; [lia|exact H2].
        -- exists (S j). split; [exact Hj'|].
           intros k1 k2 Hk1 Hk2 Hne.
           rewrite (Hnth k1) by lia. rewrite (Hnth k2 Hk2).
           destruct (Nat.eqb_spec k1 i) as [?|_]; [lia|].
           destruct (Nat.eqb_spec k1 (i - 1)) as [?|_]; [lia|].
           destruct (Hin k1) as [Hk1h _]; [lia|].
           destruct (Nat.eqb_spec k2 i) as [->|Hk2i].
           ++ destruct Ho2 as [->|Hnew]; [|lia].
              apply Huniq; [lia|exact Hi|exact Hne].
           ++ destruct (Nat.eqb_spec k2 (i - 1)) as [->|Hk2i1].
              ** destruct Ho1 as [->|Hnew]; [|lia].
                 apply Huniq; [lia|lia|exact Hne].
              ** apply Huniq; [lia|exact Hk2|exact Hne].
    + split; [exact Hlen|]. split; [|split].
      * intros k Hk. apply Forall_nth_default; [exact Hwithin|lia].
      * apply Forall_forall. intros i Hi.
        apply (py_range_1_2 size i Hi).
      * exists 0. split.
        -- unfold py_range. rewrite length_map, length_seq. reflexivity.
        -- intros k1 k2 Hk1 Hk2 Hne E. apply Hne.
           apply (proj1 (NoDup_nth next_gen 0) Hnodup); [lia|lia|exact E].
  - cbv beta. intros next_gen' w' (Hl & Hin & _). auto.
Qed.

End CrossoverLimit.

(** X13. The crossover loop (lines 61-65) keeps the height limit: when the
    offspring are distinct objects none of which is higher than
    [max_height], none of the offspring after the loop is; the results of
    [toolbox.mate] are stored, so the copies the limit returns take the
    place of the crossed individuals that exceed it. *)
Theorem crossover_loop_keeps_the_height_limit
        (config : Config) (next_gen : list ref) (w : world) :
  length next_gen = size_population config ->
  NoDup next_gen ->
  Forall (fun r => r < length (heap w) /\
                   height (tree (lookup w r)) <= max_height config)
         next_gen ->
  exists next_gen' w',
    crossover_loop config next_gen w = Ok (next_gen', w') /\
    length next_gen' = length next_gen /\
    Forall (fun r => r < length (heap w') /\
                     height (tree (lookup w' r)) <= max_height config)
           next_gen'.
Proof.
  intros Hlen Hnodup Hwithin.
  destruct (wp_ok _ _ _ (wp_crossover_loop_limit config next_gen w
                           Hlen Hnodup Hwithin))
    as (next_gen' & w' & Hrun & Hl & Hin).
  exists next_gen', w'. split; [exact Hrun|]. split; [congruence|].
  apply Forall_forall. intros r Hr.
  destruct (In_nth next_gen' r 0 Hr) as (k & Hk & <-).
  apply Hin. lia.
Qed.

Lemma crossover_loop_keeps_the_height_limit_witness :
  exists next_gen' w',
    crossover_loop config_three [0; 1; 2] world_trio = Ok (next_gen', w') /\
    length next_gen' = 3 /\
    Forall (fun r => r < length (heap w') /\
                     height (tree (lookup w' r)) <= 2)
           next_gen'.
Proof.
  apply (crossover_loop_keeps_the_height_limit config_three [0; 1; 2]
           world_trio).
  - reflexivity.
  - repeat constructor; simpl; intuition lia.
  - simpl. repeat constructor.
Defined.


(** ** What a generation records *)

Lemma wp_and {A} (m : M A) (Q1 Q2 : A -> world -> Prop) w :
  wp m Q1 w -> wp m Q2 w -> wp m (fun a w' => Q1 a w' /\ Q2 a w') w.
Proof.
  unfold wp. destruct (m w) as [[a w']|e]; [auto|contradiction].
Qed.

Section Records.

Variable protected_div : Q -> Q -> Q.
Variable config : Config.
Variable time_clock : nat -> Q.
Hypothesis Hvalid : valid_config config.

Let n := arguments (pset config).

Let score (t : expr) : result (list Q) :=
  fitness_function_mse protected_div (pset config) t (training_data config).

(** The two lists of a generation: the fitness of every member is the
    error of its tree, its size the number of its nodes. *)
Lemma wp_evaluate_phase_lists g st w :
  loop_invariant config g st w ->
  wp (evaluate_phase protected_div config (population st) (halloffame st))
     (fun r w1 =>
        let '(hof1, fits, size) := r in
        Forall2 (fun r v => exists mse, score (tree (lookup w r)) = Ok [mse] /\
                                        (v == mse)%Q)
                (population st) fits /\
        size = map (fun r => len (tree (lookup w r))) (population st)) w.
Proof.
  intros (Hlen & Hpop & Hclosed & _ & Harch).
  assert (Hne : population st <> []).
  { destruct Hvalid as (Hsize & _). intros E. rewrite E in Hlen.
    simpl in Hlen. lia. }
  unfold evaluate_phase.
  wp_apply (wp_evaluate_all_scores protected_div config Hvalid
              (population st) w Hclosed Hpop).
  intros _ we (_ & _ & Hlene & Hte & Houte & Hwe).
  assert (Hpope : Forall (fun r => r < length (heap we) /\
                                   exists x, wvalues (lookup we r) = [x])
                         (population st)).
  { apply Forall_forall. intros r Hr. split.
    - rewrite Hlene. rewrite Forall_forall in Hpop. apply Hpop. exact Hr.
    - destruct (Hwe r Hr) as (mse & _ & H). eauto. }
  wp_apply (wp_hof_update n (halloffame st) (population st) we Hne Hpope).
  { destruct Harch as [[_ ->]|(_ & h & -> & Hh & Hnin & a & Ha)].
    - left. reflexivity.
    - right. exists h. split; [reflexivity|]. split; [lia|].
      exists a. rewrite (Houte h Hnin). exact Ha. }
  intros hof1 w1 (h' & -> & _ & Hg1 & _ & _).
  assert (Hlk1 : forall r, In r (population st) -> lookup w1 r = lookup we r).
  { intros r Hr. rewrite Forall_forall in Hpope.
    apply (grows_lookup n _ we w1 r Hg1); [apply Hpope; exact Hr|auto]. }
  wp_apply (wp_map_M _
              (fun (xs : list nat) (ys : list Q) w' =>
                 w' = w1 /\
                 Forall2 (fun r v => exists mse,
                              score (tree (lookup w r)) = Ok [mse] /\
                              (v == mse)%Q) xs ys)).
  { intros xs x ys w' [rest Hrest] (-> & Hxy). wp_run.
    assert (Hx : In x (population st)).
    { rewrite Hrest. apply in_or_app. right. left. reflexivity. }
    destruct (Hwe x Hx) as (mse & Hs & Hv).
    unfold fitness_values. rewrite (Hlk1 x Hx), Hv. simpl.
    unfold getitem; simpl. rewrite wp_lift_ok.
    split; [reflexivity|].
    apply Forall2_app; [exact Hxy|]. constructor; [|constructor].
    exists mse. split; [exact Hs|]. field. }
  { split; [reflexivity|constructor]. }
  intros fits w' (-> & Hfits).
  wp_apply (wp_map_M _
              (fun (xs : list nat) (ys : list nat) w' =>
                 w' = w1 /\
                 ys = map (fun r => len (tree (lookup w r))) xs)).
  { intros xs x ys w' [rest Hrest] (-> & ->). wp_run.
    assert (Hx : In x (population st)).
    { rewrite Hrest. apply in_or_app. right. left. reflexivity. }
    split; [reflexivity|].
    rewrite map_app. simpl. rewrite (Hlk1 x Hx), Hte. reflexivity. }
  { split; reflexivity. }
  intros size w' (-> & ->). wp_run.
  split; [exact Hfits|reflexivity].
Qed.

Lemma generation_step_record g st w :
  loop_invariant config g st w ->
  exists next_gen w' h' fits size,
    generation_step protected_div config time_clock st g w
    = Ok (mkState next_gen (mkHof 1 [h'] [h'])
            (statistics st ++
               [mkRecord g (time_clock (2 * g + 1)%nat - time_clock (2 * g)%nat)%Q
                         fits size (lookup w' h')
                         (Lambda n (tree (lookup w' h')))]), w') /\
    Forall2 (fun r v => exists mse, score (tree (lookup w r)) = Ok [mse] /\
                                    (v == mse)%Q)
            (population st) fits /\
    size = map (fun r => len (tree (lookup w r))) (population st) /\
    exists b, wvalues (lookup w' h') = [b].
Proof.
  intros Hinv.
  destruct (wp_ok _ _ _ (wp_and _ _ _ _
                           (wp_evaluate_phase protected_div config Hvalid g st w Hinv)
                           (wp_evaluate_phase_lists g st w Hinv)))
    as ([[hof1 fits] size] & w1 & Heval &
        (h' & -> & Hh' & Hnin & Hc1 & Hpop1 & (b & Hb & _)) & Hfits & Hsize).
  destruct Hinv as (Hlen & Hpop & Hclosed & Hstats & Harch).
  assert (Hne : population st <> []).
  { destruct Hvalid as (Hsz & _). intros E. rewrite E in Hlen.
    simpl in Hlen. lia. }
  destruct (wp_ok _ _ _ (wp_variation_phase config (population st) w1 Hne Hpop1))
    as (next_gen & w2 & Hvar & Hlng & Hrng & Hg2).
  assert (Hlk : lookup w2 h' = lookup w1 h').
  { apply (grows_lookup n _ w1 w2 h' Hg2 Hh'). lia. }
  exists next_gen, w2, h', fits, size.
  split; [|split; [exact Hfits|split; [exact Hsize|]]].
  - unfold generation_step, bind. rewrite Heval, Hvar. simpl.
    rewrite (toolbox_compile_ok protected_div config Hvalid).
    simpl. reflexivity.
  - exists b. rewrite Hlk. exact Hb.
Qed.

End Records.

(** X14. What a generation records (lines 53-54 and 79-80), at any
    boundary of the loop on a valid configuration: the generation index,
    the difference of the two clock readings, for every member of the
    population in order the mean squared error of its tree and the number
    of its nodes, as best individual the one the hall of fame holds after
    the generation, with its fitness set, and that individual's tree
    compiled. *)
Theorem generation_record_contents
        (protected_div : Q -> Q -> Q) (config : Config)
        (time_clock : nat -> Q) (g : nat) (st : loop_state) (w : world) :
  valid_config config ->
  loop_invariant config g st w ->
  exists st' w' record best_ref,
    generation_step protected_div config time_clock st g w = Ok (st', w') /\
    statistics st' = statistics st ++ [record] /\
    generation record = g /\
    duration record = (time_clock (2 * g + 1)%nat - time_clock (2 * g)%nat)%Q /\
    Forall2 (fun r v =>
               exists mse,
                 fitness_function_mse protected_div (pset config)
                   (tree (lookup w r)) (training_data config) = Ok [mse] /\
                 (v == mse)%Q)
            (population st) (fitness_list record) /\
    size_list record = map (fun r => len (tree (lookup w r))) (population st) /\
    items (halloffame st') = [best_ref] /\
    best record = lookup w' best_ref /\
    fitness_valid (best record) = true /\
    best_compiled record
    = Lambda (arguments (pset config)) (tree (best record)).
Proof.
  intros Hvalid Hinv.
  destruct (generation_step_record protected_div config time_clock Hvalid
              g st w Hinv)
    as (next_gen & w' & h' & fits & size & Hrun & Hfits & Hsize & b & Hb).
  eexists _, w', _, h'. split; [exact Hrun|].
  cbn [statistics generation duration fitness_list size_list best
       best_compiled halloffame items].
  split; [reflexivity|]. split; [reflexivity|]. split; [reflexivity|].
  split; [exact Hfits|]. split; [exact Hsize|].
  split; [reflexivity|]. split; [reflexivity|]. split; [|reflexivity].
  unfold fitness_valid. cbn [best]. rewrite Hb. reflexivity.
Qed.

Lemma generation_record_contents_witness :
  exists st' w' record best_ref,
    generation_step sample_division config_three sample_clock
                    (mkState [0; 1; 2] (mkHof 1 [] []) []) 0 world_trio
    = Ok (st', w') /\
    statistics st' = [] ++ [record] /\
    generation record = 0 /\
    duration record = (sample_clock (2 * 0 + 1)%nat - sample_clock (2 * 0)%nat)%Q /\
    Forall2 (fun r v =>
               exists mse,
                 fitness_function_mse sample_division (pset config_three)
                   (tree (lookup world_trio r)) (training_data config_three)
                 = Ok [mse] /\
                 (v == mse)%Q)
            [0; 1; 2] (fitness_list record) /\
    size_list record = map (fun r => len (tree (lookup world_trio r))) [0; 1; 2] /\
    items (halloffame st') = [best_ref] /\
    best record = lookup w' best_ref /\
    fitness_valid (best record) = true /\
    best_compiled record
    = Lambda (arguments (pset config_three)) (tree (best record)).
Proof.
  apply (generation_record_contents sample_division config_three sample_clock
           0 (mkState [0; 1; 2] (mkHof 1 [] []) []) world_trio).
  - unfold valid_config, rectangular, shape0, shape1; simpl.
    repeat split; try lia; repeat constructor.
  - unfold loop_invariant, heap_closed, archive_ok; simpl.
    split; [reflexivity|]. split; [repeat constructor|].
    split; [repeat constructor|]. split; [reflexivity|].
    left. split; reflexivity.
Defined.


(** ** The ephemeral constants *)

Lemma unit_float_lt_1 (raw : N) : (unit_float raw < 1)%Q.
Proof.
  unfold unit_float, Qlt. cbn [Qnum Qden].
  rewrite Z.mul_1_r, Z.mul_1_l.
  change (Z.pos 9007199254740992) with (Z.of_N 9007199254740992).
  apply N2Z.inj_lt. apply N.mod_lt. discriminate.
Qed.

(** Rounding to the nearest integer moves a number by at most one half. *)
Lemma round_half_even_near (y : Q) :
  (y - (1 # 2) <= inject_Z (round_half_even y) <= y + (1 # 2))%Q.
Proof.
  unfold round_half_even.
  pose proof (Qfloor_le y) as Hlo.
  pose proof (Qlt_floor y) as Hhi.
  rewrite inject_Z_plus in Hhi.
  change (inject_Z 1) with 1%Q in Hhi.
  destruct (Qcompare (y - inject_Z (Qfloor y)) (1 # 2)) eqn:E.
  - apply Qeq_alt in E.
    destruct (Z.even (Qfloor y)).
    + split; lra.
    + rewrite inject_Z_plus. change (inject_Z 1) with 1%Q. split; lra.
  - apply Qlt_alt in E. split; lra.
  - apply Qgt_alt in E. rewrite inject_Z_plus.
    change (inject_Z 1) with 1%Q. split; lra.
Qed.

Lemma uniform_in_range (low high u : Q) :
  (low <= high)%Q -> (0 <= u)%Q -> (u < 1)%Q ->
  (low <= low + (high - low) * u <= high)%Q.
Proof.
  intros Hlh Hu0 Hu1.
  assert (H0 : (0 <= (high - low) * u)%Q).
  { apply Qmult_le_0_compat; lra. }
  assert (H1 : (0 <= (high - low) * (1 - u))%Q).
  { apply Qmult_le_0_compat; lra. }
  split; [lra|].
  assert (E : ((high - low) * (1 - u) == (high - low) - (high - low) * u)%Q)
    by ring.
  rewrite E in H1. lra.
Qed.

(** X15. Every ephemeral constant (line 199) is one draw of the numpy
    generator, scaled to the configured range and rounded to four decimal
    places: a multiple of 0.0001 that is at most 0.00005 outside
    [[random_lower, random_upper]]. Drawing it changes neither the heap nor
    the state of Python's generator. *)
Theorem ephemeral_constant_is_a_rounded_draw (config : Config) (w : world) :
  (random_lower config <= random_upper config)%Q ->
  exists c w',
    randomTerm_value config w = Ok (c, w') /\
    heap w' = heap w /\
    py_random w' = py_random w /\
    cursor (np_random w') = S (cursor (np_random w)) /\
    (exists z : Z, c == inject_Z z / 10000)%Q /\
    (random_lower config - (1 # 20000) <= c)%Q /\
    (c <= random_upper config + (1 # 20000))%Q.
Proof.
  intros Hrange.
  set (u := unit_float (tape (np_random w) (cursor (np_random w)))).
  set (x := (random_lower config
             + (random_upper config - random_lower config) * u)%Q).
  exists (py_round x 4).
  exists (mkWorld (py_random w)
                  (mkRng (tape (np_random w)) (S (cursor (np_random w))))
                  (heap w)).
  split; [reflexivity|]. split; [reflexivity|]. split; [reflexivity|].
  split; [reflexivity|].
  unfold py_round.
  change (inject_Z (10 ^ Z.of_nat 4)) with 10000%Q.
  split.
  - exists (round_half_even (x * 10000)). reflexivity.
  - pose proof (round_half_even_near (x * 10000)) as [Hlo Hhi].
    pose proof (uniform_in_range _ _ u Hrange
                  (unit_float_nonneg _) (unit_float_lt_1 _)) as [Hx1 Hx2].
    fold x in Hx1, Hx2.
    set (r := inject_Z (round_half_even (x * 10000))) in *.
    assert (E : (r / 10000 == r * (1 # 10000))%Q) by (field; discriminate).
    rewrite E. split; lra.
Qed.

Lemma ephemeral_constant_is_a_rounded_draw_witness :
  exists c w',
    randomTerm_value config_three world_three = Ok (c, w') /\
    heap w' = heap world_three /\
    py_random w' = py_random world_three /\
    cursor (np_random w') = S (cursor (np_random world_three)) /\
    (exists z : Z, c == inject_Z z / 10000)%Q /\
    (random_lower config_three - (1 # 20000) <= c)%Q /\
    (c <= random_upper config_three + (1 # 20000))%Q.
Proof.
  apply (ephemeral_constant_is_a_rounded_draw config_three world_three).
  simpl. unfold Qle. simpl. lia.
Defined.


(** ** Selection *)

Lemma random_choice_eq {A} (l : list A) (d : A) w :
  l <> [] ->
  random_choice l w = Ok (nth (py_draw w 0 (length l)) l d, py_advance 1 w).
Proof.
  intros Hne.
  assert (Hlt : py_draw w 0 (length l) < length l).
  { apply py_draw_lt. destruct l; [contradiction|simpl; lia]. }
  unfold random_choice. destruct l as [|a l']; [contradiction|].
  remember (a :: l') as l eqn:El.
  unfold bind, randbelow, bind, py_raw, next_raw, ret, lift, getitem.
  cbn [fst snd tape cursor py_random np_random heap].
  change (N.to_nat (tape (py_random w) (cursor (py_random w))
                    mod N.of_nat (length l)))
    with (py_draw w 0 (length l)).
  rewrite (nth_error_nth' l d Hlt). reflexivity.
Qed.

Lemma py_draw_advance (w : world) (k i m : nat) :
  py_draw (py_advance k w) i m = py_draw w (i + k) m.
Proof.
  unfold py_draw, py_advance, index_of_draw. cbn [py_random tape cursor].
  rewrite Nat.add_assoc. reflexivity.
Qed.

Lemma py_advance_advance (w : world) (k j : nat) :
  py_advance j (py_advance k w) = py_advance (j + k) w.
Proof.
  unfold py_advance. cbn [py_random np_random heap tape cursor].
  rewrite Nat.add_assoc. reflexivity.
Qed.

Lemma fitness_gt_false_singleton (i w : Individual) (x b : Q) :
  wvalues i = [x] -> wvalues w = [b] ->
  fitness_gt i w = false -> (x <= b)%Q.
Proof.
  unfold fitness_gt. intros -> ->. simpl.
  destruct (Qeq_bool x b) eqn:E.
  - intros _. apply Qeq_bool_iff in E. rewrite E. apply Qle_refl.
  - unfold Qlt_bool. rewrite negb_involutive. intros H.
    destruct (Qlt_le_dec x b) as [Hlt|Hle]; [apply Qlt_le_weak; exact Hlt|].
    apply Qle_bool_iff in Hle. rewrite Hle in H. discriminate.
Qed.

Section Tournament.

Variable individuals : list ref.
Hypothesis individuals_nonempty : individuals <> [].

(** One tournament of size 3. *)
Let tournament : M ref :=
  aspirants <- selRandom individuals 3 ;; max_by_fitness aspirants.

(** The [i]-th aspirant drawn from world [w] on. *)
Let aspirant (w : world) (i : nat) : ref :=
  nth (py_draw w i (length individuals)) individuals 0.

(** [winner] is one of the three aspirants of the tournament played after
    [3 * j] draws, and none of them has a smaller error. *)
Let wins (w : world) (j : nat) (winner : ref) : Prop :=
  (winner = aspirant w (3 * j) \/ winner = aspirant w (3 * j + 1) \/
   winner = aspirant w (3 * j + 2)) /\
  forall i, i < 3 ->
    exists e_a e_w,
      fitness_values (lookup w (aspirant w (3 * j + i))) = [e_a] /\
      fitness_values (lookup w winner) = [e_w] /\
      (e_w <= e_a)%Q.

Lemma aspirant_In w i : In (aspirant w i) individuals.
Proof.
  apply nth_In. apply py_draw_lt.
  destruct individuals; [contradiction|simpl; lia].
Qed.

Lemma tournament_eq w :
  tournament w
  = Ok (let a := aspirant w 0 in
        let b := aspirant w 1 in
        let c := aspirant w 2 in
        let best := if fitness_gt (lookup w b) (lookup w a) then b else a in
        if fitness_gt (lookup w c) (lookup w best) then c else best,
        py_advance 3 w).
Proof.
  unfold tournament, selRandom, repeat_M. cbn [seq map_M].
  unfold bind at 1. unfold bind at 1.
  rewrite (random_choice_eq individuals 0 w individuals_nonempty).
  unfold bind at 1. unfold bind at 1.
  rewrite (random_choice_eq individuals 0 _ individuals_nonempty).
  unfold bind at 1. unfold bind at 1.
  rewrite (random_choice_eq individuals 0 _ individuals_nonempty).
  reflexivity.
Qed.

Lemma tournament_wins w :
  (forall r, In r individuals -> exists x, wvalues (lookup w r) = [x]) ->
  exists winner,
    tournament w = Ok (winner, py_advance 3 w) /\ wins w 0 winner.
Proof.
  intros Hscored. rewrite tournament_eq. cbv zeta.
  destruct (Hscored _ (aspirant_In w 0)) as [xa Ha].
  destruct (Hscored _ (aspirant_In w 1)) as [xb Hb].
  destruct (Hscored _ (aspirant_In w 2)) as [xc Hc].
  eexists. split; [reflexivity|].
  assert (Hfit : forall r x, wvalues (lookup w r) = [x] ->
                             fitness_values (lookup w r) = [(x / -(1))%Q]).
  { intros r x H. apply fitness_values_singleton. exact H. }
  assert (Hwin : forall r x,
             (r = aspirant w 0 \/ r = aspirant w 1 \/ r = aspirant w 2) ->
             wvalues (lookup w r) = [x] ->
             (xa <= x)%Q -> (xb <= x)%Q -> (xc <= x)%Q -> wins w 0 r).
  { intros r x Hr Hx Hxa Hxb Hxc. split; [exact Hr|].
    intros [|[|[|i]]] Hi; try lia; cbn [Nat.mul Nat.add].
    - exists (xa / -(1))%Q, (x / -(1))%Q.
      split; [apply Hfit; exact Ha|]. split; [apply Hfit; exact Hx|].
      apply Qdiv_minus_one_le. exact Hxa.
    - exists (xb / -(1))%Q, (x / -(1))%Q.
      split; [apply Hfit; exact Hb|]. split; [apply Hfit; exact Hx|].
      apply Qdiv_minus_one_le. exact Hxb.
    - exists (xc / -(1))%Q, (x / -(1))%Q.
      split; [apply Hfit; exact Hc|]. split; [apply Hfit; exact Hx|].
      apply Qdiv_minus_one_le. exact Hxc. }
  destruct (fitness_gt (lookup w (aspirant w 1)) (lookup w (aspirant w 0)))
    eqn:E1.
  - pose proof (fitness_gt_singleton _ _ _ _ Hb Ha E1) as H1.
    destruct (fitness_gt (lookup w (aspirant w 2)) (lookup w (aspirant w 1)))
      eqn:E2.
    + pose proof (fitness_gt_singleton _ _ _ _ Hc Hb E2) as H2.
      apply (Hwin _ xc); auto; lra.
    + pose proof (fitness_gt_false_singleton _ _ _ _ Hc Hb E2) as H2.
      apply (Hwin _ xb); auto; lra.
  - pose proof (fitness_gt_false_singleton _ _ _ _ Hb Ha E1) as H1.
    destruct (fitness_gt (lookup w (aspirant w 2)) (lookup w (aspirant w 0)))
      eqn:E2.
    + pose proof (fitness_gt_singleton _ _ _ _ Hc Ha E2) as H2.
      apply (Hwin _ xc); auto; lra.
    + pose proof (fitness_gt_false_singleton _ _ _ _ Hc Ha E2) as H2.
      apply (Hwin _ xa); auto; lra.
Qed.

Lemma wins_advance w j r : wins (py_advance 3 w) j r -> wins w (S j) r.
Proof.
  unfold wins, aspirant. intros [Hr Hbest].
  rewrite !py_draw_advance in Hr.
  replace (3 * j + 3) with (3 * S j) in Hr by lia.
  replace (3 * j + 1 + 3) with (3 * S j + 1) in Hr by lia.
  replace (3 * j + 2 + 3) with (3 * S j + 2) in Hr by lia.
  split; [exact Hr|].
  intros i Hi. destruct (Hbest i Hi) as (e_a & e_w & H1 & H2 & H3).
  rewrite py_draw_advance in H1.
  replace (3 * j + i + 3) with (3 * S j + i) in H1 by lia.
  exists e_a, e_w. auto.
Qed.

Lemma tournaments_win (dummies : list nat) :
  forall w,
    (forall r, In r individuals -> exists x, wvalues (lookup w r) = [x]) ->
    exists chosen,
      map_M (fun _ => tournament) dummies w
      = Ok (chosen, py_advance (3 * length dummies) w) /\
      length chosen = length dummies /\
      forall j, j < length dummies -> wins w j (nth j chosen 0).
Proof.
  induction dummies as [|x l IH]; intros w Hscored.
  - exists []. split; [|split; [reflexivity|simpl; lia]].
    unfold py_advance. destruct w as [[t c] np h]. reflexivity.
  - destruct (tournament_wins w Hscored) as (r & Hr & Hwin).
    destruct (IH (py_advance 3 w) Hscored) as (chosen & Hrun & Hlen & Hwins).
    exists (r :: chosen). split; [|split].
    + cbn [map_M]. unfold bind at 1. rewrite Hr.
      unfold bind at 1. rewrite Hrun. unfold ret.
      rewrite py_advance_advance.
      replace (3 * length l + 3) with (3 * length (x :: l))
        by (cbn [length]; lia).
      reflexivity.
    + simpl. rewrite Hlen. reflexivity.
    + intros [|j] Hj; [exact Hwin|]. cbn [nth].
      apply wins_advance. apply Hwins. simpl in Hj. lia.
Qed.

End Tournament.

(** The maximum of the aspirants of a tournament, on fitnesses that may
    be NaN. *)
Section FloatTournament.

Import Float.

Let pick (best i : Individual) : Individual :=
  if fitness_gt i best then i else best.

Let no_worse (winner a : Individual) : Prop :=
  exists x y,
    wvalues a = [Number x] /\ wvalues winner = [Number y] /\ (x <= y)%Q.

Lemma fitness_gt_false_numbers (i b : Individual) (x y : Q) :
  wvalues i = [Number x] -> wvalues b = [Number y] ->
  fitness_gt i b = false -> (x <= y)%Q.
Proof.
  unfold fitness_gt. intros -> ->. cbn [tuple_le float_same float_le].
  rewrite negb_false_iff.
  destruct (Qeq_bool x y) eqn:He.
  - intros _. apply Qeq_bool_iff in He. rewrite He. apply Qle_refl.
  - intros H. apply Qle_bool_iff. exact H.
Qed.

Lemma no_worse_refl (a : Individual) :
  scored_with_a_number a -> no_worse a a.
Proof.
  intros [x Hx]. exists x, x. split; [exact Hx|].
  split; [exact Hx|apply Qle_refl].
Qed.

Lemma no_worse_trans (c b a : Individual) :
  no_worse c b -> no_worse b a -> no_worse c a.
Proof.
  intros (y & z & Hb & Hc & Hyz) (x & y' & Ha & Hb' & Hxy).
  rewrite Hb in Hb'. injection Hb' as <-.
  exists x, z. split; [exact Ha|]. split; [exact Hc|].
  apply Qle_trans with y; assumption.
Qed.

Lemma pick_numbers (best i : Individual) :
  scored_with_a_number best -> scored_with_a_number i ->
  (pick best i = best \/ pick best i = i) /\
  no_worse (pick best i) best /\ no_worse (pick best i) i.
Proof.
  intros Hb Hi. pose proof Hb as [y Hy]. pose proof Hi as [x Hx].
  unfold pick. destruct (fitness_gt i best) eqn:Hgt.
  - split; [right; reflexivity|]. split; [|apply no_worse_refl; exact Hi].
    exists y, x. split; [exact Hy|]. split; [exact Hx|].
    apply (fitness_gt_numbers i best x y Hx Hy Hgt).
  - split; [left; reflexivity|]. split; [apply no_worse_refl; exact Hb|].
    exists x, y. split; [exact Hx|]. split; [exact Hy|].
    apply (fitness_gt_false_numbers i best x y Hx Hy Hgt).
Qed.

Lemma max_loop_numbers (others : list Individual) :
  Forall scored_with_a_number others ->
  forall best,
    scored_with_a_number best ->
    let winner := fold_left pick others best in
    (winner = best \/ In winner others) /\
    no_worse winner best /\
    forall a, In a others -> no_worse winner a.
Proof.
  induction 1 as [|i l Hi Hl IH]; intros best Hb; cbv zeta.
  - split; [left; reflexivity|].
    split; [apply no_worse_refl; exact Hb|intros a []].
  - cbn [fold_left].
    destruct (pick_numbers best i Hb Hi) as (Hor & Hpb & Hpi).
    assert (Hp : scored_with_a_number (pick best i))
      by (destruct Hor as [-> | ->]; assumption).
    destruct (IH (pick best i) Hp) as (Hin & Hwp & Hall).
    split; [|split].
    + destruct Hin as [-> |Hin]; [|right; right; exact Hin].
      destruct Hor as [-> | ->]; [left; reflexivity|right; left; reflexivity].
    + apply no_worse_trans with (pick best i); assumption.
    + intros a [<-|Ha]; [|apply Hall; exact Ha].
      apply no_worse_trans with (pick best i); assumption.
Qed.

Lemma max_by_fitness_numbers (aspirants : list Individual) :
  aspirants <> [] ->
  Forall scored_with_a_number aspirants ->
  exists winner,
    max_by_fitness aspirants = Ok winner /\
    In winner aspirants /\
    forall a, In a aspirants ->
      exists e_a e_w,
        fitness_values a = [Number e_a] /\
        fitness_values winner = [Number e_w] /\
        (e_w <= e_a)%Q.
Proof.
  destruct aspirants as [|first others]; [intros H; destruct H; reflexivity|].
  intros _ Hall. inversion Hall as [|? ? Hf Ho]; subst.
  destruct (max_loop_numbers others Ho first Hf) as (Hin & Hwf & Hwo).
  exists (fold_left pick others first).
  split; [reflexivity|]. split.
  - destruct Hin as [-> |Hin]; [left; reflexivity|right; exact Hin].
  - intros a Ha.
    assert (Hw : no_worse (fold_left pick others first) a)
      by (destruct Ha as [<-|Ha]; [exact Hwf|apply Hwo; exact Ha]).
    destruct Hw as (x & y & Hx & Hy & Hxy).
    exists (x / -(1))%Q, (y / -(1))%Q.
    split; [unfold fitness_values; rewrite Hx; reflexivity|].
    split; [unfold fitness_values; rewrite Hy; reflexivity|].
    apply Qdiv_minus_one_le. exact Hxy.
Qed.

End FloatTournament.

(** With a NaN among the aspirants the maximum is whoever comes after it:
    here the aspirant of error 5, although the first one has error 1. *)
Lemma a_nan_aspirant_decides_the_tournament :
  Float.max_by_fitness
    [Float.mkInd tree_x [Float.Number (-(1))];
     Float.mkInd tree_2x [Float.NaN 0];
     Float.mkInd tree_3x [Float.Number (-(5))]]
  = Ok (Float.mkInd tree_3x [Float.Number (-(5))]).
Proof. reflexivity. Qed.

(** X16. Selection (line 57, with the tournaments of size 3 of line 213)
    when every fitness is a number, none being NaN. The maximum that
    decides a tournament is one of the aspirants, and no aspirant has a
    smaller error; with a NaN among the fitnesses this fails, as the lemma
    above shows. In a run, the [j]-th selected individual is one of the
    three members that the draws [3j], [3j+1] and [3j+2] of Python's
    generator name, and none of these three has a smaller error; no
    object changes and the numpy generator is not used. *)
Theorem selection_keeps_the_best_of_three_draws
        (aspirants : list Float.Individual)
        (population : list ref) (k : nat) (w : world) :
  aspirants <> [] ->
  Forall Float.scored_with_a_number aspirants ->
  population <> [] ->
  (forall r, In r population -> exists x, wvalues (lookup w r) = [x]) ->
  (exists winner,
      Float.max_by_fitness aspirants = Ok winner /\
      In winner aspirants /\
      forall a, In a aspirants ->
        exists e_a e_w,
          Float.fitness_values a = [Float.Number e_a] /\
          Float.fitness_values winner = [Float.Number e_w] /\
          (e_w <= e_a)%Q) /\
  exists chosen w',
    toolbox_select population k w = Ok (chosen, w') /\
    length chosen = k /\
    heap w' = heap w /\
    np_random w' = np_random w /\
    forall j, j < k ->
      let aspirant i :=
        nth (py_draw w (3 * j + i) (length population)) population 0 in
      let winner := nth j chosen 0 in
      (winner = aspirant 0 \/ winner = aspirant 1 \/ winner = aspirant 2) /\
      forall i, i < 3 ->
        exists e_a e_w,
          fitness_values (lookup w (aspirant i)) = [e_a] /\
          fitness_values (lookup w winner) = [e_w] /\
          (e_w <= e_a)%Q.
Proof.
  intros Hasp Hnum Hne Hscored.
  split; [apply max_by_fitness_numbers; assumption|].
  destruct (tournaments_win population Hne (seq 0 k) w Hscored)
    as (chosen & Hrun & Hlen & Hwins).
  rewrite length_seq in *.
  exists chosen, (py_advance (3 * k) w).
  split; [exact Hrun|]. split; [exact Hlen|].
  split; [reflexivity|]. split; [reflexivity|].
  intros j Hj. cbv zeta.
  destruct (Hwins j Hj) as [Hr Hbest].
  rewrite Nat.add_0_r. split; [exact Hr|exact Hbest].
Qed.

Lemma selection_keeps_the_best_of_three_draws_witness :
  (exists winner,
      Float.max_by_fitness
        [Float.mkInd tree_x [Float.Number (-(3))];
         Float.mkInd tree_2x [Float.Number (-(1))];
         Float.mkInd tree_3x [Float.Number (-(5))]] = Ok winner /\
      winner = Float.mkInd tree_2x [Float.Number (-(1))]) /\
  exists chosen w',
    toolbox_select [0; 1; 2] 3 world_trio = Ok (chosen, w') /\
    length chosen = 3 /\
    heap w' = heap world_trio /\
    np_random w' = np_random world_trio /\
    forall j, j < 3 ->
      let aspirant i := nth (py_draw world_trio (3 * j + i) 3) [0; 1; 2] 0 in
      let winner := nth j chosen 0 in
      (winner = aspirant 0 \/ winner = aspirant 1 \/ winner = aspirant 2) /\
      forall i, i < 3 ->
        exists e_a e_w,
          fitness_values (lookup world_trio (aspirant i)) = [e_a] /\
          fitness_values (lookup world_trio winner) = [e_w] /\
          (e_w <= e_a)%Q.
Proof.
  destruct (selection_keeps_the_best_of_three_draws
              [Float.mkInd tree_x [Float.Number (-(3))];
               Float.mkInd tree_2x [Float.Number (-(1))];
               Float.mkInd tree_3x [Float.Number (-(5))]]
              [0; 1; 2] 3 world_trio) as [Hmax Hrun].
  - discriminate.
  - repeat constructor; eexists; reflexivity.
  - discriminate.
  - intros r [<-|[<-|[<-|[]]]]; eexists; reflexivity.
  - split; [|exact Hrun].
    eexists. split; reflexivity.
Defined.


(** ** Trees over the arguments of the primitive set *)



(** ** One-point crossover *)




(** ** The statistics of a run *)

Section Statistics.

Variable protected_div : Q -> Q -> Q.
Variable config : Config.
Variable time_clock : nat -> Q.
Hypothesis Hvalid : valid_config config.

Let n := arguments (pset config).

Lemma run_generations_records g :
  forall w, heap_closed n w ->
    exists st w',
      run_generations protected_div config time_clock g w = Ok (st, w') /\
      loop_invariant config g st w' /\
      Forall (record_ok config) (statistics st).
Proof.
  induction g as [|g IH]; intros w Hc.
  - destruct (run_generations_invariant protected_div config time_clock
                Hvalid 0 w Hc) as (st & w' & Hrun & Hinv).
    exists st, w'. split; [exact Hrun|]. split; [exact Hinv|].
    destruct Hinv as (_ & _ & _ & Hstats & _).
    destruct (statistics st); [constructor|discriminate].
  - destruct (IH w Hc) as (st & w' & Hrun & Hinv & Hrecords).
    destruct (generation_step_spec protected_div config time_clock Hvalid
                g st w' Hinv)
      as (hof1 & fits0 & size0 & w1 & ng & w2 & h0 & record & _ & _ & Hstep
          & _ & _ & _ & _ & _ & _ & Hinv').
    destruct (generation_step_record protected_div config time_clock Hvalid
                g st w' Hinv)
      as (next_gen & w'' & h' & fits & size & Hstep' & Hfits & Hsize & b & Hb).
    rewrite Hstep in Hstep'. injection Hstep' as _ _ Hstats _.
    apply app_inj_tail in Hstats. destruct Hstats as [_ ->].
    eexists. exists w2. split; [|split; [exact Hinv'|]].
    + rewrite run_generations_S. unfold bind. rewrite Hrun. exact Hstep.
    + cbn [statistics]. apply Forall_app. split; [exact Hrecords|].
      constructor; [|constructor].
      destruct Hinv as (Hlen & _).
      unfold record_ok.
      cbn [fitness_list size_list best best_compiled].
      split; [rewrite <- (Forall2_length Hfits); exact Hlen|].
      split; [|split; [|split]].
      * rewrite Hsize, length_map. exact Hlen.
      * rewrite Hsize. apply Forall_map. apply Forall_forall.
        intros r _. apply len_pos.
      * unfold fitness_valid. rewrite Hb. reflexivity.
      * reflexivity.
Qed.

End Statistics.

(** A run of at least one generation on a configuration that is not valid
    ends in an exception in its first generation. *)
Lemma run_on_an_invalid_configuration_raises
      (protected_div : Q -> Q -> Q) (config : Config)
      (time_clock : nat -> Q) (w : world) :
  rectangular (training_data config) ->
  ~ valid_config config ->
  1 <= num_generations config ->
  exists e, execute_algorithm protected_div config time_clock w = Raise e.
Proof.
  intros Hrect Hinvalid Hgen.
  destruct (Nat.eq_dec (size_population config) 0) as [Hsize|Hsize].
  { exists IndexError.
    unfold execute_algorithm. apply bind_raise_eq.
    unfold run_generations, initial_state, toolbox_population.
    rewrite Hsize.
    destruct (num_generations config) as [|g]; [lia|]. reflexivity. }
  destruct (Nat.eq_dec (shape0 (training_data config)) 0) as [Hrows|Hrows].
  { exists ZeroDivisionError.
    apply first_evaluation_raises; [lia|exact Hgen|].
    intros t Hc. apply mse_without_rows; assumption. }
  destruct (le_lt_dec (shape1 (training_data config)) 1) as [Hcols|Hcols].
  { exists TypeError.
    apply first_evaluation_raises; [lia|exact Hgen|].
    intros t Hc. apply mse_without_arguments; [|exact Hc|lia].
    unfold pset. simpl. lia. }
  exfalso. apply Hinvalid. unfold valid_config. repeat split; try lia.
  exact Hrect.
Qed.

(** X19. Whenever [execute_algorithm] returns, from any state of the two
    generators, every record of the statistics it returns holds one
    fitness value and one size, at least one node, for each of the
    [size_population] members of its generation, a best individual with
    its fitness set, and that individual's tree compiled. *)
Theorem every_record_of_a_run_is_complete
        (protected_div : Q -> Q -> Q) (config : Config)
        (time_clock : nat -> Q) (py np : rng)
        (stats : list GenerationRecord) (pop : list ref) (hof : HallOfFame)
        (w' : world) :
  rectangular (training_data config) ->
  execute_algorithm protected_div config time_clock (mkWorld py np [])
  = Ok ((stats, pop, hof), w') ->
  Forall (record_ok config) stats.
Proof.
  intros Hrect Hrun.
  destruct (num_generations config) as [|g] eqn:Hgen.
  - unfold execute_algorithm in Hrun. rewrite Hgen in Hrun.
    destruct (run_generations_0 protected_div config time_clock
                (mkWorld py np [])) as (st & w0 & Hrun0 & Hstats).
    unfold bind in Hrun. rewrite Hrun0 in Hrun.
    inversion Hrun; subst. rewrite Hstats. constructor.
  - assert (Hvalid : valid_config config).
    { assert (Hdec : valid_config config \/ ~ valid_config config).
      { unfold valid_config.
        destruct (Nat.eq_dec (size_population config) 0);
          destruct (Nat.eq_dec (shape0 (training_data config)) 0);
          destruct (le_lt_dec (shape1 (training_data config)) 1);
          try (right; intros (H1 & _ & H3 & H4); lia).
        left. repeat split; try lia. exact Hrect. }
      destruct Hdec as [H|H]; [exact H|].
      destruct (run_on_an_invalid_configuration_raises protected_div config
                  time_clock (mkWorld py np []) Hrect H) as [e He]; [lia|].
      rewrite He in Hrun. discriminate. }
    destruct (run_generations_records protected_div config time_clock Hvalid
                (num_generations config) (mkWorld py np [])
                (heap_closed_nil _ py np))
      as (st & w0 & Hrun0 & _ & Hrecords).
    unfold execute_algorithm, bind in Hrun. rewrite Hrun0 in Hrun.
    inversion Hrun; subst. exact Hrecords.
Qed.

Lemma every_record_of_a_run_is_complete_witness :
  exists stats pop hof w',
    execute_algorithm sample_division config_three sample_clock world_three
    = Ok ((stats, pop, hof), w') /\
    length stats = 2 /\
    Forall (record_ok config_three) stats.
Proof.
  destruct (execute_algorithm sample_division config_three sample_clock
              world_three) as [[[[stats pop] hof] w']|e] eqn:Hrun;
    [|vm_compute in Hrun; discriminate].
  exists stats, pop, hof, w'. split; [reflexivity|]. split.
  - vm_compute in Hrun. inversion Hrun. reflexivity.
  - apply (every_record_of_a_run_is_complete sample_division config_three
             sample_clock (py_random world_three) (np_random world_three)
             stats pop hof w').
    + repeat constructor.
    + exact Hrun.
Defined.
